(** * CommitTreeBuilder: the profiler's commit-tree reconstruction

    A shallow embedding of [src/devtools/views/Profiler/CommitTreeBuilder.js]
    ([getCommitTree], [recursivelyIniitliazeTree], [updateTree],
    [invalidateCommitTrees]) and the properties of it that the
    specification states.

    JavaScript objects are shared by reference, so [Node] objects and the
    [Map] objects that hold them live in an explicit heap; a [CommitTree]
    is the pair of a reference to its [nodes] map and its [rootID].
    Exceptions are results of an error monad that keeps the heap: what was
    written before a [throw] stays written.

    [__DEBUG__] is taken to be false: [debug] and [__printTree] only
    write to the console and are left out. *)

From Stdlib Require Import NArith ZArith Floats Uint63 Lia.
From stdpp Require Import base option list gmap strings.

Local Open Scope N_scope.

(** ** JavaScript values that occur in the module *)

(** A word of the [Uint32Array] is an [N]; [operations[i]] past the end
    is [undefined], here [None]. *)
Abbreviation word := (option N).

(** [stringTable] entries and the [displayName] / [key] fields:
    [undefined], [null] or a string. *)
Inductive jsstr : Type :=
  | SUndefined
  | SNull
  | SString (s : string).

(** A number used as a cursor: an exact non-negative integer or [NaN]
    (what [i + undefined] evaluates to). *)
Inductive num : Type :=
  | NaN
  | Num (n : N).

(** [a + b] where [b] may be [undefined]. *)
Definition num_add_word (a : N) (b : word) : num :=
  match b with
  | Some n => Num (a + n)
  | None => NaN
  end.

(** [a < b]: false as soon as one side is [NaN]. *)
Definition num_lt (a b : num) : bool :=
  match a, b with
  | Num x, Num y => x <? y
  | _, _ => false
  end.

(** [w / 1000] on IEEE doubles; [undefined / 1000] is [NaN]. The
    conversion of a 32-bit word to a double is exact. *)
Definition float_of_N (n : N) : float :=
  PrimFloat.of_uint63 (Uint63.of_Z (Z.of_N n)).

Definition micros_to_millis (w : word) : float :=
  match w with
  | Some n => PrimFloat.div (float_of_N n) (float_of_N 1000)
  | None => PrimFloat.nan
  end.

(** ** Nodes, maps, the heap *)

(** A [Node] object. A property that is absent reads [undefined], as a
    property that holds [undefined] does, and nothing in the module tells
    the two apart, so every field is a value that may be [undefined]:
    [None] for numbers and arrays, [SUndefined] for strings. The object
    [{}] is [emptyObject]. Array elements may be [undefined] as well
    ([concat] appends whatever it is given). *)
Record Node : Type := mkNode {
  children : option (list word);
  displayName : jsstr;
  id : word;
  key : jsstr;
  parentID : word;
  treeBaseDuration : option float;
}.

Definition emptyObject : Node :=
  {| children := None; displayName := SUndefined; id := None;
     key := SUndefined; parentID := None; treeBaseDuration := None |}.

Definition set_children (n : Node) (c : list word) : Node :=
  {| children := Some c; displayName := displayName n; id := id n;
     key := key n; parentID := parentID n;
     treeBaseDuration := treeBaseDuration n |}.

Definition set_treeBaseDuration (n : Node) (d : float) : Node :=
  {| children := children n; displayName := displayName n; id := id n;
     key := key n; parentID := parentID n; treeBaseDuration := Some d |}.

(** References are indices into the heap; allocation appends. *)
Abbreviation loc := nat.

(** A [Map<number, Node>]: keys are the values the code passes to
    [has] / [get] / [set], numbers or [undefined]; values are references
    to [Node] objects. *)
Abbreviation NodeMap := (gmap word loc).

Record Heap : Type := mkHeap {
  objs : list Node;
  maps : list NodeMap;
}.

Definition empty_heap : Heap := {| objs := []; maps := [] |}.

Record CommitTree : Type := mkCommitTree {
  nodes : loc;
  rootID : N;
}.

(** ** Errors and the monad *)

(** The exceptions the module can raise. The first four are the
    [throw]s of the source, named by their messages; [TypeError] is the
    runtime's, for a method call on [undefined].
    [BadReference] and [OutOfFuel] belong to the model only: a reference
    to nothing (no JavaScript value is one) and recursion cut short by
    the fuel of a definition. *)
Inductive error : Type :=
  | AlreadyContainsFiber (id : word)
  | DoesNotContainFiber (id : word)
  | UnsupportedBridgeOperation (operation : word)
  | UnableToReconstruct (rootID : N) (commitIndex : nat)
  | TypeError
  | BadReference
  | OutOfFuel.

Inductive Res (A : Type) : Type :=
  | OK (a : A)
  | Throw (e : error).
Arguments OK {A} a.
Arguments Throw {A} e.

Definition ST (S A : Type) : Type := S → Res A * S.

Definition st_ret {S A} (a : A) : ST S A := λ s, (OK a, s).

Definition st_bind {S A B} (c : ST S A) (k : A → ST S B) : ST S B :=
  λ s, match c s with
       | (OK a, s') => k a s'
       | (Throw e, s') => (Throw e, s')
       end.

Definition throw {S A} (e : error) : ST S A := λ s, (Throw e, s).

Declare Scope st_scope.
Delimit Scope st_scope with st.
Notation "x <- c ;; k" := (st_bind c (λ x, k))
  (at level 100, c at next level, right associativity) : st_scope.
Notation "c ;;; k" := (st_bind c (λ _, k))
  (at level 100, right associativity) : st_scope.
Local Open Scope st_scope.

(** [l.forEach(f)] for an effectful [f]. *)
Fixpoint forEach {S A} (f : A → ST S unit) (l : list A) : ST S unit :=
  match l with
  | [] => st_ret tt
  | x :: l' => f x ;;; forEach f l'
  end.

(** *** Heap primitives *)

Abbreviation M := (ST Heap).

(** [{...}]: a new object. *)
Definition alloc_node (n : Node) : M loc :=
  λ h, (OK (length (objs h)), {| objs := objs h ++ [n]; maps := maps h |}).

Definition read_node (l : loc) : M Node :=
  λ h, match objs h !! l with
       | Some n => (OK n, h)
       | None => (Throw BadReference, h)
       end.

(** Assignment to the properties of the object at [l]. *)
Definition write_node (l : loc) (n : Node) : M unit :=
  λ h, match objs h !! l with
       | Some _ => (OK tt, {| objs := <[l := n]> (objs h); maps := maps h |})
       | None => (Throw BadReference, h)
       end.

(** [new Map(...)] with the given content. *)
Definition alloc_map (m : NodeMap) : M loc :=
  λ h, (OK (length (maps h)), {| objs := objs h; maps := maps h ++ [m] |}).

Definition read_map (l : loc) : M NodeMap :=
  λ h, match maps h !! l with
       | Some m => (OK m, h)
       | None => (Throw BadReference, h)
       end.

Definition write_map (l : loc) (m : NodeMap) : M unit :=
  λ h, match maps h !! l with
       | Some _ => (OK tt, {| objs := objs h; maps := <[l := m]> (maps h) |})
       | None => (Throw BadReference, h)
       end.

(** [nodes.has(id)], [nodes.get(id)], [nodes.set(id, node)],
    [nodes.delete(id)]. *)
Definition map_has (nodes : loc) (id : word) : M bool :=
  m <- read_map nodes ;; st_ret (bool_decide (is_Some (m !! id))).

Definition map_get (nodes : loc) (id : word) : M (option loc) :=
  m <- read_map nodes ;; st_ret (m !! id).

Definition map_set (nodes : loc) (id : word) (node : loc) : M unit :=
  m <- read_map nodes ;; write_map nodes (<[id := node]> m).

Definition map_delete (nodes : loc) (id : word) : M unit :=
  m <- read_map nodes ;; write_map nodes (delete id m).

(** ** [updateTree] *)

(** [operations[i]]. *)
Definition word_at (operations : list N) (i : N) : word :=
  operations !! N.to_nat i.

(** [operations.slice(start, end)]: clamped to the buffer; an [end] that
    is [NaN] counts as 0 and gives the empty slice. *)
Definition slice (operations : list N) (start : N) (fin : num) : list N :=
  match fin with
  | Num e => take (N.to_nat (e - start)) (drop (N.to_nat start) operations)
  | NaN => []
  end.

(** [stringTable[ref]]. *)
Definition string_at (stringTable : list jsstr) (ref : word) : jsstr :=
  match ref with
  | Some k => default SUndefined (stringTable !! N.to_nat k)
  | None => SUndefined
  end.

(** [src/constants], [src/devtools/types] and [src/utils] are imported by
    the module; the opcodes, the root element type and the decoder of a
    run of code units are what it takes from them. *)
Class Imports : Type := {
  TREE_OPERATION_ADD : N;
  TREE_OPERATION_REMOVE : N;
  TREE_OPERATION_REORDER_CHILDREN : N;
  TREE_OPERATION_UPDATE_TREE_BASE_DURATION : N;
  ElementTypeRoot : N;
  utfDecodeString : list N → string;
}.

Section Builder.
Context `{Imports}.

(** The first loop of [updateTree]: [while (i < stringTableEnd)]. The
    loop ends on its own (see [reassemble_fuel]); [None] is the fuel
    running out. *)
Fixpoint reassembleStringTable (fuel : nat) (operations : list N)
    (stringTableEnd : num) (i : num) (stringTable : list jsstr)
    : option (num * list jsstr) :=
  if num_lt i stringTableEnd then
    match fuel, i with
    | S fuel', Num i0 =>
        let nextLength := word_at operations i0 in
        let i1 := i0 + 1 in
        let nextString :=
          utfDecodeString
            (slice operations i1 (num_add_word i1 nextLength)) in
        reassembleStringTable fuel' operations stringTableEnd
          (num_add_word i1 nextLength)
          (stringTable ++ [SString nextString])
    | _, _ => None
    end
  else Some (i, stringTable).

(** [getClonedNode]: [Object.assign({}, nodes.get(id))] copies the
    properties of the node, or none when [nodes.get(id)] is [undefined];
    the copy is registered under [id] either way. *)
Definition getClonedNode (nodes : loc) (id : word) : M loc :=
  source <- map_get nodes id ;;
  fields <- match source with
            | Some l => read_node l
            | None => st_ret emptyObject
            end ;;
  clonedNode <- alloc_node fields ;;
  map_set nodes id clonedNode ;;;
  st_ret clonedNode.

(** [case TREE_OPERATION_ADD]. Returns the cursor after the operation. *)
Definition opAdd (nodes : loc) (stringTable : list jsstr)
    (operations : list N) (i : N) : M num :=
  let id := word_at operations (i + 1) in
  let type := word_at operations (i + 2) in
  let i := i + 3 in
  has <- map_has nodes id ;;
  if (has : bool) then throw (AlreadyContainsFiber id)
  else if decide (type = Some ElementTypeRoot) then
    let i := i + 1 in
    let i := i + 1 in
    node <- alloc_node
      {| children := Some []; displayName := SNull; id := id; key := SNull;
         parentID := Some 0; treeBaseDuration := Some 0%float |} ;;
    map_set nodes id node ;;;
    st_ret (Num i)
  else
    let parentID := word_at operations i in
    let i := i + 1 in
    let i := i + 1 in
    let displayName := string_at stringTable (word_at operations i) in
    let i := i + 1 in
    let key := string_at stringTable (word_at operations i) in
    let i := i + 1 in
    parentNode <- getClonedNode nodes parentID ;;
    parent <- read_node parentNode ;;
    match parent.(children) with
    | None => throw TypeError
    | Some siblings =>
        write_node parentNode (set_children parent (siblings ++ [id])) ;;;
        node <- alloc_node
          {| children := Some []; displayName := displayName; id := id;
             key := key; parentID := parentID;
             treeBaseDuration := Some 0%float |} ;;
        map_set nodes id node ;;;
        st_ret (Num i)
    end.

(** One round of the [for] loop of [case TREE_OPERATION_REMOVE], from
    cursor [i]; returns the cursor after it. [getClonedNode] always
    returns an object, so the test [parentNode == null] is false and the
    [else] branch runs. *)
Definition removeFiber (nodes : loc) (operations : list N) (i : N) : M N :=
  let id := word_at operations i in
  let i := i + 1 in
  has <- map_has nodes id ;;
  if negb has then throw (DoesNotContainFiber id)
  else
    node <- getClonedNode nodes id ;;
    fields <- read_node node ;;
    let parentID := fields.(parentID) in
    map_delete nodes id ;;;
    parentNode <- getClonedNode nodes parentID ;;
    parent <- read_node parentNode ;;
    match parent.(children) with
    | None => throw TypeError
    | Some siblings =>
        write_node parentNode
          (set_children parent
             (filter (λ childID, childID ≠ id) siblings)) ;;;
        st_ret i
    end.

(** The [for] loop: [removeLength] rounds. *)
Fixpoint removeLoop (removeLength : nat) (nodes : loc)
    (operations : list N) (i : N) : M N :=
  match removeLength with
  | O => st_ret i
  | S rest =>
      i' <- removeFiber nodes operations i ;;
      removeLoop rest nodes operations i'
  end.

Definition opRemove (nodes : loc) (operations : list N) (i : N) : M num :=
  let removeLength := word_at operations (i + 1) in
  let i := i + 2 in
  i' <- removeLoop (N.to_nat (default 0 removeLength)) nodes operations i ;;
  st_ret (Num i').

(** [case TREE_OPERATION_REORDER_CHILDREN]. *)
Definition opReorderChildren (nodes : loc) (operations : list N) (i : N)
    : M num :=
  let id := word_at operations (i + 1) in
  let numChildren := word_at operations (i + 2) in
  let children :=
    slice operations (i + 3) (num_add_word (i + 3) numChildren) in
  let i' := num_add_word (i + 3) numChildren in
  node <- getClonedNode nodes id ;;
  fields <- read_node node ;;
  write_node node (set_children fields (Some <$> children)) ;;;
  st_ret i'.

(** [case TREE_OPERATION_UPDATE_TREE_BASE_DURATION]. *)
Definition opUpdateTreeBaseDuration (nodes : loc) (operations : list N)
    (i : N) : M num :=
  let id := word_at operations (i + 1) in
  node <- getClonedNode nodes id ;;
  fields <- read_node node ;;
  write_node node
    (set_treeBaseDuration fields
       (micros_to_millis (word_at operations (i + 2)))) ;;;
  st_ret (Num (i + 3)).

(** The [switch]: cases are tried in the order of the source. *)
Definition applyOperation (nodes : loc) (stringTable : list jsstr)
    (operations : list N) (i : N) : M num :=
  let operation := word_at operations i in
  if decide (operation = Some TREE_OPERATION_ADD) then
    opAdd nodes stringTable operations i
  else if decide (operation = Some TREE_OPERATION_REMOVE) then
    opRemove nodes operations i
  else if decide (operation = Some TREE_OPERATION_REORDER_CHILDREN) then
    opReorderChildren nodes operations i
  else if decide (operation = Some TREE_OPERATION_UPDATE_TREE_BASE_DURATION)
  then opUpdateTreeBaseDuration nodes operations i
  else throw (UnsupportedBridgeOperation operation).

(** The second loop: [while (i < operations.length)]. *)
Fixpoint operationsLoop (fuel : nat) (nodes : loc)
    (stringTable : list jsstr) (operations : list N) (i : num) : M unit :=
  if num_lt i (Num (N.of_nat (length operations))) then
    match fuel, i with
    | S fuel', Num i0 =>
        i' <- applyOperation nodes stringTable operations i0 ;;
        operationsLoop fuel' nodes stringTable operations i'
    | _, _ => throw OutOfFuel
    end
  else st_ret tt.

Definition updateTree (commitTree : CommitTree) (operations : list N)
    : M CommitTree :=
  previous <- read_map commitTree.(nodes) ;;
  nodes <- alloc_map previous ;;
  let stringTableSize := word_at operations 2 in
  let i := 3 in
  let stringTableEnd := num_add_word i stringTableSize in
  match reassembleStringTable (S (length operations)) operations
          stringTableEnd (Num i) [SNull] with
  | None => throw OutOfFuel
  | Some (i, stringTable) =>
      operationsLoop (S (length operations)) nodes stringTable
        operations i ;;;
      st_ret {| nodes := nodes; rootID := commitTree.(rootID) |}
  end.

(** ** The store, the cache and [getCommitTree] *)

(** [rootToCommitTreeMap] is the module's only global; an array of it is
    reached through the map alone, so it is kept as the list under its
    key, and [push] rewrites that entry. *)
Record State : Type := mkState {
  heap : Heap;
  rootToCommitTreeMap : gmap N (list CommitTree);
}.

Abbreviation C := (ST State).

Definition lift_heap {A} (c : M A) : C A :=
  λ s, let '(r, h) := c (heap s) in
       (r, {| heap := h; rootToCommitTreeMap := rootToCommitTreeMap s |}).

(** [if (!rootToCommitTreeMap.has(rootID)) rootToCommitTreeMap.set(rootID, [])]. *)
Definition ensure_entry (rootID : N) : C unit :=
  λ s, match rootToCommitTreeMap s !! rootID with
       | Some _ => (OK tt, s)
       | None =>
           (OK tt, {| heap := heap s;
                      rootToCommitTreeMap :=
                        <[rootID := []]> (rootToCommitTreeMap s) |})
       end.

(** The content of the array [rootToCommitTreeMap.get(rootID)]. *)
Definition commitTrees_of (rootID : N) (s : State) : list CommitTree :=
  default [] (rootToCommitTreeMap s !! rootID).

Definition get_commitTrees (rootID : N) : C (list CommitTree) :=
  λ s, (OK (commitTrees_of rootID s), s).

(** [commitTrees.push(commitTree)]. *)
Definition push_commitTree (rootID : N) (commitTree : CommitTree) : C unit :=
  λ s, (OK tt,
        {| heap := heap s;
           rootToCommitTreeMap :=
             <[rootID := commitTrees_of rootID s ++ [commitTree]]>
               (rootToCommitTreeMap s) |}).

Definition invalidateCommitTrees : C unit :=
  λ s, (OK tt, {| heap := heap s; rootToCommitTreeMap := ∅ |}).

(** What the module reads of [Store] ([src/devtools/store], imported):
    an entry of [profilingSnapshot], the two sources of profiling data
    and the choice between them. *)
Record SnapshotNode : Type := mkSnapshotNode {
  snapshot_children : list N;
  snapshot_displayName : jsstr;
  snapshot_key : jsstr;
}.

Record ProfilingData : Type := mkProfilingData {
  profilingOperations : gmap N (list (list N));
  profilingSnapshot : gmap N SnapshotNode;
}.

(** [store.profilingOperations] and [store.profilingSnapshot] are the
    fields of [ownProfilingData]. *)
Record Store : Type := mkStore {
  importedProfilingData : option ProfilingData;
  ownProfilingData : ProfilingData;
}.

Definition profilingData_of (store : Store) : ProfilingData :=
  match importedProfilingData store with
  | Some imported => imported
  | None => ownProfilingData store
  end.

Record ProfilingSummary : Type := mkProfilingSummary {
  summary_rootID : N;
  initialTreeBaseDurations : gmap N float;
}.

(** [recursivelyIniitliazeTree]. The recursion follows the [children] of
    the store's snapshot and ends when they are well founded (see
    [recursivelyIniitliazeTree_returns]); [fuel] bounds its depth. *)
Fixpoint recursivelyIniitliazeTree (fuel : nat) (id parentID : N)
    (nodes : loc) (durations : gmap N float) (store : Store) : M unit :=
  match profilingSnapshot (profilingData_of store) !! id with
  | Some node =>
      match fuel with
      | O => throw OutOfFuel
      | S fuel' =>
          object <- alloc_node
            {| id := Some id;
               children := Some (Some <$> snapshot_children node);
               displayName := snapshot_displayName node;
               key := snapshot_key node;
               parentID := Some parentID;
               treeBaseDuration := durations !! id |} ;;
          map_set nodes (Some id) object ;;;
          forEach
            (λ childID,
               recursivelyIniitliazeTree fuel' childID id nodes durations
                 store)
            (snapshot_children node)
      end
  | None => st_ret tt
  end.

(** [commitOperations != null && commitIndex < commitOperations.length],
    and then [commitOperations[commitIndex]]. *)
Definition commitOperations_at (store : Store) (rootID : N)
    (commitIndex : nat) : option (list N) :=
  match profilingOperations (profilingData_of store) !! rootID with
  | Some commitOperations => commitOperations !! commitIndex
  | None => None
  end.

(** The tail shared by the two branches of [getCommitTree]: apply the
    operations of the commit if there are any, push and return; throw
    otherwise. *)
Definition update_and_push (store : Store) (rootID : N) (commitIndex : nat)
    (previous : CommitTree) : C CommitTree :=
  match commitOperations_at store rootID commitIndex with
  | Some operations =>
      commitTree <- lift_heap (updateTree previous operations) ;;
      push_commitTree rootID commitTree ;;;
      st_ret commitTree
  | None => throw (UnableToReconstruct rootID commitIndex)
  end.

(** [getCommitTree]. [commitIndex] is an index of an array; [fuel] is
    the fuel of [recursivelyIniitliazeTree]. *)
Fixpoint getCommitTree (fuel : nat) (commitIndex : nat)
    (profilingSummary : ProfilingSummary) (store : Store) : C CommitTree :=
  let rootID := summary_rootID profilingSummary in
  ensure_entry rootID ;;;
  commitTrees <- get_commitTrees rootID ;;
  match commitTrees !! commitIndex with
  | Some commitTree => st_ret commitTree
  | None =>
      match commitIndex with
      | O =>
          nodes <- lift_heap (alloc_map ∅) ;;
          lift_heap
            (recursivelyIniitliazeTree fuel rootID 0 nodes
               (initialTreeBaseDurations profilingSummary) store) ;;;
          update_and_push store rootID commitIndex
            {| nodes := nodes; rootID := rootID |}
      | S previousIndex =>
          previousCommitTree <-
            getCommitTree fuel previousIndex profilingSummary store ;;
          update_and_push store rootID commitIndex previousCommitTree
      end
  end.

(** ** Definitions used by the statements *)

(** What [updateTree] does before its second loop: copy the map of the
    previous tree, reassemble the string table. The result is the new
    map, the string table and the cursor the second loop starts from. *)
Definition loopStart (commitTree : CommitTree) (operations : list N)
    : M (loc * list jsstr * num) :=
  previous <- read_map commitTree.(nodes) ;;
  nodes <- alloc_map previous ;;
  match reassembleStringTable (S (length operations)) operations
          (num_add_word 3 (word_at operations 2)) (Num 3) [SNull] with
  | None => throw OutOfFuel
  | Some (i, stringTable) => st_ret (nodes, stringTable, i)
  end.

(** The first [n] rounds of the second loop (fewer when the loop ends
    before); the result is the cursor they leave. *)
Fixpoint iterations (n : nat) (nodes : loc) (stringTable : list jsstr)
    (operations : list N) (i : num) : M num :=
  match n with
  | O => st_ret i
  | S n' =>
      if num_lt i (Num (N.of_nat (length operations))) then
        match i with
        | Num i0 =>
            i' <- applyOperation nodes stringTable operations i0 ;;
            iterations n' nodes stringTable operations i'
        | NaN => st_ret i
        end
      else st_ret i
  end.

(** The words of a string table whose entries are [entries]: each entry
    is its length followed by its code units. *)
Fixpoint encodeStringTable (entries : list (list N)) : list N :=
  match entries with
  | [] => []
  | entry :: rest =>
      N.of_nat (length entry) :: entry ++ encodeStringTable rest
  end.

(** A sequence of calls of [getCommitTree], each with its own arguments,
    run one after the other whatever each returns or throws. *)
Definition call : Type := nat * nat * ProfilingSummary * Store.

Fixpoint runCalls (calls : list call) (s : State) : State :=
  match calls with
  | [] => s
  | (fuel, commitIndex, profilingSummary, store) :: rest =>
      runCalls rest
        (getCommitTree fuel commitIndex profilingSummary store s).2
  end.

End Builder.

Abbreviation C := (ST State).

(** ** Heaps that keep what was there *)

Section Keeps.
Local Open Scope nat_scope.

(** [keeps bo bm h h']: [h'] has every object of [h] below [bo] and every
    map of [h] below [bm] as it was, and nothing was deallocated. *)
Definition keeps (bo bm : nat) (h h' : Heap) : Prop :=
  length (objs h) ≤ length (objs h') ∧
  length (maps h) ≤ length (maps h') ∧
  (∀ l, l < bo → objs h' !! l = objs h !! l) ∧
  (∀ l, l < bm → maps h' !! l = maps h !! l).

(** [framed bo bm c Q E]: run from a heap that holds the objects below
    [bo] and the maps below [bm], [c] leaves them alone, whether it
    returns or throws; what it returns satisfies [Q] and what it throws
    satisfies [E]. *)
Definition framed {A} (bo bm : nat) (c : M A) (Q : A → Prop)
    (E : error → Prop) : Prop :=
  ∀ h, bo ≤ length (objs h) → bm ≤ length (maps h) →
    keeps bo bm h (c h).2 ∧
    match (c h).1 with
    | OK a => Q a
    | Throw e => E e
    end.

(** [extends s s']: every array of the cache of [s] is in the cache of
    [s'], under the same key, with the same trees at the same indices;
    trees may have been pushed after them. *)
Definition extends (s s' : State) : Prop :=
  ∀ rootID l, rootToCommitTreeMap s !! rootID = Some l →
    ∃ l', rootToCommitTreeMap s' !! rootID = Some (l ++ l').

(** [framed] for a computation on the heap and the cache. *)
Definition framedC {A} (bo bm : nat) (c : C A) (Q : A → Prop) : Prop :=
  ∀ s, bo ≤ length (objs (heap s)) → bm ≤ length (maps (heap s)) →
    keeps bo bm (heap s) (heap (c s).2) ∧
    extends s (c s).2 ∧
    match (c s).1 with
    | OK a => Q a
    | Throw _ => True
    end.

End Keeps.

(** The rounds the second loop of [updateTree] can still make from
    cursor [i]: each one moves the cursor forward. *)
Definition remaining (operations : list N) (i : num) : nat :=
  match i with
  | Num n => length operations - N.to_nat n
  | NaN => 0
  end.

Definition advances (i : N) (i' : num) : Prop :=
  match i' with
  | Num j => i < j
  | NaN => True
  end.

(** The [Node] that [recursivelyIniitliazeTree] makes of the entry
    [node] of the store's snapshot for [id], reached from [parentID]. *)
Definition snapshotObject (durations : gmap N float) (id parentID : N)
    (node : SnapshotNode) : Node :=
  {| id := Some id;
     children := Some (Some <$> snapshot_children node);
     displayName := snapshot_displayName node;
     key := snapshot_key node;
     parentID := Some parentID;
     treeBaseDuration := durations !! id |}.

(** Every entry of the map [m] is an id of the store's snapshot with an
    object made of its entry there. *)
Definition fromSnapshot (store : Store) (durations : gmap N float)
    (h : Heap) (m : NodeMap) : Prop :=
  ∀ k l, m !! k = Some l →
    ∃ id node parentID,
      k = Some id ∧
      profilingSnapshot (profilingData_of store) !! id = Some node ∧
      objs h !! l = Some (snapshotObject durations id parentID node).

(** ** Invariants of the map that [updateTree] fills *)

(** Every entry of the map [m] refers to an object of [os], and key,
    reference and object are related by [R]. *)
Definition entries (R : word → loc → Node → Prop) (os : list Node)
    (m : NodeMap) : Prop :=
  ∀ k l, m !! k = Some l → ∃ node, os !! l = Some node ∧ R k l node.

(** The errors that the source and the runtime raise in [updateTree]. *)
Definition sourceError (e : error) : Prop :=
  match e with
  | AlreadyContainsFiber _ | DoesNotContainFiber _
  | UnsupportedBridgeOperation _ | TypeError => True
  | UnableToReconstruct _ _ | BadReference | OutOfFuel => False
  end.

(** [filling bo ns R h]: the heap has its first [bo] objects, and the
    map at [ns] is there with entries that satisfy [R]. *)
Definition filling (bo : nat) (ns : loc) (R : word → loc → Node → Prop)
    (h : Heap) : Prop :=
  (bo ≤ length (objs h))%nat ∧
  ∃ m : NodeMap, maps h !! ns = Some m ∧ entries R (objs h) m.

(** A computation that, from a heap where [P] holds, returns a value
    and a heap that satisfy [Q], or throws an error of the source and
    leaves the map at [ns] filled as [filling] says. *)
Definition triple {A} (bo : nat) (ns : loc)
    (R : word → loc → Node → Prop) (P : Heap → Prop) (c : M A)
    (Q : A → Heap → Prop) : Prop :=
  ∀ h, P h →
    match c h with
    | (OK a, h') => Q a h'
    | (Throw e, h') => sourceError e ∧ filling bo ns R h'
    end.

(** ** Calls of the two exported functions *)

(** A call of [getCommitTree] with its arguments, or a call of
    [invalidateCommitTrees]. *)
Inductive command : Type :=
  | GetCommitTree (fuel commitIndex : nat)
      (profilingSummary : ProfilingSummary) (store : Store)
  | InvalidateCommitTrees.

Section Commands.
Context `{Imports}.

(** The state after the calls, run one after the other whatever each
    returns or throws. *)
Fixpoint runCommands (commands : list command) (s : State) : State :=
  match commands with
  | [] => s
  | GetCommitTree fuel commitIndex profilingSummary store :: rest =>
      runCommands rest
        (getCommitTree fuel commitIndex profilingSummary store s).2
  | InvalidateCommitTrees :: rest =>
      runCommands rest (invalidateCommitTrees s).2
  end.

End Commands.

(** ** A cache whose trees are in the heap *)

(** A tree that belongs to the array of root [r]: its [rootID] is [r],
    its map is in the heap, and every id of the map refers to an object
    of the heap. *)
Definition validTree (h : Heap) (r : N) (t : CommitTree) : Prop :=
  rootID t = r ∧ filling 0 (nodes t) (λ _ _ _, True) h.

Definition consistent (s : State) : Prop :=
  ∀ r trees j t,
    rootToCommitTreeMap s !! r = Some trees → trees !! j = Some t →
    validTree (heap s) r t.

(** What a call of [getCommitTree] for [commitIndex] of root [r] throws
    from such a cache: an error of [updateTree], the walk of the
    snapshot going deeper than its bound, or no operations for a commit
    up to [commitIndex]. *)
Definition knownError (r : N) (commitIndex : nat) (e : error) : Prop :=
  sourceError e ∨ e = OutOfFuel ∨
  ∃ j, (j ≤ commitIndex)%nat ∧ e = UnableToReconstruct r j.

(** What such a call leaves: a consistent cache and, when it returns, a
    tree of root [r] that is in the heap. *)
Definition outcome (r : N) (commitIndex : nat)
    (result : Res CommitTree * State) : Prop :=
  consistent result.2 ∧
  match result.1 with
  | OK t => validTree (heap result.2) r t
  | Throw e => knownError r commitIndex e
  end.

(** ** A concrete instance *)

(** Values for the imports: four distinct opcodes, a root element type,
    and a decoder that reads each code unit as a character. *)
Definition exampleImports : Imports :=
  {| TREE_OPERATION_ADD := 1;
     TREE_OPERATION_REMOVE := 2;
     TREE_OPERATION_REORDER_CHILDREN := 3;
     TREE_OPERATION_UPDATE_TREE_BASE_DURATION := 4;
     ElementTypeRoot := 8;
     utfDecodeString :=
       foldr (λ unit text, String (Ascii.ascii_of_N unit) text) EmptyString |}.

(** A tree of two fibers: root 1 and its child 2. *)
Definition exampleRoot : Node :=
  {| children := Some [Some 2]; displayName := SNull; id := Some 1;
     key := SNull; parentID := Some 0; treeBaseDuration := Some 0%float |}.

Definition exampleChild : Node :=
  {| children := Some []; displayName := SString "Child"; id := Some 2;
     key := SNull; parentID := Some 1; treeBaseDuration := Some 0%float |}.

Definition exampleMap : NodeMap :=
  <[Some 1 := 0%nat]> (<[Some 2 := 1%nat]> ∅).

Definition exampleHeap : Heap :=
  {| objs := [exampleRoot; exampleChild]; maps := [exampleMap] |}.

Definition exampleTree : CommitTree := {| nodes := 0%nat; rootID := 1 |}.

(** The heap when the second loop of [updateTree exampleTree] starts. *)
Definition exampleStart : Heap :=
  {| objs := [exampleRoot; exampleChild]; maps := [exampleMap; exampleMap] |}.

(** A cache that holds [exampleTree] as commit 0 of root 1, and the
    empty one. *)
Definition exampleState : State :=
  {| heap := exampleHeap;
     rootToCommitTreeMap := <[1 := [exampleTree]]> ∅ |}.

Definition emptyState : State :=
  {| heap := empty_heap; rootToCommitTreeMap := ∅ |}.

(** A store whose snapshot is the root 1 alone and whose root 1 has the
    operations [commitOperations], one buffer per commit. *)
Definition exampleStore (commitOperations : option (list (list N))) : Store :=
  {| importedProfilingData := None;
     ownProfilingData :=
       {| profilingOperations :=
            match commitOperations with
            | Some buffers => <[1 := buffers]> ∅
            | None => ∅
            end;
          profilingSnapshot :=
            <[1 := {| snapshot_children := [];
                      snapshot_displayName := SString "Root";
                      snapshot_key := SNull |}]> ∅ |} |}.

Definition exampleSummary : ProfilingSummary :=
  {| summary_rootID := 1;
     initialTreeBaseDurations := <[1 := 0%float]> ∅ |}.

(** Commit 0 of this store adds fiber 1 to a tree that has it. *)
Definition duplicateStore : Store :=
  exampleStore (Some [[0; 0; 0; 1; 1; 8; 0; 0]; [0; 0; 0]]).

(** Commit 0 of this store sets the duration of the root to 1000
    microseconds and commit 1 adds fiber 2 under it. *)
Definition twoCommitsStore : Store :=
  exampleStore
    (Some [[0; 0; 0; 4; 1; 1000]; [0; 0; 0; 1; 2; 5; 1; 0; 0; 0]]).

(** A store without operations whose snapshot has the root 1 and its
    child 2. *)
Definition nestedStore : Store :=
  {| importedProfilingData := None;
     ownProfilingData :=
       {| profilingOperations := ∅;
          profilingSnapshot :=
            <[1 := {| snapshot_children := [2];
                      snapshot_displayName := SString "Root";
                      snapshot_key := SNull |}]>
              (<[2 := {| snapshot_children := [];
                         snapshot_displayName := SString "Child";
                         snapshot_key := SNull |}]> ∅) |} |}.

(** A store whose snapshot has the root 1 among its own children. *)
Definition cyclicStore : Store :=
  {| importedProfilingData := None;
     ownProfilingData :=
       {| profilingOperations := ∅;
          profilingSnapshot :=
            <[1 := {| snapshot_children := [1];
                      snapshot_displayName := SString "Root";
                      snapshot_key := SNull |}]> ∅ |} |}.

(** A cache that holds [exampleTree] as commit 0 of root 7. *)
Definition otherRootState : State :=
  {| heap := exampleHeap;
     rootToCommitTreeMap := <[7 := [exampleTree]]> ∅ |}.

(** * Properties *)

(** ** The monad *)

Lemma st_bind_OK {S A B} (c : ST S A) (k : A → ST S B) s a s' :
  c s = (OK a, s') → st_bind c k s = k a s'.
Proof. unfold st_bind. by intros ->. Qed.

Lemma st_bind_Throw {S A B} (c : ST S A) (k : A → ST S B) s e s' :
  c s = (Throw e, s') → st_bind c k s = (Throw e, s').
Proof. unfold st_bind. by intros ->. Qed.

(** ** Heap primitives on a heap that is known *)

Lemma read_map_inv l h r h' :
  read_map l h = (r, h') →
  h' = h ∧ (∀ m, r = OK m → maps h !! l = Some m).
Proof.
  unfold read_map. destruct (maps h !! l); intros [= <- <-]; split;
    congruence.
Qed.

Lemma read_map_Some l h m :
  maps h !! l = Some m → read_map l h = (OK m, h).
Proof. unfold read_map. by intros ->. Qed.

Lemma read_node_Some l h n :
  objs h !! l = Some n → read_node l h = (OK n, h).
Proof. unfold read_node. by intros ->. Qed.

Lemma write_node_Some l h n0 n :
  objs h !! l = Some n0 →
  write_node l n h =
    (OK tt, {| objs := <[l := n]> (objs h); maps := maps h |}).
Proof. unfold write_node. by intros ->. Qed.

Lemma map_has_Some (ns : loc) (h : Heap) (m : NodeMap) (id : word) :
  maps h !! ns = Some m →
  map_has ns id h = (OK (bool_decide (is_Some (m !! id))), h).
Proof.
  intros Hm. unfold map_has.
  by rewrite (st_bind_OK _ _ _ _ _ (read_map_Some _ _ _ Hm)).
Qed.

Lemma map_get_Some (ns : loc) (h : Heap) (m : NodeMap) (id : word) :
  maps h !! ns = Some m → map_get ns id h = (OK (m !! id), h).
Proof.
  intros Hm. unfold map_get.
  by rewrite (st_bind_OK _ _ _ _ _ (read_map_Some _ _ _ Hm)).
Qed.

Lemma map_set_Some (ns : loc) (h : Heap) (m : NodeMap) (id : word) (l : loc) :
  maps h !! ns = Some m →
  map_set ns id l h =
    (OK tt, {| objs := objs h; maps := <[ns := <[id := l]> m]> (maps h) |}).
Proof.
  intros Hm. unfold map_set.
  rewrite (st_bind_OK _ _ _ _ _ (read_map_Some _ _ _ Hm)).
  unfold write_map. by rewrite Hm.
Qed.

Lemma map_delete_Some (ns : loc) (h : Heap) (m : NodeMap) (id : word) :
  maps h !! ns = Some m →
  map_delete ns id h =
    (OK tt, {| objs := objs h; maps := <[ns := delete id m]> (maps h) |}).
Proof.
  intros Hm. unfold map_delete.
  rewrite (st_bind_OK _ _ _ _ _ (read_map_Some _ _ _ Hm)).
  unfold write_map. by rewrite Hm.
Qed.

(** ** Frame rules *)

Section KeepsFacts.
Local Open Scope nat_scope.
Variables bo bm : nat.
Variable E : error → Prop.
Hypothesis E_BadReference : E BadReference.

Lemma keeps_refl h : keeps bo bm h h.
Proof. by repeat split. Qed.

Lemma keeps_trans h1 h2 h3 :
  keeps bo bm h1 h2 → keeps bo bm h2 h3 → keeps bo bm h1 h3.
Proof.
  intros (Ho1 & Hm1 & Hko1 & Hkm1) (Ho2 & Hm2 & Hko2 & Hkm2).
  repeat split; [lia | lia | |].
  - intros l Hl. by rewrite Hko2, Hko1.
  - intros l Hl. by rewrite Hkm2, Hkm1.
Qed.

Lemma framed_ret {A} (a : A) (Q : A → Prop) :
  Q a → framed bo bm (st_ret a) Q E.
Proof. intros Ha h _ _. split; [apply keeps_refl | done]. Qed.

Lemma framed_throw {A} e (Q : A → Prop) :
  E e → framed bo bm (throw e) Q E.
Proof. intros He h _ _. split; [apply keeps_refl | done]. Qed.

Lemma framed_bind {A B} (c : M A) (k : A → M B) Q R :
  framed bo bm c Q E → (∀ a, Q a → framed bo bm (k a) R E) →
  framed bo bm (st_bind c k) R E.
Proof.
  intros Hc Hk h Ho Hm. unfold st_bind.
  destruct (Hc h Ho Hm) as [Hkeep Hq].
  destruct (c h) as [[a|e] h1]; simpl in *; [|done].
  destruct Hkeep as (Ho1 & Hm1 & Hko1 & Hkm1).
  destruct (Hk a Hq h1) as [Hkeep2 Hr]; [lia | lia |].
  split; [|done].
  eapply keeps_trans; [|exact Hkeep2]. by repeat split.
Qed.

Lemma framed_weaken {A} (c : M A) (Q R : A → Prop) :
  framed bo bm c Q E → (∀ a, Q a → R a) → framed bo bm c R E.
Proof.
  intros Hc HQR h Ho Hm. destruct (Hc h Ho Hm) as [Hkeep Hq].
  split; [done|]. destruct (c h).1; auto.
Qed.

Lemma framed_alloc_node n : framed bo bm (alloc_node n) (λ l, bo ≤ l) E.
Proof.
  intros h Ho Hm. simpl. split; [|done].
  repeat split; simpl; rewrite ?length_app; try lia.
  intros l Hl. apply lookup_app_l. lia.
Qed.

Lemma framed_read_node l : framed bo bm (read_node l) (λ _, True) E.
Proof.
  intros h _ _. unfold read_node.
  destruct (objs h !! l); (split; [apply keeps_refl | done]).
Qed.

Lemma framed_write_node l n :
  bo ≤ l → framed bo bm (write_node l n) (λ _, True) E.
Proof.
  intros Hl h _ _. unfold write_node.
  destruct (objs h !! l); simpl; (split; [|done]).
  - repeat split; simpl; rewrite ?length_insert; try lia.
    intros l' Hl'. apply list_lookup_insert_ne. lia.
  - apply keeps_refl.
Qed.

Lemma framed_alloc_map m : framed bo bm (alloc_map m) (λ l, bm ≤ l) E.
Proof.
  intros h Ho Hm. simpl. split; [|done].
  repeat split; simpl; rewrite ?length_app; try lia.
  intros l Hl. apply lookup_app_l. lia.
Qed.

Lemma framed_read_map l : framed bo bm (read_map l) (λ _, True) E.
Proof.
  intros h _ _. unfold read_map.
  destruct (maps h !! l); (split; [apply keeps_refl | done]).
Qed.

Lemma framed_write_map l m :
  bm ≤ l → framed bo bm (write_map l m) (λ _, True) E.
Proof.
  intros Hl h _ _. unfold write_map.
  destruct (maps h !! l); simpl; (split; [|done]).
  - repeat split; simpl; rewrite ?length_insert; try lia.
    intros l' Hl'. apply list_lookup_insert_ne. lia.
  - apply keeps_refl.
Qed.

Lemma framed_map_has nodes id :
  framed bo bm (map_has nodes id) (λ _, True) E.
Proof.
  eapply framed_bind; [apply framed_read_map|].
  intros m _. by apply framed_ret.
Qed.

Lemma framed_map_get nodes id :
  framed bo bm (map_get nodes id) (λ _, True) E.
Proof.
  eapply framed_bind; [apply framed_read_map|].
  intros m _. by apply framed_ret.
Qed.

Lemma framed_map_set nodes id node :
  bm ≤ nodes → framed bo bm (map_set nodes id node) (λ _, True) E.
Proof.
  intros Hn. eapply framed_bind; [apply framed_read_map|].
  intros m _. by apply framed_write_map.
Qed.

Lemma framed_map_delete nodes id :
  bm ≤ nodes → framed bo bm (map_delete nodes id) (λ _, True) E.
Proof.
  intros Hn. eapply framed_bind; [apply framed_read_map|].
  intros m _. by apply framed_write_map.
Qed.

Lemma framed_forEach {A} (f : A → M unit) (l : list A) :
  (∀ x, x ∈ l → framed bo bm (f x) (λ _, True) E) →
  framed bo bm (forEach f l) (λ _, True) E.
Proof.
  induction l as [|x l IH]; intros Hf; simpl.
  - by apply framed_ret.
  - eapply framed_bind; [apply Hf; left|].
    intros _ _. apply IH. intros y Hy. apply Hf. by right.
Qed.

End KeepsFacts.

(** Side conditions of the frame rules: a reference above the bound, an
    error that is allowed, a cursor that moved. *)
Ltac framed_side :=
  first
    [ done
    | lia
    | match goal with
      | Hs : ∀ e, e ≠ OutOfFuel → ?E e |- ?E _ => by apply Hs
      end
    | unfold advances; simpl; lia ].

Ltac framed_prim :=
  first
    [ apply framed_alloc_node
    | apply framed_read_node; framed_side
    | apply framed_write_node; framed_side
    | apply framed_alloc_map
    | apply framed_read_map; framed_side
    | apply framed_write_map; framed_side
    | apply framed_map_has; framed_side
    | apply framed_map_get; framed_side
    | apply framed_map_set; framed_side
    | apply framed_map_delete; framed_side ].

Ltac framed_auto :=
  repeat first
    [ framed_prim
    | apply framed_throw; framed_side
    | apply framed_ret; framed_side
    | eapply framed_bind; [framed_prim | cbv beta; intros]
    | match goal with
      | |- framed _ _ (if ?b then _ else _) _ _ => destruct b
      | |- framed _ _ (match ?x with _ => _ end) _ _ => destruct x
      end ].

(** ** [updateTree] writes to what it allocated *)

Section UpdateTreeFrame.
Context `{Imports}.
Local Open Scope nat_scope.
Variables bo bm : nat.
Variable E : error → Prop.
Hypothesis E_source : ∀ e, e ≠ OutOfFuel → E e.

Lemma framed_getClonedNode nodes id :
  bm ≤ nodes → framed bo bm (getClonedNode nodes id) (λ l, bo ≤ l) E.
Proof.
  intros Hn. unfold getClonedNode.
  eapply framed_bind; [apply framed_map_get; framed_side|].
  intros source _.
  eapply framed_bind with (Q := λ _, True).
  { destruct source; framed_auto. }
  intros fields _. framed_auto.
Qed.

Lemma framed_opAdd nodes stringTable operations i :
  bm ≤ nodes →
  framed bo bm (opAdd nodes stringTable operations i) (advances i) E.
Proof.
  intros Hn. unfold opAdd. framed_auto.
  eapply framed_bind; [by apply framed_getClonedNode|].
  cbv beta. intros parentNode Hp. framed_auto.
Qed.

Lemma framed_removeFiber nodes operations i :
  bm ≤ nodes →
  framed bo bm (removeFiber nodes operations i) (λ i', (i ≤ i')%N) E.
Proof.
  intros Hn. unfold removeFiber. framed_auto.
  eapply framed_bind; [by apply framed_getClonedNode|].
  cbv beta. intros node Hnode. framed_auto.
  eapply framed_bind; [by apply framed_getClonedNode|].
  cbv beta. intros parentNode Hp. framed_auto.
Qed.

Lemma framed_removeLoop removeLength nodes operations i :
  bm ≤ nodes →
  framed bo bm (removeLoop removeLength nodes operations i)
    (λ i', (i ≤ i')%N) E.
Proof.
  intros Hn. revert i.
  induction removeLength as [|rest IH]; intros i; simpl; [framed_auto|].
  eapply framed_bind; [by apply framed_removeFiber|].
  cbv beta. intros i1 Hi1.
  eapply framed_weaken; [apply IH|]. intros i'. simpl. lia.
Qed.

Lemma framed_opRemove nodes operations i :
  bm ≤ nodes →
  framed bo bm (opRemove nodes operations i) (advances i) E.
Proof.
  intros Hn. unfold opRemove.
  eapply framed_bind; [by apply framed_removeLoop|].
  intros i' Hi'. apply framed_ret. simpl in *. lia.
Qed.

Lemma framed_opReorderChildren nodes operations i :
  bm ≤ nodes →
  framed bo bm (opReorderChildren nodes operations i) (advances i) E.
Proof.
  intros Hn. unfold opReorderChildren.
  eapply framed_bind; [by apply framed_getClonedNode|].
  cbv beta. intros node Hnode. framed_auto.
  apply framed_ret. destruct (word_at operations (i + 2)); simpl; [lia|done].
Qed.

Lemma framed_opUpdateTreeBaseDuration nodes operations i :
  bm ≤ nodes →
  framed bo bm (opUpdateTreeBaseDuration nodes operations i)
    (advances i) E.
Proof.
  intros Hn. unfold opUpdateTreeBaseDuration.
  eapply framed_bind; [by apply framed_getClonedNode|].
  cbv beta. intros node Hnode. framed_auto.
Qed.

Lemma framed_applyOperation nodes stringTable operations i :
  bm ≤ nodes →
  framed bo bm (applyOperation nodes stringTable operations i)
    (advances i) E.
Proof.
  intros Hn. unfold applyOperation.
  repeat case_decide;
    auto using framed_opAdd, framed_opRemove, framed_opReorderChildren,
      framed_opUpdateTreeBaseDuration.
  apply framed_throw. by apply E_source.
Qed.

Lemma remaining_advances operations i i' :
  (i < N.of_nat (length operations))%N → advances i i' →
  remaining operations i' < remaining operations (Num i).
Proof. destruct i'; simpl; lia. Qed.

(** With as much fuel as there are rounds left the loop never runs out
    of it. *)
Lemma framed_operationsLoop fuel nodes stringTable operations i :
  bm ≤ nodes →
  E OutOfFuel ∨ remaining operations i ≤ fuel →
  framed bo bm (operationsLoop fuel nodes stringTable operations i)
    (λ _, True) E.
Proof.
  intros Hn. revert i. induction fuel as [|fuel IH]; intros i Hfuel; simpl.
  - destruct i as [|i]; simpl; [by apply framed_ret|].
    destruct (N.ltb_spec i (N.of_nat (length operations))) as [Hlt|Hge];
      [|by apply framed_ret].
    apply framed_throw. destruct Hfuel as [|Hfuel]; [done|].
    simpl in Hfuel. lia.
  - destruct i as [|i]; simpl; [by apply framed_ret|].
    destruct (N.ltb_spec i (N.of_nat (length operations))) as [Hlt|Hge];
      [|by apply framed_ret].
    eapply framed_bind; [by apply framed_applyOperation|].
    intros i' Hi'. apply IH. destruct Hfuel as [|Hfuel]; [by left|right].
    pose proof (remaining_advances operations i i' Hlt Hi'). lia.
Qed.

Lemma framed_iterations n nodes stringTable operations i :
  bm ≤ nodes →
  framed bo bm (iterations n nodes stringTable operations i) (λ _, True) E.
Proof.
  intros Hn. revert i. induction n as [|n IH]; intros i; simpl.
  - by apply framed_ret.
  - destruct (num_lt _ _); [|by apply framed_ret].
    destruct i; [by apply framed_ret|].
    eapply framed_bind; [by apply framed_applyOperation|].
    intros i' _. apply IH.
Qed.

End UpdateTreeFrame.

(** ** The loops end *)

Section Fuel.
Context `{Imports}.
Local Open Scope nat_scope.

(** Rounds the first loop can still make: one per word left, and one
    more that reads past the end and leaves the cursor [NaN]. *)
Lemma reassemble_fuel fuel operations stringTableEnd i stringTable :
  match i with
  | Num n => S (length operations - N.to_nat n)
  | NaN => 0
  end ≤ fuel →
  is_Some (reassembleStringTable fuel operations stringTableEnd i
             stringTable).
Proof.
  revert i stringTable.
  induction fuel as [|fuel IH]; intros i stringTable Hfuel; simpl.
  - destruct i; [|lia]. simpl. by eexists.
  - destruct (num_lt i stringTableEnd) eqn:Hlt; [|by eexists].
    destruct i as [|i]; [done|]. apply IH.
    unfold word_at. destruct (operations !! N.to_nat i) eqn:Hw; simpl.
    + apply lookup_lt_Some in Hw. lia.
    + lia.
Qed.

(** When it ends, the first loop is at or past the recorded end, or the
    cursor is [NaN]. *)
Lemma reassemble_exit fuel operations stringTableEnd i stringTable r :
  reassembleStringTable fuel operations stringTableEnd i stringTable
    = Some r →
  num_lt r.1 stringTableEnd = false.
Proof.
  revert i stringTable.
  induction fuel as [|fuel IH]; intros i stringTable; simpl.
  - destruct (num_lt i stringTableEnd) eqn:Hlt; [done|]. by intros [= <-].
  - destruct (num_lt i stringTableEnd) eqn:Hlt; [|by intros [= <-]].
    destruct i as [|i]; [done|]. apply IH.
Qed.

Lemma framed_loopStart bo bm E commitTree operations :
  (∀ e, e ≠ OutOfFuel → E e) →
  framed bo bm (loopStart commitTree operations) (λ r, bm ≤ r.1.1) E.
Proof.
  intros E_source. unfold loopStart.
  destruct (reassemble_fuel (S (length operations)) operations
              (num_add_word 3 (word_at operations 2)) (Num 3) [SNull])
    as [[i stringTable] ->]; [simpl; lia|].
  framed_auto.
Qed.

Lemma updateTree_loopStart commitTree operations h :
  updateTree commitTree operations h =
  (r <- loopStart commitTree operations ;;
   operationsLoop (S (length operations)) r.1.1 r.1.2 operations r.2 ;;;
   st_ret {| nodes := r.1.1; rootID := commitTree.(rootID) |}) h.
Proof.
  unfold updateTree, loopStart, st_bind.
  destruct (reassembleStringTable _ _ _ _ _) as [[i stringTable]|];
    by destruct (read_map _ h) as [[previous|e] h1].
Qed.

(** [updateTree] leaves what was there alone, returns a tree with the
    [rootID] it was given, and never stops for want of fuel. *)
Lemma framed_updateTree bo bm E commitTree operations :
  (∀ e, e ≠ OutOfFuel → E e) →
  framed bo bm (updateTree commitTree operations)
    (λ t, rootID t = rootID commitTree ∧ bm ≤ nodes t) E.
Proof.
  intros E_source h Ho Hm. rewrite updateTree_loopStart. revert h Ho Hm.
  eapply framed_bind; [by apply framed_loopStart|].
  intros [[nodes stringTable] i] Hn. simpl in Hn. cbv beta.
  eapply framed_bind.
  - apply framed_operationsLoop; [done | done |].
    right. destruct i; simpl; lia.
  - intros _ _. by apply framed_ret.
Qed.

Lemma loopStart_inv commitTree operations h ns stringTable i h1 :
  loopStart commitTree operations h = (OK (ns, stringTable, i), h1) →
  ∃ previous,
    maps h !! nodes commitTree = Some previous ∧
    ns = length (maps h) ∧
    h1 = {| objs := objs h; maps := maps h ++ [previous] |}.
Proof.
  unfold loopStart, st_bind, throw, st_ret.
  destruct (reassembleStringTable _ _ _ _ _) as [[i' stringTable']|];
    destruct (read_map _ h) as [[previous|e] h0] eqn:Hread;
    try done.
  apply read_map_inv in Hread as [-> Hprev]. unfold alloc_map.
  intros [= <- <- <- <-]. exists previous. auto.
Qed.

(** The second loop after [n] rounds is the second loop from where they
    arrive. *)
Lemma operationsLoop_iterations n fuel ns stringTable operations i h i' h' :
  iterations n ns stringTable operations i h = (OK i', h') →
  remaining operations i ≤ fuel →
  ∃ fuel',
    remaining operations i' ≤ fuel' ∧
    operationsLoop fuel ns stringTable operations i h =
    operationsLoop fuel' ns stringTable operations i' h'.
Proof.
  revert fuel i h. induction n as [|n IH]; intros fuel i h; simpl.
  - intros [= <- <-] Hfuel. by exists fuel.
  - destruct i as [|i]; simpl; [intros [= <- <-] Hfuel; by exists fuel|].
    destruct (N.ltb_spec i (N.of_nat (length operations))) as [Hlt|Hge];
      [|intros [= <- <-] Hfuel; by exists fuel].
    unfold st_bind at 1.
    destruct (applyOperation ns stringTable operations i h)
      as [[i1|e] h1] eqn:Hstep; [|done].
    intros Hrest Hfuel.
    assert (advances i i1) as Hadv.
    { pose proof (framed_applyOperation 0 0 (λ _, True) (λ _ _, I)
                    ns stringTable operations i (Nat.le_0_l _) h
                    (Nat.le_0_l _) (Nat.le_0_l _)) as [_ Hq].
      by rewrite Hstep in Hq. }
    pose proof (remaining_advances operations i i1 Hlt Hadv) as Hrem.
    simpl in Hrem, Hfuel.
    destruct fuel as [|fuel]; [lia|].
    destruct (IH fuel i1 h1 Hrest) as (fuel' & Hfuel' & Heq); [lia|].
    exists fuel'. split; [done|]. rewrite <- Heq. simpl.
    destruct (N.ltb_spec i (N.of_nat (length operations))); [|lia].
    by rewrite (st_bind_OK _ _ _ _ _ Hstep).
Qed.

(** A round that throws makes the whole call throw, with the heap as
    the round left it. *)
Lemma updateTree_throws commitTree operations h ns stringTable i0 h1 n i
    h2 e h3 :
  loopStart commitTree operations h = (OK (ns, stringTable, i0), h1) →
  iterations n ns stringTable operations i0 h1 = (OK (Num i), h2) →
  (i < N.of_nat (length operations))%N →
  applyOperation ns stringTable operations i h2 = (Throw e, h3) →
  updateTree commitTree operations h = (Throw e, h3).
Proof.
  intros Hstart Hiter Hlt Hstep. rewrite updateTree_loopStart.
  rewrite (st_bind_OK _ _ _ _ _ Hstart). simpl fst. simpl snd.
  destruct (operationsLoop_iterations n (S (length operations)) ns
              stringTable operations i0 h1 (Num i) h2 Hiter)
    as (fuel' & Hfuel' & Heq); [destruct i0; simpl; lia|].
  apply st_bind_Throw. rewrite Heq.
  destruct fuel' as [|fuel']; [simpl in Hfuel'; lia|]. simpl.
  destruct (N.ltb_spec i (N.of_nat (length operations))); [|lia].
  by apply st_bind_Throw.
Qed.

(** Rounds that bring the cursor to the end are the whole call. *)
Lemma updateTree_returns commitTree operations h ns stringTable i0 h1 n i'
    h2 :
  loopStart commitTree operations h = (OK (ns, stringTable, i0), h1) →
  iterations n ns stringTable operations i0 h1 = (OK i', h2) →
  num_lt i' (Num (N.of_nat (length operations))) = false →
  updateTree commitTree operations h =
    (OK {| nodes := ns; rootID := rootID commitTree |}, h2).
Proof.
  intros Hstart Hiter Hend. rewrite updateTree_loopStart.
  rewrite (st_bind_OK _ _ _ _ _ Hstart). simpl fst. simpl snd.
  destruct (operationsLoop_iterations n (S (length operations)) ns
              stringTable operations i0 h1 i' h2 Hiter)
    as (fuel' & Hfuel' & Heq); [destruct i0; simpl; lia|].
  erewrite st_bind_OK; [done|]. rewrite Heq.
  destruct fuel'; simpl; by rewrite Hend.
Qed.

End Fuel.

(** ** What [updateTree] keeps, returns and throws *)

Section UpdateTreeFacts.
Context `{Imports}.

Lemma updateTree_keeps commitTree operations h :
  (∀ l node, objs h !! l = Some node →
     objs (updateTree commitTree operations h).2 !! l = Some node) ∧
  (∀ l m, maps h !! l = Some m →
     maps (updateTree commitTree operations h).2 !! l = Some m).
Proof.
  destruct (framed_updateTree (length (objs h)) (length (maps h))
              (λ _, True) commitTree operations (λ _ _, I) h)
    as [(_ & _ & Hobjs & Hmaps) _]; [done | done |].
  split.
  - intros l node Hl. rewrite Hobjs; [done|]. by eapply lookup_lt_Some.
  - intros l m Hl. rewrite Hmaps; [done|]. by eapply lookup_lt_Some.
Qed.

Lemma updateTree_OK commitTree operations h t h' :
  updateTree commitTree operations h = (OK t, h') →
  rootID t = rootID commitTree ∧ nodes t = length (maps h) ∧
  is_Some (maps h !! nodes commitTree).
Proof.
  rewrite updateTree_loopStart. unfold st_bind at 1.
  destruct (loopStart commitTree operations h)
    as [[[[ns stringTable] i]|e] h1] eqn:Hstart; [|done].
  apply loopStart_inv in Hstart as (previous & Hprev & -> & ->).
  unfold st_bind. simpl fst. simpl snd.
  destruct (operationsLoop _ _ _ _ _ _) as [[[]|e] h2]; [|done].
  intros [= <- <-]. simpl. by rewrite Hprev.
Qed.

(** [updateTree] never stops for want of fuel. *)
Lemma updateTree_fuel commitTree operations h :
  (updateTree commitTree operations h).1 ≠ Throw OutOfFuel.
Proof.
  destruct (framed_updateTree 0 0 (λ e, e ≠ OutOfFuel) commitTree
              operations (λ _ He, He) h) as [_ Hq]; [lia | lia |].
  intros Heq. rewrite Heq in Hq. by apply Hq.
Qed.

Lemma getClonedNode_spec (ns : loc) (h : Heap) (m : NodeMap) (id : word)
    (fields : Node) :
  maps h !! ns = Some m →
  match m !! id with
  | Some l => objs h !! l = Some fields
  | None => fields = emptyObject
  end →
  getClonedNode ns id h =
    (OK (length (objs h)),
     {| objs := objs h ++ [fields];
        maps := <[ns := <[id := length (objs h)]> m]> (maps h) |}).
Proof.
  intros Hm Hsource. unfold getClonedNode.
  rewrite (st_bind_OK _ _ _ _ _ (map_get_Some _ _ _ _ Hm)).
  assert (match m !! id with
          | Some l => read_node l
          | None => st_ret emptyObject
          end h = (OK fields, h)) as Hfields.
  { destruct (m !! id); [by apply read_node_Some | by subst]. }
  rewrite (st_bind_OK _ _ _ _ _ Hfields).
  erewrite st_bind_OK; [|reflexivity].
  erewrite st_bind_OK.
  2: { by apply map_set_Some. }
  done.
Qed.

(** C1. Whatever the previous tree and the operations, and whether
    [updateTree] returns or throws, every [Node] object and every [Map]
    that existed before the call is afterwards what it was: all writes go
    to copies made during the call. When a tree is returned its [nodes]
    is a map allocated by the call and its [rootID] is that of the
    previous tree. *)
Theorem updateTree_preserves_previous
    (commitTree : CommitTree) (operations : list N) (h : Heap) :
  let result := updateTree commitTree operations h in
  (∀ l node, objs h !! l = Some node → objs result.2 !! l = Some node) ∧
  (∀ l m, maps h !! l = Some m → maps result.2 !! l = Some m) ∧
  (∀ t, result.1 = OK t →
     rootID t = rootID commitTree ∧
     nodes t = length (maps h) ∧ maps h !! nodes t = None).
Proof.
  intros result.
  destruct (updateTree_keeps commitTree operations h) as [Hobjs Hmaps].
  split; [done|]. split; [done|].
  intros t Ht. destruct result as [r h'] eqn:Hres. simpl in Ht. subst r.
  apply updateTree_OK in Hres as (Hroot & Hnodes & _).
  split; [done|]. split; [done|]. rewrite Hnodes. by apply lookup_ge_None.
Qed.

(** C3. Once a round of the second loop throws, for any reason, the call
    throws that error: nothing is returned, and the objects and maps of
    the heap before the call, those of the previous tree among them, are
    what they were; the map the call was filling is referenced by
    nothing. A word that is none of the four opcodes makes the round
    throw [UnsupportedBridgeOperation] before it writes anything. *)
Theorem updateTree_failure_is_whole
    (commitTree : CommitTree) (operations : list N) (h : Heap)
    (ns : loc) (stringTable : list jsstr) (i0 : num) (h1 : Heap)
    (n : nat) (i : N) (h2 : Heap) :
  loopStart commitTree operations h = (OK (ns, stringTable, i0), h1) →
  iterations n ns stringTable operations i0 h1 = (OK (Num i), h2) →
  i < N.of_nat (length operations) →
  (∀ e h3,
     applyOperation ns stringTable operations i h2 = (Throw e, h3) →
     updateTree commitTree operations h = (Throw e, h3) ∧
     (∀ l node, objs h !! l = Some node → objs h3 !! l = Some node) ∧
     (∀ l m, maps h !! l = Some m → maps h3 !! l = Some m)) ∧
  (word_at operations i ≠ Some TREE_OPERATION_ADD →
   word_at operations i ≠ Some TREE_OPERATION_REMOVE →
   word_at operations i ≠ Some TREE_OPERATION_REORDER_CHILDREN →
   word_at operations i ≠ Some TREE_OPERATION_UPDATE_TREE_BASE_DURATION →
   updateTree commitTree operations h =
     (Throw (UnsupportedBridgeOperation (word_at operations i)), h2)).
Proof.
  intros Hstart Hiter Hlt. split.
  - intros e h3 Hstep.
    pose proof (updateTree_throws _ _ _ _ _ _ _ _ _ _ _ _
                  Hstart Hiter Hlt Hstep) as Hthrow.
    split; [done|].
    pose proof (updateTree_keeps commitTree operations h) as Hkeep.
    by rewrite Hthrow in Hkeep.
  - intros Hadd Hremove Hreorder Hupdate.
    eapply updateTree_throws; [done | done | done |].
    unfold applyOperation. by repeat case_decide.
Qed.

(** C6. When the next operation is an Add and its id is a key of the
    map being filled (the copy of the previous tree's map when the Add
    comes first), the call throws [AlreadyContainsFiber] for that id,
    and the heap is the one the operation found: no node was inserted
    or replaced. *)
Theorem add_duplicate_throws
    (commitTree : CommitTree) (operations : list N) (h : Heap)
    (ns : loc) (stringTable : list jsstr) (i0 : num) (h1 : Heap)
    (n : nat) (i : N) (h2 : Heap) (m : NodeMap) :
  loopStart commitTree operations h = (OK (ns, stringTable, i0), h1) →
  iterations n ns stringTable operations i0 h1 = (OK (Num i), h2) →
  word_at operations i = Some TREE_OPERATION_ADD →
  maps h2 !! ns = Some m →
  is_Some (m !! word_at operations (i + 1)) →
  updateTree commitTree operations h =
    (Throw (AlreadyContainsFiber (word_at operations (i + 1))), h2) ∧
  (n = 0%nat → maps h !! nodes commitTree = Some m).
Proof.
  intros Hstart Hiter Hop Hm Hid. split.
  - eapply updateTree_throws; [done | done | |].
    + apply lookup_lt_Some in Hop. lia.
    + unfold applyOperation. rewrite decide_True by done.
      unfold opAdd.
      erewrite st_bind_OK; [|by apply map_has_Some].
      by rewrite bool_decide_eq_true_2.
  - intros ->. simpl in Hiter. injection Hiter as Hi0 Hh1. subst i0 h2.
    apply loopStart_inv in Hstart as (previous & Hprev & -> & ->).
    simpl in Hm. rewrite lookup_app_r, Nat.sub_diag in Hm by done.
    simpl in Hm. congruence.
Qed.


Lemma lookup_snoc_length {A} (l : list A) (x : A) :
  (l ++ [x]) !! length l = Some x.
Proof. by rewrite lookup_app_r, Nat.sub_diag. Qed.

Lemma insert_snoc_length {A} (l : list A) (x y : A) :
  <[length l := y]> (l ++ [x]) = l ++ [y].
Proof.
  rewrite insert_app_r_alt by done. by rewrite Nat.sub_diag.
Qed.


Lemma st_bind_inv_OK {S A B} (c : ST S A) (k : A → ST S B) s b s' :
  st_bind c k s = (OK b, s') →
  ∃ a s1, c s = (OK a, s1) ∧ k a s1 = (OK b, s').
Proof.
  unfold st_bind. destruct (c s) as [[a|e] s1]; [|done]. eauto.
Qed.

(** An id that is not a key of the map ends the [for] loop with
    [DoesNotContainFiber], whatever rounds came before. *)
Lemma removeLoop_unknown (m : NodeMap) j removeLength ns operations i h
    ij hj :
  (j < removeLength)%nat →
  removeLoop j ns operations i h = (OK ij, hj) →
  maps hj !! ns = Some m →
  m !! word_at operations ij = None →
  removeLoop removeLength ns operations i h =
    (Throw (DoesNotContainFiber (word_at operations ij)), hj).
Proof.
  revert removeLength i h.
  induction j as [|j IH]; intros removeLength i h Hlt Hprior Hm Hid.
  - simpl in Hprior. injection Hprior as -> ->.
    destruct removeLength as [|rest]; [lia|]. simpl.
    apply st_bind_Throw. unfold removeFiber.
    erewrite st_bind_OK; [|by apply map_has_Some].
    rewrite bool_decide_eq_false_2; [done|].
    rewrite Hid. by intros [? ?].
  - destruct removeLength as [|rest]; [lia|]. simpl in Hprior |- *.
    apply st_bind_inv_OK in Hprior as (i1 & h1 & Hround & Hprior).
    rewrite (st_bind_OK _ _ _ _ _ Hround).
    apply IH; [lia | done | done | done].
Qed.

(** A round of the [for] loop for a fiber of the map whose [parentID]
    is the id of no other node: the object without properties that
    [getClonedNode] makes for the parent is registered under its id, and
    the call of [filter] on its missing [children] throws. *)
Lemma removeFiber_missing_parent (m : NodeMap) (ns : loc)
    (operations : list N) (i : N) (h : Heap) (l : loc) (node : Node) :
  maps h !! ns = Some m →
  m !! word_at operations i = Some l →
  objs h !! l = Some node →
  delete (word_at operations i) m !! parentID node = None →
  removeFiber ns operations i h =
    (Throw TypeError,
     {| objs := objs h ++ [node; emptyObject];
        maps :=
          <[ns := <[parentID node := S (length (objs h))]>
                    (delete (word_at operations i) m)]> (maps h) |}).
Proof.
  intros Hm Hl Hnode Hparent. unfold removeFiber.
  pose proof (lookup_lt_Some _ _ _ Hm) as Hns.
  erewrite st_bind_OK; [|by apply map_has_Some].
  rewrite bool_decide_eq_true_2 by (by rewrite Hl). cbn [negb].
  erewrite st_bind_OK.
  2: { apply getClonedNode_spec with (fields := node); [done|].
       by rewrite Hl. }
  erewrite st_bind_OK.
  2: { apply read_node_Some. simpl. apply lookup_snoc_length. }
  erewrite st_bind_OK.
  2: { apply map_delete_Some. simpl. by apply list_lookup_insert_eq. }
  cbn [objs maps]. rewrite list_insert_insert_eq, delete_insert_eq.
  erewrite st_bind_OK.
  2: { apply getClonedNode_spec with (fields := emptyObject).
       - simpl. by apply list_lookup_insert_eq.
       - by rewrite Hparent. }
  cbn [objs maps]. rewrite list_insert_insert_eq.
  erewrite st_bind_OK.
  2: { apply read_node_Some. simpl. apply lookup_snoc_length. }
  cbn [children emptyObject]. unfold throw. do 2 f_equal.
  - by rewrite <- app_assoc.
  - rewrite length_app. simpl. do 3 f_equal. lia.
Qed.

(** The cursor after [j] rounds. *)
Lemma removeLoop_cursor j ns operations i h ij hj :
  removeLoop j ns operations i h = (OK ij, hj) → ij = i + N.of_nat j.
Proof.
  revert i h. induction j as [|j IH]; intros i h; simpl.
  - intros [= <- <-]. lia.
  - intros Hloop.
    apply st_bind_inv_OK in Hloop as (i1 & h1 & Hround & Hloop).
    apply IH in Hloop as ->.
    assert (i1 = i + 1) as ->; [|lia].
    unfold removeFiber in Hround.
    repeat
      (apply st_bind_inv_OK in Hround as (? & ? & _ & Hround);
       try (destruct (negb _); [done|])).
    destruct (children _); [|done].
    apply st_bind_inv_OK in Hround as (? & ? & _ & Hround).
    by injection Hround as <- _.
Qed.

End UpdateTreeFacts.

(** ** The cache only grows *)

Section CacheFrame.
Context `{Imports}.
Local Open Scope nat_scope.
Variables bo bm : nat.

Lemma extends_same s s' :
  rootToCommitTreeMap s' = rootToCommitTreeMap s → extends s s'.
Proof. intros Heq rootID l Hl. exists []. by rewrite app_nil_r, Heq. Qed.

Lemma extends_refl s : extends s s.
Proof. by apply extends_same. Qed.

Lemma extends_trans s1 s2 s3 :
  extends s1 s2 → extends s2 s3 → extends s1 s3.
Proof.
  intros H12 H23 rootID l Hl.
  destruct (H12 rootID l Hl) as [l2 Hl2].
  destruct (H23 rootID _ Hl2) as [l3 Hl3].
  exists (l2 ++ l3). by rewrite app_assoc.
Qed.

Lemma framedC_ret {A} (a : A) (Q : A → Prop) :
  Q a → framedC bo bm (st_ret a) Q.
Proof.
  intros Ha s _ _. split; [apply keeps_refl|]. split; [apply extends_refl|].
  done.
Qed.

Lemma framedC_throw {A} e (Q : A → Prop) : framedC bo bm (throw e) Q.
Proof.
  intros s _ _. split; [apply keeps_refl|]. split; [apply extends_refl|].
  done.
Qed.

Lemma framedC_bind {A B} (c : C A) (k : A → C B) Q R :
  framedC bo bm c Q → (∀ a, Q a → framedC bo bm (k a) R) →
  framedC bo bm (st_bind c k) R.
Proof.
  intros Hc Hk s Ho Hm. unfold st_bind.
  destruct (Hc s Ho Hm) as (Hkeep & Hext & Hq).
  destruct (c s) as [[a|e] s1]; simpl in *; [|done].
  pose proof Hkeep as (Ho1 & Hm1 & _ & _).
  destruct (Hk a Hq s1) as (Hkeep2 & Hext2 & Hr); [lia | lia |].
  split; [by eapply keeps_trans|]. split; [by eapply extends_trans|].
  done.
Qed.

Lemma framedC_lift {A} (c : M A) (Q : A → Prop) :
  framed bo bm c Q (λ _, True) → framedC bo bm (lift_heap c) Q.
Proof.
  intros Hc s Ho Hm. unfold lift_heap.
  destruct (Hc (heap s) Ho Hm) as [Hkeep Hq].
  destruct (c (heap s)) as [r h'] eqn:Hrun. simpl in *.
  split; [done|]. split; [by apply extends_same|].
  by destruct r.
Qed.

Lemma framedC_ensure_entry rootID :
  framedC bo bm (ensure_entry rootID) (λ _, True).
Proof.
  intros s _ _. unfold ensure_entry.
  destruct (rootToCommitTreeMap s !! rootID) eqn:Hentry; simpl.
  - split; [apply keeps_refl|]. split; [apply extends_refl|done].
  - split; [apply keeps_refl|]. split; [|done].
    intros rootID' l Hl. exists []. simpl. rewrite app_nil_r.
    rewrite lookup_insert_ne; [done|]. congruence.
Qed.

Lemma framedC_get_commitTrees rootID :
  framedC bo bm (get_commitTrees rootID) (λ _, True).
Proof.
  intros s _ _. simpl.
  split; [apply keeps_refl|]. split; [apply extends_refl|done].
Qed.

Lemma framedC_push_commitTree rootID commitTree :
  framedC bo bm (push_commitTree rootID commitTree) (λ _, True).
Proof.
  intros s _ _. simpl. split; [apply keeps_refl|]. split; [|done].
  intros rootID' l Hl. simpl.
  destruct (decide (rootID' = rootID)) as [->|Hne].
  - exists [commitTree]. rewrite lookup_insert_eq.
    unfold commitTrees_of. by rewrite Hl.
  - exists []. rewrite app_nil_r. by rewrite lookup_insert_ne.
Qed.

Lemma framed_recursivelyIniitliazeTree fuel id parentID ns durations store :
  bm ≤ ns →
  framed bo bm
    (recursivelyIniitliazeTree fuel id parentID ns durations store)
    (λ _, True) (λ _, True).
Proof.
  intros Hn. revert id parentID.
  induction fuel as [|fuel IH]; intros id parentID; simpl.
  - destruct (_ !! id); [by apply framed_throw | by apply framed_ret].
  - destruct (_ !! id) as [node|]; [|by apply framed_ret].
    framed_auto. apply framed_forEach. intros childID _. apply IH.
Qed.

Lemma framedC_update_and_push store rootID commitIndex previous :
  framedC bo bm (update_and_push store rootID commitIndex previous)
    (λ _, True).
Proof.
  unfold update_and_push.
  destruct (commitOperations_at _ _ _) as [operations|];
    [|apply framedC_throw].
  eapply framedC_bind.
  { apply framedC_lift. by apply framed_updateTree. }
  intros commitTree _.
  eapply framedC_bind; [apply framedC_push_commitTree|].
  intros _ _. by apply framedC_ret.
Qed.

Lemma framedC_getCommitTree fuel commitIndex profilingSummary store :
  framedC bo bm (getCommitTree fuel commitIndex profilingSummary store)
    (λ _, True).
Proof.
  induction commitIndex as [|previousIndex IH]; simpl.
  - eapply framedC_bind; [apply framedC_ensure_entry|]. intros _ _.
    eapply framedC_bind; [apply framedC_get_commitTrees|].
    intros commitTrees _.
    destruct (commitTrees !! 0); [by apply framedC_ret|].
    eapply framedC_bind.
    { apply framedC_lift. apply framed_alloc_map. }
    cbv beta. intros ns Hns.
    eapply framedC_bind.
    { apply framedC_lift. by apply framed_recursivelyIniitliazeTree. }
    intros _ _. apply framedC_update_and_push.
  - eapply framedC_bind; [apply framedC_ensure_entry|]. intros _ _.
    eapply framedC_bind; [apply framedC_get_commitTrees|].
    intros commitTrees _.
    destruct (commitTrees !! S previousIndex); [by apply framedC_ret|].
    eapply framedC_bind; [apply IH|].
    intros previous _. apply framedC_update_and_push.
Qed.

End CacheFrame.

(** ** [getCommitTree] *)

Section GetCommitTreeFacts.
Context `{Imports}.
Local Open Scope nat_scope.

Lemma ensure_entry_present rootID s l :
  rootToCommitTreeMap s !! rootID = Some l →
  ensure_entry rootID s = (OK tt, s).
Proof. unfold ensure_entry. by intros ->. Qed.

Lemma ensure_entry_OK rootID s :
  ensure_entry rootID s = (OK tt, (ensure_entry rootID s).2).
Proof. unfold ensure_entry. by destruct (_ !! rootID). Qed.

Lemma ensure_entry_twice rootID s :
  ensure_entry rootID (ensure_entry rootID s).2
    = (OK tt, (ensure_entry rootID s).2).
Proof.
  unfold ensure_entry at 2 3.
  destruct (rootToCommitTreeMap s !! rootID) eqn:Hentry; simpl.
  - by eapply ensure_entry_present.
  - eapply ensure_entry_present. simpl. apply lookup_insert_eq.
Qed.

Lemma commitTrees_of_ensure rootID rootID' s :
  commitTrees_of rootID' (ensure_entry rootID s).2 = commitTrees_of rootID' s.
Proof.
  unfold ensure_entry, commitTrees_of.
  destruct (rootToCommitTreeMap s !! rootID) eqn:Hentry; simpl; [done|].
  destruct (decide (rootID = rootID')) as [<-|Hne].
  - by rewrite lookup_insert_eq, Hentry.
  - by rewrite lookup_insert_ne.
Qed.

Lemma heap_ensure rootID s : heap (ensure_entry rootID s).2 = heap s.
Proof. unfold ensure_entry. by destruct (_ !! rootID). Qed.

Lemma commitTrees_of_Some rootID s index t :
  commitTrees_of rootID s !! index = Some t →
  ∃ l, rootToCommitTreeMap s !! rootID = Some l ∧ l !! index = Some t.
Proof.
  unfold commitTrees_of.
  destruct (rootToCommitTreeMap s !! rootID) as [l|]; [eauto|done].
Qed.

(** A commit that is in the array is returned as it is: nothing is
    computed and the state does not change. *)
Lemma getCommitTree_memo fuel commitIndex profilingSummary store s t :
  commitTrees_of (summary_rootID profilingSummary) s !! commitIndex
    = Some t →
  getCommitTree fuel commitIndex profilingSummary store s = (OK t, s).
Proof.
  intros Ht. pose proof Ht as Ht'.
  apply commitTrees_of_Some in Ht' as (l & Hl & _).
  destruct commitIndex; simpl;
    rewrite (st_bind_OK _ _ _ _ _ (ensure_entry_present _ _ _ Hl));
    unfold st_bind, get_commitTrees; by rewrite Ht.
Qed.

Lemma getCommitTree_0_unfold fuel profilingSummary store s :
  let rootID := summary_rootID profilingSummary in
  commitTrees_of rootID s !! 0 = None →
  getCommitTree fuel 0 profilingSummary store s =
  (ns <- lift_heap (alloc_map ∅) ;;
   lift_heap
     (recursivelyIniitliazeTree fuel rootID 0 ns
        (initialTreeBaseDurations profilingSummary) store) ;;;
   update_and_push store rootID 0 {| nodes := ns; rootID := rootID |})
    (ensure_entry rootID s).2.
Proof.
  intros rootID Hnone. simpl.
  rewrite (st_bind_OK _ _ _ _ _ (ensure_entry_OK _ _)).
  unfold st_bind at 1, get_commitTrees.
  fold rootID. by rewrite commitTrees_of_ensure, Hnone.
Qed.

Lemma getCommitTree_ensure fuel commitIndex profilingSummary store s :
  getCommitTree fuel commitIndex profilingSummary store
    (ensure_entry (summary_rootID profilingSummary) s).2 =
  getCommitTree fuel commitIndex profilingSummary store s.
Proof.
  destruct commitIndex; simpl;
    rewrite (st_bind_OK _ _ _ _ _ (ensure_entry_twice _ _));
    by rewrite (st_bind_OK _ _ _ _ _ (ensure_entry_OK _ s)).
Qed.

Lemma getCommitTree_S_unfold fuel previousIndex profilingSummary store s :
  let rootID := summary_rootID profilingSummary in
  commitTrees_of rootID s !! S previousIndex = None →
  getCommitTree fuel (S previousIndex) profilingSummary store s =
  (previous <- getCommitTree fuel previousIndex profilingSummary store ;;
   update_and_push store rootID (S previousIndex) previous) s.
Proof.
  intros rootID Hnone. simpl.
  rewrite (st_bind_OK _ _ _ _ _ (ensure_entry_OK _ _)).
  unfold st_bind at 1, get_commitTrees.
  fold rootID. rewrite commitTrees_of_ensure, Hnone.
  unfold st_bind. by rewrite getCommitTree_ensure.
Qed.

Lemma lift_heap_inv {A} (c : M A) s r s' :
  lift_heap c s = (r, s') →
  c (heap s) = (r, heap s') ∧
  rootToCommitTreeMap s' = rootToCommitTreeMap s.
Proof.
  unfold lift_heap. destruct (c (heap s)) as [r0 h']. by intros [= <- <-].
Qed.

(** What [update_and_push] returns is what [updateTree] made of the
    tree it was given and the operations of the commit, pushed at the
    end of the array. *)
Lemma update_and_push_OK store rootID commitIndex previous s t s' :
  update_and_push store rootID commitIndex previous s = (OK t, s') →
  ∃ operations,
    commitOperations_at store rootID commitIndex = Some operations ∧
    updateTree previous operations (heap s) = (OK t, heap s') ∧
    rootToCommitTreeMap s' =
      <[rootID := commitTrees_of rootID s ++ [t]]> (rootToCommitTreeMap s).
Proof.
  unfold update_and_push.
  destruct (commitOperations_at _ _ _) as [operations|]; [|done].
  intros Hrun. exists operations. split; [done|].
  apply st_bind_inv_OK in Hrun as (t0 & s1 & Hupdate & Hrun).
  apply lift_heap_inv in Hupdate as [Hupdate Hcache].
  apply st_bind_inv_OK in Hrun as ([] & s2 & Hpush & Hrun).
  injection Hrun as <- <-. injection Hpush as <-. simpl.
  split; [done|]. unfold commitTrees_of. by rewrite Hcache.
Qed.

Lemma commitTrees_of_push rootID (cache : gmap N (list CommitTree)) l h :
  commitTrees_of rootID
    {| heap := h; rootToCommitTreeMap := <[rootID := l]> cache |} = l.
Proof. unfold commitTrees_of. simpl. by rewrite lookup_insert_eq. Qed.

(** A commit that is returned is in the array at its index, and the
    array is as long as it was, or just long enough to hold it. *)
Lemma getCommitTree_OK fuel commitIndex profilingSummary store s t s' :
  let rootID := summary_rootID profilingSummary in
  getCommitTree fuel commitIndex profilingSummary store s = (OK t, s') →
  commitTrees_of rootID s' !! commitIndex = Some t ∧
  length (commitTrees_of rootID s') =
    length (commitTrees_of rootID s) `max` S commitIndex.
Proof.
  intros rootID. subst rootID. revert s t s'.
  set (rootID := summary_rootID profilingSummary).
  induction commitIndex as [|previousIndex IH]; intros s t s' Hrun.
  - destruct (commitTrees_of rootID s !! 0) as [t0|] eqn:Hmemo.
    + rewrite (getCommitTree_memo _ _ _ _ _ _ Hmemo) in Hrun.
      injection Hrun as <- <-. split; [done|].
      apply lookup_lt_Some in Hmemo. lia.
    + rewrite getCommitTree_0_unfold in Hrun by done.
      apply st_bind_inv_OK in Hrun as (ns & s1 & Halloc & Hrun).
      apply st_bind_inv_OK in Hrun as ([] & s2 & Hinit & Hrun).
      apply lift_heap_inv in Halloc as [_ Hcache1].
      apply lift_heap_inv in Hinit as [_ Hcache2].
      apply update_and_push_OK in Hrun as (operations & _ & _ & Hcache).
      assert (commitTrees_of rootID s2 = []) as Hempty.
      { assert (commitTrees_of rootID s2
                = commitTrees_of rootID (ensure_entry rootID s).2) as ->.
        { unfold commitTrees_of. by rewrite Hcache2, Hcache1. }
        rewrite commitTrees_of_ensure.
        apply lookup_ge_None in Hmemo.
        destruct (commitTrees_of rootID s); [done|simpl in Hmemo; lia]. }
      destruct s' as [h' cache']. simpl in Hcache. subst cache' rootID.
      rewrite commitTrees_of_push, Hempty. simpl. split; [done|].
      apply lookup_ge_None in Hmemo. lia.
  - destruct (commitTrees_of rootID s !! S previousIndex) as [t0|] eqn:Hmemo.
    + rewrite (getCommitTree_memo _ _ _ _ _ _ Hmemo) in Hrun.
      injection Hrun as <- <-. split; [done|].
      apply lookup_lt_Some in Hmemo. lia.
    + rewrite getCommitTree_S_unfold in Hrun by done.
      apply st_bind_inv_OK in Hrun as (previous & s1 & Hprevious & Hrun).
      apply IH in Hprevious as [Hentry Hlength].
      apply update_and_push_OK in Hrun as (operations & _ & _ & Hcache).
      destruct s' as [h' cache']. simpl in Hcache. subst cache' rootID.
      rewrite commitTrees_of_push. apply lookup_ge_None in Hmemo.
      split.
      * rewrite lookup_app_r by lia.
        replace (S previousIndex - length _) with 0 by lia.
        done.
      * rewrite length_app. simpl. lia.
Qed.

(** [invalidateCommitTrees] empties every array and leaves the heap. *)
Lemma invalidateCommitTrees_clears s rootID :
  commitTrees_of rootID (invalidateCommitTrees s).2 = [] ∧
  heap (invalidateCommitTrees s).2 = heap s.
Proof. done. Qed.

Lemma extends_commitTrees_of s s' rootID index t :
  extends s s' →
  commitTrees_of rootID s !! index = Some t →
  commitTrees_of rootID s' !! index = Some t.
Proof.
  intros Hext Ht. apply commitTrees_of_Some in Ht as (l & Hl & Ht).
  destruct (Hext rootID l Hl) as [l' Hl']. unfold commitTrees_of.
  rewrite Hl'. simpl. by apply lookup_app_l_Some.
Qed.

Lemma runCalls_frame bo bm calls s :
  bo ≤ length (objs (heap s)) → bm ≤ length (maps (heap s)) →
  keeps bo bm (heap s) (heap (runCalls calls s)) ∧
  extends s (runCalls calls s).
Proof.
  revert s. induction calls as [|[[[fuel index] summary] store] calls IH];
    intros s Ho Hm; simpl.
  - split; [apply keeps_refl | apply extends_refl].
  - destruct (framedC_getCommitTree bo bm fuel index summary store s Ho Hm)
      as (Hkeep & Hext & _).
    pose proof Hkeep as (Ho1 & Hm1 & _ & _).
    destruct (IH (getCommitTree fuel index summary store s).2)
      as [Hkeep2 Hext2]; [lia | lia |].
    split; [by eapply keeps_trans | by eapply extends_trans].
Qed.

Lemma keeps_all h h' :
  keeps (length (objs h)) (length (maps h)) h h' →
  (∀ l node, objs h !! l = Some node → objs h' !! l = Some node) ∧
  (∀ l m, maps h !! l = Some m → maps h' !! l = Some m).
Proof.
  intros (_ & _ & Hobjs & Hmaps). split.
  - intros l node Hl. rewrite Hobjs; [done|]. by eapply lookup_lt_Some.
  - intros l m Hl. rewrite Hmaps; [done|]. by eapply lookup_lt_Some.
Qed.

(** C4. Once [getCommitTree] has returned a tree for a commit of a
    root, any later call for that commit and root, whatever calls of
    [getCommitTree] came between, returns the same tree and leaves the
    state as it is: nothing is computed or allocated. The map of the
    tree and every [Node] object are, at the later call, what they were
    when the tree was first returned, so the ids and the fields of their
    nodes are the same. *)
Theorem getCommitTree_memoized
    (fuel commitIndex : nat) (profilingSummary : ProfilingSummary)
    (store : Store) (s s1 : State) (t : CommitTree) (calls : list call)
    (fuel' : nat) (profilingSummary' : ProfilingSummary) (store' : Store) :
  getCommitTree fuel commitIndex profilingSummary store s = (OK t, s1) →
  summary_rootID profilingSummary' = summary_rootID profilingSummary →
  let s2 := runCalls calls s1 in
  getCommitTree fuel' commitIndex profilingSummary' store' s2 = (OK t, s2) ∧
  (∀ l m, maps (heap s1) !! l = Some m → maps (heap s2) !! l = Some m) ∧
  (∀ l node,
     objs (heap s1) !! l = Some node → objs (heap s2) !! l = Some node).
Proof.
  intros Hfirst Hroot s2.
  apply getCommitTree_OK in Hfirst as [Hentry _].
  destruct (runCalls_frame (length (objs (heap s1)))
              (length (maps (heap s1))) calls s1) as [Hkeep Hext];
    [done | done |].
  apply keeps_all in Hkeep as [Hobjs Hmaps].
  split; [|by split].
  apply getCommitTree_memo. rewrite Hroot.
  by eapply extends_commitTrees_of.
Qed.

(** C2, as the code has it. A commit after the first that is not in
    the array is computed from what [getCommitTree] returns for the
    commit before it, which is then the last tree of the array, by
    [updateTree] with the operations of the commit; the result is pushed
    after it. When the call for the commit before throws, the call
    throws the same error, whichever it is, from the same state. *)
Theorem getCommitTree_sequencing
    (fuel previousIndex : nat) (profilingSummary : ProfilingSummary)
    (store : Store) (s : State) :
  let rootID := summary_rootID profilingSummary in
  commitTrees_of rootID s !! S previousIndex = None →
  (∀ e s1,
     getCommitTree fuel previousIndex profilingSummary store s
       = (Throw e, s1) →
     getCommitTree fuel (S previousIndex) profilingSummary store s
       = (Throw e, s1)) ∧
  (∀ previous s1,
     getCommitTree fuel previousIndex profilingSummary store s
       = (OK previous, s1) →
     commitTrees_of rootID s1 !! previousIndex = Some previous ∧
     length (commitTrees_of rootID s1) = S previousIndex ∧
     getCommitTree fuel (S previousIndex) profilingSummary store s
       = update_and_push store rootID (S previousIndex) previous s1) ∧
  (∀ t s',
     getCommitTree fuel (S previousIndex) profilingSummary store s
       = (OK t, s') →
     ∃ previous s1 operations,
       getCommitTree fuel previousIndex profilingSummary store s
         = (OK previous, s1) ∧
       commitOperations_at store rootID (S previousIndex)
         = Some operations ∧
       updateTree previous operations (heap s1) = (OK t, heap s') ∧
       commitTrees_of rootID s' = commitTrees_of rootID s1 ++ [t]).
Proof.
  intros rootID Hnone. subst rootID. split; [|split].
  - intros e s1 Hprevious. rewrite getCommitTree_S_unfold by done.
    by apply st_bind_Throw.
  - intros previous s1 Hprevious.
    rewrite getCommitTree_S_unfold by done.
    rewrite (st_bind_OK _ _ _ _ _ Hprevious).
    apply getCommitTree_OK in Hprevious as [Hentry Hlength].
    apply lookup_ge_None in Hnone. split; [done|]. split; [lia|done].
  - intros t s' Hrun. rewrite getCommitTree_S_unfold in Hrun by done.
    apply st_bind_inv_OK in Hrun as (previous & s1 & Hprevious & Hrun).
    apply update_and_push_OK in Hrun as (operations & Hops & Hupdate & Hc).
    exists previous, s1, operations. repeat split; [done..|].
    destruct s' as [h' cache']. simpl in Hc. subst cache'.
    by rewrite commitTrees_of_push.
Qed.

(** A Remove whose earlier rounds return. The call for the commit
    before returns (from the array, or after computing it) and the
    operations of the commit reach a Remove; the rounds of the Remove
    before round [j] return, and the id of round [j] is not a key of the
    map they leave. Then [updateTree] throws [DoesNotContainFiber] for
    that id and so does [getCommitTree]; nothing is pushed, the objects
    and maps that existed are what they were, and a call for any commit
    that was in an array returns the tree that was there. A round that
    meets a missing parent does not return (see
    [removeFiber_missing_parent]): the ids after it are never looked
    up. *)
Theorem remove_unknown_fiber_throws
    (m : NodeMap) (fuel previousIndex : nat)
    (profilingSummary : ProfilingSummary) (store : Store) (s s1 : State)
    (previous : CommitTree) (operations : list N) (ns : loc)
    (stringTable : list jsstr) (i0 : num) (h1 : Heap) (n : nat) (i : N)
    (h2 : Heap) (count : N) (j : nat) (ij : N) (hj : Heap) :
  let rootID := summary_rootID profilingSummary in
  getCommitTree fuel previousIndex profilingSummary store s
    = (OK previous, s1) →
  commitTrees_of rootID s !! S previousIndex = None →
  commitOperations_at store rootID (S previousIndex) = Some operations →
  loopStart previous operations (heap s1)
    = (OK (ns, stringTable, i0), h1) →
  iterations n ns stringTable operations i0 h1 = (OK (Num i), h2) →
  word_at operations i = Some TREE_OPERATION_REMOVE →
  TREE_OPERATION_REMOVE ≠ TREE_OPERATION_ADD →
  word_at operations (i + 1)%N = Some count →
  j < N.to_nat count →
  removeLoop j ns operations (i + 2)%N h2 = (OK ij, hj) →
  maps hj !! ns = Some m →
  m !! word_at operations ij = None →
  let e := DoesNotContainFiber (word_at operations ij) in
  let s' := {| heap := hj; rootToCommitTreeMap := rootToCommitTreeMap s1 |} in
  ij = (i + 2 + N.of_nat j)%N ∧
  updateTree previous operations (heap s1) = (Throw e, hj) ∧
  getCommitTree fuel (S previousIndex) profilingSummary store s
    = (Throw e, s') ∧
  (∀ l node, objs (heap s) !! l = Some node → objs hj !! l = Some node) ∧
  (∀ l m', maps (heap s) !! l = Some m' → maps hj !! l = Some m') ∧
  (∀ fuel' profilingSummary' store' index t,
     commitTrees_of (summary_rootID profilingSummary') s !! index = Some t →
     getCommitTree fuel' index profilingSummary' store' s' = (OK t, s')).
Proof.
  intros rootID Hprevious Hnone Hops Hstart Hiter Hop Hne Hcount Hj Hprior
    Hm Hid e s'. subst rootID.
  assert (updateTree previous operations (heap s1) = (Throw e, hj))
    as Hthrow.
  { eapply updateTree_throws; [done | done | |].
    - apply lookup_lt_Some in Hop. lia.
    - unfold applyOperation. rewrite Hop.
      rewrite decide_False by congruence. rewrite decide_True by done.
      unfold opRemove. rewrite Hcount. apply st_bind_Throw.
      by eapply removeLoop_unknown. }
  split; [by eapply removeLoop_cursor|]. split; [done|].
  pose proof (updateTree_keeps previous operations (heap s1)) as Hkeep1.
  rewrite Hthrow in Hkeep1. destruct Hkeep1 as [Hobjs1 Hmaps1].
  destruct (framedC_getCommitTree (length (objs (heap s)))
              (length (maps (heap s))) fuel previousIndex profilingSummary
              store s) as (Hkeep & Hext & _); [done | done |].
  rewrite Hprevious in Hkeep, Hext. simpl in Hkeep, Hext.
  apply keeps_all in Hkeep as [Hobjs Hmaps].
  split; [|split; [|split]].
  - rewrite getCommitTree_S_unfold by done.
    rewrite (st_bind_OK _ _ _ _ _ Hprevious).
    unfold update_and_push. rewrite Hops. apply st_bind_Throw.
    unfold lift_heap. by rewrite Hthrow.
  - intros l node Hl. apply Hobjs1. by apply Hobjs.
  - intros l m' Hl. apply Hmaps1. by apply Hmaps.
  - intros fuel' profilingSummary' store' index t Ht.
    apply getCommitTree_memo.
    change (commitTrees_of (summary_rootID profilingSummary') s')
      with (commitTrees_of (summary_rootID profilingSummary') s1).
    by eapply extends_commitTrees_of.
Qed.

End GetCommitTreeFacts.

(** ** The string table *)

Section StringTable.
Context `{Imports}.

Lemma word_at_app_length (pre : list N) (w : N) (post : list N) :
  word_at (pre ++ w :: post) (N.of_nat (length pre)) = Some w.
Proof.
  unfold word_at. rewrite Nat2N.id. by rewrite list_lookup_middle.
Qed.

Lemma slice_app_length (pre entry post : list N) :
  slice (pre ++ entry ++ post) (N.of_nat (length pre))
    (Num (N.of_nat (length pre) + N.of_nat (length entry))) = entry.
Proof.
  unfold slice. rewrite Nat2N.id, drop_app_length.
  replace (N.to_nat _) with (length entry) by lia.
  by rewrite take_app_length.
Qed.

(** From the first word of a run of well-formed entries the first loop
    reads one string per entry and stops on the word after the run. *)
Lemma reassemble_entries entries : ∀ fuel pre post stringTable,
  (length entries ≤ fuel)%nat →
  reassembleStringTable fuel (pre ++ encodeStringTable entries ++ post)
    (Num (N.of_nat (length pre + length (encodeStringTable entries))))
    (Num (N.of_nat (length pre))) stringTable =
  Some (Num (N.of_nat (length pre + length (encodeStringTable entries))),
        stringTable
          ++ ((λ entry, SString (utfDecodeString entry)) <$> entries)).
Proof.
  induction entries as [|entry entries IH];
    intros fuel pre post stringTable Hfuel.
  - simpl. rewrite Nat.add_0_r, app_nil_r.
    destruct fuel; simpl; by rewrite N.ltb_irrefl.
  - destruct fuel as [|fuel]; [simpl in Hfuel; lia|].
    cbn [encodeStringTable].
    set (size := N.of_nat (length entry)).
    set (operations :=
           pre ++ (size :: entry ++ encodeStringTable entries) ++ post).
    assert (operations
            = (pre ++ [size]) ++ entry ++ encodeStringTable entries ++ post)
      as Hsplit
      by (subst operations; rewrite <- !app_assoc; simpl;
          by rewrite <- ?app_assoc).
    assert (operations
            = (pre ++ size :: entry) ++ encodeStringTable entries ++ post)
      as Hnext
      by (subst operations; rewrite <- !app_assoc; simpl;
          by rewrite <- ?app_assoc).
    assert (word_at operations (N.of_nat (length pre)) = Some size) as Hword
      by apply word_at_app_length.
    assert (slice operations (N.of_nat (length pre) + 1)
              (Num (N.of_nat (length pre) + 1 + size)) = entry) as Hslice.
    { rewrite Hsplit.
      replace (N.of_nat (length pre) + 1)
        with (N.of_nat (length (pre ++ [size])))
        by (rewrite length_app; simpl; lia).
      apply slice_app_length. }
    assert (N.of_nat (length pre) + 1 + size
            = N.of_nat (length (pre ++ size :: entry))) as Hcursor
      by (rewrite length_app; simpl; lia).
    assert (N.of_nat
              (length pre
               + length (size :: entry ++ encodeStringTable entries))
            = N.of_nat (length (pre ++ size :: entry)
                        + length (encodeStringTable entries))) as Hend
      by (rewrite length_app; simpl; rewrite length_app; lia).
    cbn [reassembleStringTable num_lt].
    rewrite (proj2 (N.ltb_lt _ _)) by (simpl; lia).
    rewrite Hword. cbn [num_add_word]. rewrite Hslice, Hcursor, Hend, Hnext.
    rewrite IH by (simpl in Hfuel; lia).
    by rewrite fmap_cons, <- app_assoc.
Qed.

Lemma encodeStringTable_entries entries :
  (length entries ≤ length (encodeStringTable entries))%nat.
Proof.
  induction entries as [|entry entries IH]; simpl; [done|].
  rewrite length_app. lia.
Qed.

(** A buffer cut within its three leading words makes [loopStart] end
    with the cursor at 3 or [NaN]. *)
Lemma loopStart_short (commitTree : CommitTree) (buffer : list N)
    (h : Heap) (m : NodeMap) :
  (length buffer ≤ 3)%nat →
  maps h !! nodes commitTree = Some m →
  ∃ stringTable i,
    loopStart commitTree buffer h
      = (OK (length (maps h), stringTable, i),
         {| objs := objs h; maps := maps h ++ [m] |}) ∧
    num_lt i (Num (N.of_nat (length buffer))) = false.
Proof.
  intros Hshort Hm. unfold loopStart.
  rewrite (st_bind_OK _ _ _ _ _ (read_map_Some _ _ _ Hm)).
  erewrite st_bind_OK; [|reflexivity].
  destruct buffer as [|a [|b [|c [|d rest]]]];
    [| | | |simpl in Hshort; lia];
    try (exists [SNull], (Num 3); by split).
  change (word_at [a; b; c] 2) with (Some c). cbn [length num_add_word].
  change (reassembleStringTable 4 [a; b; c] (Num (3 + c)) (Num 3) [SNull])
    with (if num_lt (Num 3) (Num (3 + c))
          then reassembleStringTable 3 [a; b; c] (Num (3 + c)) NaN
                 [SNull; SString (utfDecodeString [])]
          else Some (Num 3, [SNull])).
  destruct (num_lt (Num 3) (Num (3 + c))).
  - exists [SNull; SString (utfDecodeString [])], NaN. by split.
  - exists [SNull], (Num 3). by split.
Qed.

(** C8, as the code has it. When the words after the size word are
    well-formed entries that fill the recorded size, the first loop of
    [updateTree] reads one string per entry and stops on the recorded
    end. For every buffer the loop ends, with the cursor at or past the
    recorded end or [NaN]: nothing checks that the cursor is on the
    recorded end or that the words read were in the buffer. A buffer
    cut within its three leading words is taken for a log without
    operations: [updateTree] returns a copy of the previous tree. *)
Theorem reassembleStringTable_aligned
    (entries : list (list N)) (headerA headerB : N) (rest : list N) :
  let table := encodeStringTable entries in
  let operations :=
    headerA :: headerB :: N.of_nat (length table) :: table ++ rest in
  reassembleStringTable (S (length operations)) operations
    (num_add_word 3 (word_at operations 2)) (Num 3) [SNull]
  = Some (Num (3 + N.of_nat (length table)),
          SNull :: ((λ entry, SString (utfDecodeString entry)) <$> entries)) ∧
  (∀ buffer : list N,
     ∃ r,
       reassembleStringTable (S (length buffer)) buffer
         (num_add_word 3 (word_at buffer 2)) (Num 3) [SNull] = Some r ∧
       num_lt r.1 (num_add_word 3 (word_at buffer 2)) = false) ∧
  (∀ (commitTree : CommitTree) (buffer : list N) (h : Heap) (m : NodeMap),
     (length buffer ≤ 3)%nat →
     maps h !! nodes commitTree = Some m →
     updateTree commitTree buffer h
     = (OK {| nodes := length (maps h); rootID := rootID commitTree |},
        {| objs := objs h; maps := maps h ++ [m] |})).
Proof.
  intros table operations. split; [|split].
  - pose proof (reassemble_entries entries (S (length operations))
                  [headerA; headerB; N.of_nat (length table)] rest [SNull])
      as Hrun.
    cbn [app length] in Hrun. fold table in Hrun. fold operations in Hrun.
    replace (N.of_nat (3 + length table)) with (3 + N.of_nat (length table))
      in Hrun by lia.
    change (N.of_nat 3) with 3 in Hrun.
    assert (word_at operations 2 = Some (N.of_nat (length table))) as ->
      by done.
    cbn [num_add_word]. apply Hrun.
    pose proof (encodeStringTable_entries entries) as Hlen.
    subst operations table. simpl. rewrite length_app. lia.
  - intros buffer.
    destruct (reassemble_fuel (S (length buffer)) buffer
                (num_add_word 3 (word_at buffer 2)) (Num 3) [SNull])
      as [r Hr]; [simpl; lia|].
    exists r. split; [done|]. by eapply reassemble_exit.
  - intros commitTree buffer h m Hshort Hm.
    destruct (loopStart_short commitTree buffer h m Hshort Hm)
      as (stringTable & i & Hstart & Hend).
    by eapply (updateTree_returns _ _ _ _ _ _ _ 0%nat i).
Qed.

End StringTable.

(** ** The initial tree *)

Section InitialTree.
Context `{Imports}.
Local Open Scope nat_scope.
Variable store : Store.
Variable durations : gmap N float.
Variable ns : loc.

(** The children of the snapshot are well founded: [rank] decreases
    from a node to its children. *)
Variable rank : N → nat.
Hypothesis rank_children : ∀ id node child,
  profilingSnapshot (profilingData_of store) !! id = Some node →
  child ∈ snapshot_children node → rank child < rank id.

(** What a call of [recursivelyIniitliazeTree] finds and leaves, and how
    the two heaps are related. *)
Let initialized (h : Heap) : Prop :=
  ∃ m : NodeMap, maps h !! ns = Some m ∧ fromSnapshot store durations h m.

Let grows (h h' : Heap) : Prop :=
  objs h `prefix_of` objs h' ∧
  ∀ m m' : NodeMap, maps h !! ns = Some m → maps h' !! ns = Some m' →
    ∀ k, is_Some (m !! k) → is_Some (m' !! k).

Lemma forEach_initialized {A} (f : A → M unit) (l : list A) h :
  (∀ x h0, x ∈ l → initialized h0 →
     ∃ h1, f x h0 = (OK tt, h1) ∧ initialized h1 ∧ grows h0 h1) →
  initialized h →
  ∃ h', forEach f l h = (OK tt, h') ∧ initialized h' ∧ grows h h'.
Proof.
  revert h. induction l as [|x l IH]; intros h Hf Hinit; simpl.
  - exists h. split; [done|]. split; [done|]. split; [done|].
    intros m m' Hm Hm'. by simplify_eq.
  - destruct (Hf x h) as (h1 & Hx & Hinit1 & [Hpre1 Hkeys1]);
      [by left | done |].
    destruct (IH h1) as (h' & Hl & Hinit' & [Hpre' Hkeys']); [|done|].
    { intros y h0 Hy. apply Hf. by right. }
    exists h'. rewrite (st_bind_OK _ _ _ _ _ Hx).
    split; [done|]. split; [done|]. split; [by etrans|].
    intros m m' Hm Hm' k Hk. destruct Hinit1 as (m1 & Hm1 & _).
    eapply Hkeys'; [done | done |]. by eapply Hkeys1.
Qed.

(** With fuel above the rank of [id] the call returns, and the map it
    fills holds [id] when the snapshot does. *)
Lemma recursivelyIniitliazeTree_returns fuel : ∀ id parentID h,
  rank id < fuel → initialized h →
  ∃ h',
    recursivelyIniitliazeTree fuel id parentID ns durations store h
      = (OK tt, h') ∧
    initialized h' ∧ grows h h' ∧
    (is_Some (profilingSnapshot (profilingData_of store) !! id) →
     ∀ m' : NodeMap, maps h' !! ns = Some m' → is_Some (m' !! Some id)).
Proof.
  induction fuel as [|fuel IH]; intros id parentID h Hrank Hinit; [lia|].
  simpl.
  destruct (profilingSnapshot (profilingData_of store) !! id)
    as [node|] eqn:Hnode.
  - destruct Hinit as (m & Hm & Hfrom).
    set (object := snapshotObject durations id parentID node).
    set (h1 := {| objs := objs h ++ [object]; maps := maps h |}).
    set (m2 := <[Some id := length (objs h)]> m).
    set (h2 := {| objs := objs h ++ [object];
                  maps := <[ns := m2]> (maps h) |}).
    assert (maps h2 !! ns = Some m2) as Hm2.
    { simpl. apply list_lookup_insert_eq. by eapply lookup_lt_Some. }
    assert (initialized h2) as Hinit2.
    { exists m2. split; [done|]. intros k l Hl. subst m2.
      destruct (decide (k = Some id)) as [->|Hne].
      - rewrite lookup_insert_eq in Hl. injection Hl as <-.
        exists id, node, parentID. split; [done|]. split; [done|].
        simpl. apply lookup_snoc_length.
      - rewrite lookup_insert_ne in Hl by done.
        destruct (Hfrom k l Hl) as (id' & node' & parent' & ? & ? & Hobj).
        exists id', node', parent'. split; [done|]. split; [done|].
        simpl. by apply lookup_app_l_Some. }
    destruct (forEach_initialized
                (λ childID,
                   recursivelyIniitliazeTree fuel childID id ns durations
                     store)
                (snapshot_children node) h2)
      as (h' & Hrun & Hinit' & [Hpre' Hkeys']); [|done|].
    { intros childID h0 Hchild Hinit0.
      destruct (IH childID id h0) as (h3 & Hcall & Hinit3 & Hgrows3 & _);
        [|done|by exists h3].
      pose proof (rank_children id node childID Hnode Hchild). lia. }
    exists h'.
    erewrite st_bind_OK; [|reflexivity].
    erewrite st_bind_OK; [|by apply map_set_Some].
    split; [done|]. split; [done|]. split; [split|].
    + etrans; [|exact Hpre']. simpl. by apply prefix_app_r.
    + intros m0 m' Hm0 Hm' k Hk. assert (m0 = m) as -> by congruence.
      eapply Hkeys'; [done | done |]. subst m2.
      destruct (decide (k = Some id)) as [->|Hne].
      * rewrite lookup_insert_eq. by eexists.
      * by rewrite lookup_insert_ne.
    + intros _ m' Hm'. eapply Hkeys'; [done | done |].
      subst m2. rewrite lookup_insert_eq. by eexists.
  - exists h. split; [done|]. split; [done|]. split.
    + split; [done|]. intros m m' Hm Hm'. by simplify_eq.
    + by intros [? ?].
Qed.

End InitialTree.

Section FirstCommit.
Context `{Imports}.
Local Open Scope nat_scope.

(** C9, as the code has it. For a root with no commit in the cache,
    and a snapshot of the store whose children are well founded, a call
    for commit 0 builds the initial tree in a new map: every entry of it
    is an id of the snapshot with the children, display name and key of
    the snapshot and the duration of the table, and the root is one of
    them when the snapshot has it. The call then goes on as for any
    commit: without operations for commit 0 it throws
    [UnableToReconstruct] and the array of the root stays empty; with
    operations it returns what [updateTree] makes of the initial tree,
    as the only tree of the array, or throws what [updateTree] throws. *)
Theorem getCommitTree_first
    (rank : N → nat) (fuel : nat) (profilingSummary : ProfilingSummary)
    (store : Store) (s : State) :
  let rootID := summary_rootID profilingSummary in
  let snapshot := profilingSnapshot (profilingData_of store) in
  let durations := initialTreeBaseDurations profilingSummary in
  let ns := length (maps (heap s)) in
  let initial := {| nodes := ns; rootID := rootID |} in
  (∀ id node child,
     snapshot !! id = Some node → child ∈ snapshot_children node →
     rank child < rank id) →
  rank rootID < fuel →
  commitTrees_of rootID s = [] →
  ∃ (h0 : Heap) (m0 : NodeMap),
    recursivelyIniitliazeTree fuel rootID 0 ns durations store
      {| objs := objs (heap s); maps := maps (heap s) ++ [∅] |}
      = (OK tt, h0) ∧
    maps h0 !! ns = Some m0 ∧
    fromSnapshot store durations h0 m0 ∧
    (is_Some (snapshot !! rootID) → is_Some (m0 !! Some rootID)) ∧
    let cache0 := rootToCommitTreeMap (ensure_entry rootID s).2 in
    let s0 := {| heap := h0; rootToCommitTreeMap := cache0 |} in
    (commitOperations_at store rootID 0 = None →
     getCommitTree fuel 0 profilingSummary store s
       = (Throw (UnableToReconstruct rootID 0), s0) ∧
     commitTrees_of rootID s0 = []) ∧
    (∀ operations,
       commitOperations_at store rootID 0 = Some operations →
       (∀ t h',
          updateTree initial operations h0 = (OK t, h') →
          getCommitTree fuel 0 profilingSummary store s
            = (OK t, {| heap := h';
                        rootToCommitTreeMap := <[rootID := [t]]> cache0 |})) ∧
       (∀ e h',
          updateTree initial operations h0 = (Throw e, h') →
          getCommitTree fuel 0 profilingSummary store s
            = (Throw e, {| heap := h'; rootToCommitTreeMap := cache0 |}))).
Proof.
  intros rootID snapshot durations ns initial Hrank Hfuel Hempty.
  set (h1 := {| objs := objs (heap s); maps := maps (heap s) ++ [∅] |}).
  destruct (recursivelyIniitliazeTree_returns store durations ns rank
              Hrank fuel rootID 0%N h1 Hfuel)
    as (h0 & Hinit & (m0 & Hm0 & Hfrom) & _ & Hroot).
  { exists ∅. split; [apply lookup_snoc_length|]. by intros k l Hl. }
  exists h0, m0. split; [done|]. split; [done|]. split; [done|].
  split; [intros Hsome; by apply Hroot|].
  intros cache0 s0.
  assert (commitTrees_of rootID s0 = []) as Hempty0.
  { unfold commitTrees_of. simpl. subst cache0.
    fold (commitTrees_of rootID (ensure_entry rootID s).2).
    by rewrite commitTrees_of_ensure. }
  assert (getCommitTree fuel 0 profilingSummary store s
          = update_and_push store rootID 0 initial s0) as Hunfold.
  { rewrite getCommitTree_0_unfold by (fold rootID; by rewrite Hempty).
    fold rootID durations.
    erewrite st_bind_OK.
    2: { unfold lift_heap. rewrite heap_ensure. reflexivity. }
    erewrite st_bind_OK; [done|].
    unfold lift_heap. simpl. fold ns h1. by rewrite Hinit. }
  rewrite Hunfold. unfold update_and_push. split.
  - by intros ->.
  - intros operations ->. split.
    + intros t h' Hupdate.
      erewrite st_bind_OK.
      2: { unfold lift_heap. simpl. by rewrite Hupdate. }
      unfold st_bind, push_commitTree, st_ret. simpl. do 3 f_equal.
      change (commitTrees_of rootID
                {| heap := h'; rootToCommitTreeMap := cache0 |})
        with (commitTrees_of rootID s0).
      by rewrite Hempty0.
    + intros e h' Hupdate. apply st_bind_Throw.
      unfold lift_heap. simpl. by rewrite Hupdate.
Qed.

End FirstCommit.

(** ** What each operation does to the map *)

Section Operations.
Context `{Imports}.

Lemma applyOperation_add ns stringTable operations i :
  word_at operations i = Some TREE_OPERATION_ADD →
  applyOperation ns stringTable operations i =
  opAdd ns stringTable operations i.
Proof. intros Hop. unfold applyOperation. by rewrite decide_True. Qed.


Lemma applyOperation_reorder ns stringTable operations i :
  word_at operations i = Some TREE_OPERATION_REORDER_CHILDREN →
  TREE_OPERATION_REORDER_CHILDREN ≠ TREE_OPERATION_ADD →
  TREE_OPERATION_REORDER_CHILDREN ≠ TREE_OPERATION_REMOVE →
  applyOperation ns stringTable operations i =
  opReorderChildren ns operations i.
Proof.
  intros Hop Hadd Hremove. unfold applyOperation. rewrite Hop.
  rewrite !decide_False by congruence. by rewrite decide_True.
Qed.

(** X1. An Add of a root whose id is not a key of the map registers a
    new node without parent, children, name or key and with duration 0
    under the id, leaves every other entry and every object as it was,
    and moves the cursor past the two flag words, read or not. *)
Theorem add_root_inserts
    (m : NodeMap) (ns : loc) (stringTable : list jsstr)
    (operations : list N) (i : N) (h : Heap) :
  let fiber := word_at operations (i + 1) in
  let node :=
    {| children := Some []; displayName := SNull; id := fiber; key := SNull;
       parentID := Some 0; treeBaseDuration := Some 0%float |} in
  word_at operations i = Some TREE_OPERATION_ADD →
  word_at operations (i + 2) = Some ElementTypeRoot →
  maps h !! ns = Some m →
  m !! fiber = None →
  applyOperation ns stringTable operations i h
  = (OK (Num (i + 5)),
     {| objs := objs h ++ [node];
        maps := <[ns := <[fiber := length (objs h)]> m]> (maps h) |}).
Proof.
  intros fiber node Hop Htype Hm Hfresh.
  rewrite applyOperation_add by done. unfold opAdd. fold fiber.
  erewrite st_bind_OK; [|by apply map_has_Some].
  rewrite bool_decide_eq_false_2 by (rewrite Hfresh; by intros [? ?]).
  rewrite decide_True by done.
  erewrite st_bind_OK; [|reflexivity].
  erewrite st_bind_OK; [|by apply map_set_Some].
  unfold st_ret. do 3 f_equal. lia.
Qed.

(** The child branch of an Add, for a parent that has children. *)
Lemma opAdd_child
    (m : NodeMap) (ns : loc) (stringTable : list jsstr)
    (operations : list N) (i : N) (h : Heap) (lp : loc) (parent : Node)
    (siblings : list word) :
  let fiber := word_at operations (i + 1) in
  let parentWord := word_at operations (i + 3) in
  let node :=
    {| children := Some [];
       displayName := string_at stringTable (word_at operations (i + 5));
       id := fiber;
       key := string_at stringTable (word_at operations (i + 6));
       parentID := parentWord; treeBaseDuration := Some 0%float |} in
  word_at operations (i + 2) ≠ Some ElementTypeRoot →
  maps h !! ns = Some m →
  m !! fiber = None →
  m !! parentWord = Some lp →
  objs h !! lp = Some parent →
  children parent = Some siblings →
  opAdd ns stringTable operations i h
  = (OK (Num (i + 7)),
     {| objs := objs h ++ [set_children parent (siblings ++ [fiber]); node];
        maps :=
          <[ns := <[fiber := S (length (objs h))]>
                    (<[parentWord := length (objs h)]> m)]> (maps h) |}).
Proof.
  intros fiber parentWord node Htype Hm Hfresh Hparent Hobj Hsiblings.
  pose proof (lookup_lt_Some _ _ _ Hm) as Hns.
  unfold opAdd. fold fiber.
  erewrite st_bind_OK; [|by apply map_has_Some].
  rewrite bool_decide_eq_false_2 by (rewrite Hfresh; by intros [? ?]).
  rewrite decide_False by done.
  replace (i + 3 + 1 + 1) with (i + 5) by lia.
  replace (i + 5 + 1) with (i + 6) by lia.
  replace (i + 6 + 1) with (i + 7) by lia.
  fold parentWord.
  erewrite st_bind_OK.
  2: { apply getClonedNode_spec with (fields := parent); [done|].
       by rewrite Hparent. }
  erewrite st_bind_OK.
  2: { apply read_node_Some. simpl. apply lookup_snoc_length. }
  rewrite Hsiblings.
  erewrite st_bind_OK.
  2: { eapply write_node_Some. simpl. apply lookup_snoc_length. }
  cbn [objs maps]. rewrite insert_snoc_length.
  erewrite st_bind_OK; [|reflexivity].
  erewrite st_bind_OK.
  2: { apply map_set_Some. simpl. by apply list_lookup_insert_eq. }
  cbn [objs maps]. rewrite list_insert_insert_eq, <- app_assoc.
  unfold st_ret. do 3 f_equal. rewrite length_app. simpl.
  do 2 f_equal. lia.
Qed.

(** X2. An Add of a child whose parent is in the map with a [children]
    array copies the parent, appends the id to the copy's children, and
    registers a new node with the two strings the string table has for
    its references, no children and duration 0. The parent's object
    itself is not touched. *)
Theorem add_child_appends
    (m : NodeMap) (ns : loc) (stringTable : list jsstr)
    (operations : list N) (i : N) (h : Heap) (lp : loc) (parent : Node)
    (siblings : list word) :
  let fiber := word_at operations (i + 1) in
  let parentWord := word_at operations (i + 3) in
  let node :=
    {| children := Some [];
       displayName := string_at stringTable (word_at operations (i + 5));
       id := fiber;
       key := string_at stringTable (word_at operations (i + 6));
       parentID := parentWord; treeBaseDuration := Some 0%float |} in
  word_at operations i = Some TREE_OPERATION_ADD →
  word_at operations (i + 2) ≠ Some ElementTypeRoot →
  maps h !! ns = Some m →
  m !! fiber = None →
  m !! parentWord = Some lp →
  objs h !! lp = Some parent →
  children parent = Some siblings →
  applyOperation ns stringTable operations i h
  = (OK (Num (i + 7)),
     {| objs := objs h ++ [set_children parent (siblings ++ [fiber]); node];
        maps :=
          <[ns := <[fiber := S (length (objs h))]>
                    (<[parentWord := length (objs h)]> m)]> (maps h) |}) ∧
  objs h !! lp = Some parent.
Proof.
  intros fiber parentWord node Hop Htype Hm Hfresh Hparent Hobj Hsiblings.
  split; [|done]. rewrite applyOperation_add by done.
  by eapply opAdd_child.
Qed.

(** X3. An Add of a child whose parent id is not a key of the map does
    not fail for the unknown parent: the object without properties made
    for it is registered under the parent id, and appending to its
    missing [children] throws [TypeError]. The child is not
    registered. *)
Theorem add_child_of_unknown_parent_throws
    (m : NodeMap) (ns : loc) (stringTable : list jsstr)
    (operations : list N) (i : N) (h : Heap) :
  let fiber := word_at operations (i + 1) in
  let parentWord := word_at operations (i + 3) in
  word_at operations i = Some TREE_OPERATION_ADD →
  word_at operations (i + 2) ≠ Some ElementTypeRoot →
  maps h !! ns = Some m →
  m !! fiber = None →
  m !! parentWord = None →
  applyOperation ns stringTable operations i h
  = (Throw TypeError,
     {| objs := objs h ++ [emptyObject];
        maps := <[ns := <[parentWord := length (objs h)]> m]> (maps h) |}).
Proof.
  intros fiber parentWord Hop Htype Hm Hfresh Hparent.
  rewrite applyOperation_add by done. unfold opAdd. fold fiber.
  erewrite st_bind_OK; [|by apply map_has_Some].
  rewrite bool_decide_eq_false_2 by (rewrite Hfresh; by intros [? ?]).
  rewrite decide_False by done. fold parentWord.
  erewrite st_bind_OK.
  2: { apply getClonedNode_spec with (fields := emptyObject); [done|].
       by rewrite Hparent. }
  erewrite st_bind_OK.
  2: { apply read_node_Some. simpl. apply lookup_snoc_length. }
  done.
Qed.

(** A round of Remove, for the fiber the cursor is at. *)
Lemma removeFiber_round
    (m : NodeMap) (ns : loc) (operations : list N) (i : N) (h : Heap)
    (fiber : word) (l lp : loc) (node parent : Node) (siblings : list word) :
  word_at operations i = fiber →
  maps h !! ns = Some m →
  m !! fiber = Some l →
  objs h !! l = Some node →
  delete fiber m !! parentID node = Some lp →
  objs h !! lp = Some parent →
  children parent = Some siblings →
  removeFiber ns operations i h
  = (OK (i + 1),
     {| objs :=
          objs h ++
          [node;
           set_children parent (filter (λ childID, childID ≠ fiber) siblings)];
        maps :=
          <[ns := <[parentID node := S (length (objs h))]> (delete fiber m)]>
            (maps h) |}).
Proof.
  intros Hfiber Hm Hl Hnode Hparent Hobj Hsiblings. unfold removeFiber.
  rewrite Hfiber. pose proof (lookup_lt_Some _ _ _ Hm) as Hns.
  erewrite st_bind_OK; [|by apply map_has_Some].
  rewrite bool_decide_eq_true_2 by (by rewrite Hl). cbn [negb].
  erewrite st_bind_OK.
  2: { apply getClonedNode_spec with (fields := node); [done|].
       by rewrite Hl. }
  erewrite st_bind_OK.
  2: { apply read_node_Some. simpl. apply lookup_snoc_length. }
  erewrite st_bind_OK.
  2: { apply map_delete_Some. simpl. by apply list_lookup_insert_eq. }
  cbn [objs maps]. rewrite list_insert_insert_eq, delete_insert_eq.
  erewrite st_bind_OK.
  2: { apply getClonedNode_spec with (fields := parent).
       - simpl. by apply list_lookup_insert_eq.
       - rewrite Hparent. simpl. by apply lookup_app_l_Some. }
  cbn [objs maps]. rewrite list_insert_insert_eq.
  erewrite st_bind_OK.
  2: { apply read_node_Some. simpl. apply lookup_snoc_length. }
  rewrite Hsiblings.
  erewrite st_bind_OK.
  2: { eapply write_node_Some. simpl. apply lookup_snoc_length. }
  cbn [objs maps]. rewrite insert_snoc_length, <- app_assoc.
  unfold st_ret. do 3 f_equal. rewrite length_app. simpl.
  do 3 f_equal. lia.
Qed.

(** X4. A round of Remove for a fiber of the map whose parent is in
    the map with a [children] array deletes the fiber's entry and
    registers under the parent id a copy of the parent whose children
    are the old ones without the fiber, in their order. *)
Theorem removeFiber_detaches
    (m : NodeMap) (ns : loc) (operations : list N) (i : N) (h : Heap)
    (l lp : loc) (node parent : Node) (siblings : list word) :
  let fiber := word_at operations i in
  maps h !! ns = Some m →
  m !! fiber = Some l →
  objs h !! l = Some node →
  delete fiber m !! parentID node = Some lp →
  objs h !! lp = Some parent →
  children parent = Some siblings →
  removeFiber ns operations i h
  = (OK (i + 1),
     {| objs :=
          objs h ++
          [node;
           set_children parent (filter (λ childID, childID ≠ fiber) siblings)];
        maps :=
          <[ns := <[parentID node := S (length (objs h))]> (delete fiber m)]>
            (maps h) |}).
Proof.
  intros fiber Hm Hl Hnode Hparent Hobj Hsiblings.
  by eapply removeFiber_round.
Qed.

End Operations.

Section OperationsCompose.
Context `{Imports}.




Lemma slice_length operations start count :
  length (slice operations start (Num (start + count)))
  = (N.to_nat count `min` (length operations - N.to_nat start))%nat.
Proof.
  unfold slice. rewrite length_take, length_drop.
  replace (N.to_nat (start + count - start)) with (N.to_nat count) by lia.
  done.
Qed.

(** X6. A ReorderChildren never checks its id or its child count. It
    copies the node of the id, or makes an object without properties
    when the id is unknown, and gives it as children the words that
    follow, cut at the end of the buffer when fewer than announced are
    there (none when the count itself is missing, and the cursor is then
    [NaN]). No other entry or object changes and nothing is thrown. *)
Theorem reorderChildren_replaces
    (m : NodeMap) (ns : loc) (stringTable : list jsstr)
    (operations : list N) (i : N) (h : Heap) (fields : Node) :
  let fiber := word_at operations (i + 1) in
  let numChildren := word_at operations (i + 2) in
  let newChildren :=
    slice operations (i + 3) (num_add_word (i + 3) numChildren) in
  word_at operations i = Some TREE_OPERATION_REORDER_CHILDREN →
  TREE_OPERATION_REORDER_CHILDREN ≠ TREE_OPERATION_ADD →
  TREE_OPERATION_REORDER_CHILDREN ≠ TREE_OPERATION_REMOVE →
  maps h !! ns = Some m →
  match m !! fiber with
  | Some l => objs h !! l = Some fields
  | None => fields = emptyObject
  end →
  applyOperation ns stringTable operations i h
  = (OK (num_add_word (i + 3) numChildren),
     {| objs := objs h ++ [set_children fields (Some <$> newChildren)];
        maps := <[ns := <[fiber := length (objs h)]> m]> (maps h) |}) ∧
  length newChildren
  = (N.to_nat (default 0%N numChildren)
     `min` (length operations - N.to_nat (i + 3)))%nat.
Proof.
  intros fiber numChildren newChildren Hop Hadd Hremove Hm Hfields. split.
  - rewrite applyOperation_reorder by done. unfold opReorderChildren.
    fold fiber numChildren newChildren.
    erewrite st_bind_OK; [|by apply getClonedNode_spec].
    erewrite st_bind_OK.
    2: { apply read_node_Some. simpl. apply lookup_snoc_length. }
    erewrite st_bind_OK.
    2: { eapply write_node_Some. simpl. apply lookup_snoc_length. }
    cbn [objs maps]. by rewrite insert_snoc_length.
  - subst newChildren. destruct numChildren as [count|]; simpl.
    + apply slice_length.
    + lia.
Qed.

Lemma applyOperation_update_any ns stringTable operations i :
  word_at operations i = Some TREE_OPERATION_UPDATE_TREE_BASE_DURATION →
  TREE_OPERATION_UPDATE_TREE_BASE_DURATION ≠ TREE_OPERATION_ADD →
  TREE_OPERATION_UPDATE_TREE_BASE_DURATION ≠ TREE_OPERATION_REMOVE →
  TREE_OPERATION_UPDATE_TREE_BASE_DURATION
    ≠ TREE_OPERATION_REORDER_CHILDREN →
  applyOperation ns stringTable operations i =
  opUpdateTreeBaseDuration ns operations i.
Proof.
  intros Hop Hadd Hremove Hreorder. unfold applyOperation. rewrite Hop.
  rewrite !decide_False by congruence. by rewrite decide_True.
Qed.

(** X7. An UpdateTreeBaseDuration for an id that is not a key of the
    map throws nothing: an object whose only property is the duration
    is registered under the id. When the buffer ends before the
    duration word the duration is [NaN]. *)
Theorem updateTreeBaseDuration_of_unknown_registers
    (m : NodeMap) (ns : loc) (stringTable : list jsstr)
    (operations : list N) (i : N) (h : Heap) :
  let fiber := word_at operations (i + 1) in
  let millis := micros_to_millis (word_at operations (i + 2)) in
  word_at operations i = Some TREE_OPERATION_UPDATE_TREE_BASE_DURATION →
  TREE_OPERATION_UPDATE_TREE_BASE_DURATION ≠ TREE_OPERATION_ADD →
  TREE_OPERATION_UPDATE_TREE_BASE_DURATION ≠ TREE_OPERATION_REMOVE →
  TREE_OPERATION_UPDATE_TREE_BASE_DURATION
    ≠ TREE_OPERATION_REORDER_CHILDREN →
  maps h !! ns = Some m →
  m !! fiber = None →
  applyOperation ns stringTable operations i h
  = (OK (Num (i + 3)),
     {| objs := objs h ++ [set_treeBaseDuration emptyObject millis];
        maps := <[ns := <[fiber := length (objs h)]> m]> (maps h) |}) ∧
  (word_at operations (i + 2) = None → millis = PrimFloat.nan).
Proof.
  intros fiber millis Hop Hadd Hremove Hreorder Hm Hfresh. split.
  - rewrite applyOperation_update_any by done.
    unfold opUpdateTreeBaseDuration. fold fiber millis.
    erewrite st_bind_OK.
    2: { apply getClonedNode_spec with (fields := emptyObject); [done|].
         by rewrite Hfresh. }
    erewrite st_bind_OK.
    2: { apply read_node_Some. simpl. apply lookup_snoc_length. }
    erewrite st_bind_OK.
    2: { eapply write_node_Some. simpl. apply lookup_snoc_length. }
    cbn [objs maps]. by rewrite insert_snoc_length.
  - subst millis. by intros ->.
Qed.

End OperationsCompose.

(** ** What [updateTree] keeps true of the map it fills *)

Section Filling.
Context `{Imports}.
Local Open Scope nat_scope.
Variable bo : nat.
Variable ns : loc.
Variable R : word → loc → Node → Prop.

(** [R] holds of what [updateTree] makes: objects without properties,
    copies, copies with new children or a new duration, and new nodes
    under their own id; all of them above [bo]. *)
Hypothesis R_empty : ∀ k l, bo ≤ l → R k l emptyObject.
Hypothesis R_copy : ∀ k l l' node, R k l node → bo ≤ l' → R k l' node.
Hypothesis R_children : ∀ k l node c,
  bo ≤ l → R k l node → R k l (set_children node c).
Hypothesis R_duration : ∀ k l node d,
  bo ≤ l → R k l node → R k l (set_treeBaseDuration node d).
Hypothesis R_new : ∀ k l node, bo ≤ l → id node = k → R k l node.

Local Abbreviation inv := (filling bo ns R).
Local Abbreviation hoare := (triple bo ns R).

Lemma entries_snoc (m : NodeMap) (os : list Node) (node : Node) :
  entries R os m → entries R (os ++ [node]) m.
Proof.
  intros Hm k l Hl. destruct (Hm k l Hl) as (n & Hn & HR).
  exists n. split; [by apply lookup_app_l_Some | done].
Qed.

Lemma triple_bind {A B} P (c : M A) (k : A → M B) Q Q' :
  hoare P c Q → (∀ a, hoare (Q a) (k a) Q') → hoare P (st_bind c k) Q'.
Proof.
  intros Hc Hk h HP. unfold st_bind. specialize (Hc h HP).
  destruct (c h) as [[a|e] h1]; [|done]. by apply Hk.
Qed.

Lemma triple_ret {A} (P : Heap → Prop) (a : A) (Q : A → Heap → Prop) :
  (∀ h, P h → Q a h) → hoare P (st_ret a) Q.
Proof. intros HPQ h HP. by apply HPQ. Qed.

Lemma triple_throw {A} (P : Heap → Prop) e (Q : A → Heap → Prop) :
  sourceError e → (∀ h, P h → inv h) → hoare P (throw e) Q.
Proof. intros He HP h Hh. split; [done | by apply HP]. Qed.

Lemma triple_pre {A} (P P' : Heap → Prop) (c : M A) Q :
  (∀ h, P' h → P h) → hoare P c Q → hoare P' c Q.
Proof. intros HP Hc h Hh. apply Hc. by apply HP. Qed.

Lemma triple_map_has (P : Heap → Prop) k :
  (∀ h, P h → inv h) → hoare P (map_has ns k) (λ _, P).
Proof.
  intros HP h Hh. destruct (HP h Hh) as (_ & m & Hm & _).
  by rewrite (map_has_Some _ _ _ _ Hm).
Qed.

Lemma triple_read_node l :
  hoare (λ h, inv h ∧ bo ≤ l ∧ is_Some (objs h !! l))
    (read_node l)
    (λ node h, inv h ∧ bo ≤ l ∧ objs h !! l = Some node).
Proof.
  intros h (Hinv & Hl & [node Hnode]). by rewrite (read_node_Some _ _ _ Hnode).
Qed.

Lemma triple_write_node l node node' :
  (∀ k, R k l node → R k l node') →
  hoare (λ h, inv h ∧ bo ≤ l ∧ objs h !! l = Some node)
    (write_node l node')
    (λ _, inv).
Proof.
  intros HR h ((Hbo & m & Hm & Hentries) & Hl & Hnode).
  rewrite (write_node_Some _ _ _ _ Hnode). split.
  - simpl. by rewrite length_insert.
  - exists m. split; [done|]. intros k l' Hk. simpl.
    destruct (Hentries k l' Hk) as (n & Hn & Hkn).
    destruct (decide (l' = l)) as [->|Hne].
    + exists node'. split.
      * apply list_lookup_insert_eq. by eapply lookup_lt_Some.
      * apply HR. congruence.
    + exists n. by rewrite list_lookup_insert_ne.
Qed.

Lemma triple_alloc_node node :
  hoare inv (alloc_node node)
    (λ l h, inv h ∧ bo ≤ l ∧ objs h !! l = Some node).
Proof.
  intros h (Hbo & m & Hm & Hentries). simpl. split; [|split].
  - split; [simpl; rewrite length_app; lia|].
    exists m. split; [done|]. by apply entries_snoc.
  - done.
  - apply lookup_snoc_length.
Qed.

Lemma triple_map_set k l :
  hoare (λ h, inv h ∧ ∃ node, objs h !! l = Some node ∧ R k l node)
    (map_set ns k l)
    (λ _, inv).
Proof.
  intros h ((Hbo & m & Hm & Hentries) & node & Hnode & HR).
  rewrite (map_set_Some _ _ _ _ _ Hm). split; [done|].
  exists (<[k := l]> m). split.
  - simpl. apply list_lookup_insert_eq. by eapply lookup_lt_Some.
  - intros k' l' Hk'. simpl.
    destruct (decide (k' = k)) as [->|Hne].
    + rewrite lookup_insert_eq in Hk'. injection Hk' as <-. eauto.
    + rewrite lookup_insert_ne in Hk' by done. by apply Hentries.
Qed.

Lemma triple_map_delete k :
  hoare inv (map_delete ns k) (λ _, inv).
Proof.
  intros h (Hbo & m & Hm & Hentries).
  rewrite (map_delete_Some _ _ _ _ Hm). split; [done|].
  exists (delete k m). split.
  - simpl. apply list_lookup_insert_eq. by eapply lookup_lt_Some.
  - intros k' l' Hk'. simpl.
    apply lookup_delete_Some in Hk' as [_ Hk']. by apply Hentries.
Qed.

Lemma triple_getClonedNode k :
  hoare inv (getClonedNode ns k)
    (λ l h, inv h ∧ bo ≤ l ∧ is_Some (objs h !! l)).
Proof.
  intros h (Hbo & m & Hm & Hentries).
  assert (∃ fields,
            match m !! k with
            | Some l => objs h !! l = Some fields
            | None => fields = emptyObject
            end ∧ R k (length (objs h)) fields) as (fields & Hfields & HR).
  { destruct (m !! k) as [l|] eqn:Hk.
    - destruct (Hentries k l Hk) as (node & Hnode & Hkn).
      exists node. split; [done|]. by eapply R_copy.
    - exists emptyObject. split; [done|]. by apply R_empty. }
  rewrite (getClonedNode_spec _ _ _ _ _ Hm Hfields).
  split; [|split; [done|]].
  - split; [simpl; rewrite length_app; lia|].
    exists (<[k := length (objs h)]> m). split.
    + simpl. apply list_lookup_insert_eq. by eapply lookup_lt_Some.
    + intros k' l' Hk'. simpl.
      destruct (decide (k' = k)) as [->|Hne].
      * rewrite lookup_insert_eq in Hk'. injection Hk' as <-.
        exists fields. split; [apply lookup_snoc_length | done].
      * rewrite lookup_insert_ne in Hk' by done.
        by apply (entries_snoc m (objs h) fields Hentries).
  - simpl. rewrite lookup_snoc_length. by eexists.
Qed.

(** [getClonedNode], then an assignment to a property of the copy. *)
Lemma triple_clone_assign {A} k (assign : Node → Node) (rest : M A) Q :
  (∀ k' l node, bo ≤ l → R k' l node → R k' l (assign node)) →
  hoare inv rest Q →
  hoare inv
    (node <- getClonedNode ns k ;;
     fields <- read_node node ;;
     write_node node (assign fields) ;;;
     rest)%st
    Q.
Proof.
  intros Hassign Hrest.
  eapply triple_bind; [apply triple_getClonedNode|]. intros l. cbv beta.
  eapply triple_bind; [apply triple_read_node|]. intros fields. cbv beta.
  eapply triple_bind with (Q := λ _, inv); [|intros []; exact Hrest].
  intros h Hh. apply (triple_write_node l fields); [|done].
  intros k' Hk'. destruct Hh as (_ & Hl & _). by apply Hassign.
Qed.

Lemma triple_opAdd stringTable operations i :
  hoare inv (opAdd ns stringTable operations i) (λ _, inv).
Proof.
  unfold opAdd.
  eapply triple_bind; [by apply triple_map_has|]. intros [|].
  { by apply triple_throw. }
  case_decide.
  - eapply triple_bind; [apply triple_alloc_node|]. intros l. cbv beta.
    eapply triple_bind.
    + eapply triple_pre; [|apply triple_map_set].
      intros h (Hinv & Hl & Hnode). split; [done|].
      eexists. split; [done|]. by apply R_new.
    + intros []. by apply triple_ret.
  - eapply triple_bind; [apply triple_getClonedNode|]. intros lp. cbv beta.
    eapply triple_bind; [apply triple_read_node|]. intros parent. cbv beta.
    destruct (children parent) as [siblings|].
    2: { apply triple_throw; [done|]. by intros h [Hinv _]. }
    eapply triple_bind.
    { intros h Hh. apply (triple_write_node lp parent); [|done].
      intros k Hk. destruct Hh as (_ & Hl & _). by apply R_children. }
    intros [].
    eapply triple_bind; [apply triple_alloc_node|]. intros l. cbv beta.
    eapply triple_bind.
    + eapply triple_pre; [|apply triple_map_set].
      intros h (Hinv & Hl & Hnode). split; [done|].
      eexists. split; [done|]. by apply R_new.
    + intros []. by apply triple_ret.
Qed.

Lemma triple_removeFiber operations i :
  hoare inv (removeFiber ns operations i) (λ _, inv).
Proof.
  unfold removeFiber.
  eapply triple_bind; [by apply triple_map_has|]. intros [|]; cbn [negb].
  2: { by apply triple_throw. }
  eapply triple_bind; [apply triple_getClonedNode|]. intros l. cbv beta.
  eapply triple_bind; [apply triple_read_node|]. intros fields. cbv beta.
  eapply triple_bind.
  { eapply triple_pre; [|apply triple_map_delete]. by intros h [Hinv _]. }
  intros [].
  eapply triple_bind; [apply triple_getClonedNode|]. intros lp. cbv beta.
  eapply triple_bind; [apply triple_read_node|]. intros parent. cbv beta.
  destruct (children parent) as [siblings|].
  2: { apply triple_throw; [done|]. by intros h [Hinv _]. }
  eapply triple_bind.
  { intros h Hh. apply (triple_write_node lp parent); [|done].
    intros k Hk. destruct Hh as (_ & Hl & _). by apply R_children. }
  intros []. by apply triple_ret.
Qed.

Lemma triple_removeLoop removeLength operations i :
  hoare inv (removeLoop removeLength ns operations i) (λ _, inv).
Proof.
  revert i. induction removeLength as [|rest IH]; intros i; simpl.
  - by apply triple_ret.
  - eapply triple_bind; [apply triple_removeFiber|]. intros i'. apply IH.
Qed.

Lemma triple_applyOperation stringTable operations i :
  hoare inv (applyOperation ns stringTable operations i) (λ _, inv).
Proof.
  unfold applyOperation. repeat case_decide.
  - apply triple_opAdd.
  - unfold opRemove.
    eapply triple_bind; [apply triple_removeLoop|].
    intros i'. by apply triple_ret.
  - unfold opReorderChildren.
    apply (triple_clone_assign _ (λ node, set_children node _)).
    + intros k l node Hl Hk. by apply R_children.
    + by apply triple_ret.
  - unfold opUpdateTreeBaseDuration.
    apply (triple_clone_assign _ (λ node, set_treeBaseDuration node _)).
    + intros k l node Hl Hk. by apply R_duration.
    + by apply triple_ret.
  - by apply triple_throw.
Qed.

Lemma triple_operationsLoop fuel stringTable operations i :
  remaining operations i ≤ fuel →
  hoare inv (operationsLoop fuel ns stringTable operations i) (λ _, inv).
Proof.
  revert i. induction fuel as [|fuel IH]; intros i Hfuel h Hinv.
  - destruct i as [|i]; simpl; [done|].
    destruct (N.ltb_spec i (N.of_nat (length operations))) as [Hlt|Hge];
      [simpl in Hfuel; lia | done].
  - destruct i as [|i]; simpl; [done|].
    destruct (N.ltb_spec i (N.of_nat (length operations))) as [Hlt|Hge];
      [|done].
    unfold st_bind.
    pose proof (triple_applyOperation stringTable operations i h Hinv)
      as Hstep.
    pose proof (framed_applyOperation 0 0 (λ _, True) (λ _ _, I) ns
                  stringTable operations i (Nat.le_0_l _) h (Nat.le_0_l _)
                  (Nat.le_0_l _)) as [_ Hadv].
    destruct (applyOperation ns stringTable operations i h)
      as [[i'|e] h1]; [|done].
    apply IH; [|done]. simpl in Hadv.
    pose proof (remaining_advances operations i i' Hlt Hadv) as Hrem.
    simpl in Hrem, Hfuel. lia.
Qed.

(** From a previous map whose entries satisfy [R], [updateTree] returns
    a map whose entries satisfy [R], or throws an error of the source. *)
Lemma updateTree_filling (previous : NodeMap) commitTree operations h :
  bo ≤ length (objs h) →
  ns = length (maps h) →
  maps h !! nodes commitTree = Some previous →
  entries R (objs h) previous →
  match updateTree commitTree operations h with
  | (OK t, h') => nodes t = ns ∧ inv h'
  | (Throw e, h') => sourceError e ∧ inv h'
  end.
Proof.
  intros Hbo Hns Hprevious Hentries. rewrite updateTree_loopStart.
  unfold st_bind at 1.
  destruct (loopStart commitTree operations h)
    as [[[[ns' stringTable] i]|e] h1] eqn:Hstart.
  - apply loopStart_inv in Hstart as (previous' & Hprev' & -> & ->).
    assert (previous' = previous) as -> by congruence.
    cbn [fst snd]. unfold st_bind.
    pose proof (triple_operationsLoop (S (length operations)) stringTable
                  operations i) as Hloop.
    rewrite <- Hns.
    specialize (Hloop ltac:(destruct i; simpl; lia)
                  {| objs := objs h; maps := maps h ++ [previous] |}).
    destruct (operationsLoop _ _ _ _ _ _) as [[[]|e] h2].
    + split; [done|]. apply Hloop. split; [done|].
      exists previous. split; [|done]. subst ns. apply lookup_snoc_length.
    + apply Hloop. split; [done|].
      exists previous. split; [|done]. subst ns. apply lookup_snoc_length.
  - exfalso. unfold loopStart in Hstart.
    rewrite (st_bind_OK _ _ _ _ _ (read_map_Some _ _ _ Hprevious)) in Hstart.
    erewrite st_bind_OK in Hstart; [|reflexivity].
    destruct (reassemble_fuel (S (length operations)) operations
                (num_add_word 3 (word_at operations 2)) (Num 3) [SNull])
      as [[i stringTable] Hre]; [simpl; lia|].
    by rewrite Hre in Hstart.
Qed.

End Filling.

Section UpdateTreeInvariants.
Context `{Imports}.
Local Open Scope nat_scope.

(** X8. When the previous map refers to objects that exist,
    [updateTree] throws nothing but the four errors of the source and
    the runtime: the id is there already, the id is not there, the
    opcode is unknown, or a method was called on [undefined]. When it
    returns, every id of the new map refers to an object that exists. *)
Theorem updateTree_throws_source_errors
    (previous : NodeMap) (commitTree : CommitTree) (operations : list N)
    (h : Heap) :
  maps h !! nodes commitTree = Some previous →
  (∀ k l, previous !! k = Some l → is_Some (objs h !! l)) →
  match updateTree commitTree operations h with
  | (OK t, h') =>
      ∃ m' : NodeMap,
        maps h' !! nodes t = Some m' ∧
        ∀ k l, m' !! k = Some l → is_Some (objs h' !! l)
  | (Throw e, _) => sourceError e
  end.
Proof.
  intros Hprevious Hvalid.
  pose proof (updateTree_filling 0 (length (maps h)) (λ _ _ _, True)
                ltac:(done) ltac:(done) ltac:(done) ltac:(done)
                ltac:(done) previous commitTree operations h
                (Nat.le_0_l _) eq_refl Hprevious) as Hfill.
  destruct (updateTree commitTree operations h) as [[t|e] h'].
  - destruct Hfill as (Hnodes & _ & m' & Hm' & Hentries).
    + intros k l Hl. destruct (Hvalid k l Hl) as [node Hnode]. eauto.
    + exists m'. rewrite Hnodes. split; [done|]. intros k l Hl.
      destruct (Hentries k l Hl) as (node & Hnode & _). eauto.
  - apply Hfill. intros k l Hl.
    destruct (Hvalid k l Hl) as [node Hnode]. eauto.
Qed.

(** X9. Structural sharing. Every entry of the map that [updateTree]
    returns refers either to an object the call made or, under the same
    id, to the very object the previous map refers to, which is what it
    was before the call. *)
Theorem updateTree_shares_untouched_nodes
    (previous : NodeMap) (commitTree : CommitTree) (operations : list N)
    (h : Heap) (t : CommitTree) (h' : Heap) :
  maps h !! nodes commitTree = Some previous →
  (∀ k l, previous !! k = Some l → is_Some (objs h !! l)) →
  updateTree commitTree operations h = (OK t, h') →
  ∃ m' : NodeMap,
    maps h' !! nodes t = Some m' ∧
    ∀ k l, m' !! k = Some l →
      (length (objs h) ≤ l ∧ l < length (objs h')) ∨
      (previous !! k = Some l ∧ objs h' !! l = objs h !! l).
Proof.
  intros Hprevious Hvalid Hrun.
  pose proof (updateTree_filling (length (objs h)) (length (maps h))
                (λ k l _, length (objs h) ≤ l ∨ previous !! k = Some l)
                ltac:(by left) ltac:(by left) ltac:(by left)
                ltac:(by left) ltac:(by left) previous commitTree
                operations h (Nat.le_refl _) eq_refl Hprevious) as Hfill.
  pose proof (updateTree_keeps commitTree operations h) as [Hobjs _].
  rewrite Hrun in Hfill, Hobjs. simpl in Hobjs.
  destruct Hfill as (Hnodes & _ & m' & Hm' & Hentries).
  { intros k l Hl. destruct (Hvalid k l Hl) as [node Hnode].
    exists node. split; [done | by right]. }
  exists m'. rewrite Hnodes. split; [done|]. intros k l Hl.
  destruct (Hentries k l Hl) as (node & Hnode & [Hfresh|Hshared]).
  - left. split; [done | by eapply lookup_lt_Some].
  - right. split; [done|].
    destruct (Hvalid k l Hshared) as [node0 Hnode0].
    by rewrite Hnode0, (Hobjs l node0 Hnode0).
Qed.

(** X10. When every node of the previous map has, as its [id], the id
    it is registered under or [undefined], so has every node of the map
    that [updateTree] returns. *)
Theorem updateTree_keeps_ids
    (previous : NodeMap) (commitTree : CommitTree) (operations : list N)
    (h : Heap) (t : CommitTree) (h' : Heap) :
  let registered := λ (k : word) (_ : loc) node,
    id node = None ∨ id node = k in
  maps h !! nodes commitTree = Some previous →
  entries registered (objs h) previous →
  updateTree commitTree operations h = (OK t, h') →
  ∃ m' : NodeMap,
    maps h' !! nodes t = Some m' ∧ entries registered (objs h') m'.
Proof.
  intros registered Hprevious Hentries Hrun.
  pose proof (updateTree_filling 0 (length (maps h)) registered
                ltac:(by left) ltac:(done)
                ltac:(by intros ? ? [] ?)
                ltac:(by intros ? ? [] ?)
                ltac:(by right) previous commitTree
                operations h (Nat.le_0_l _) eq_refl Hprevious Hentries)
    as Hfill.
  rewrite Hrun in Hfill. destruct Hfill as (Hnodes & _ & m' & Hm' & Hm).
  exists m'. by rewrite Hnodes.
Qed.

(** X11. The loops of [updateTree] end on every buffer: an operation
    that returns leaves the cursor further on, or [NaN], the first loop
    never needs more rounds than the buffer has words and one, and the
    call never stops for want of fuel. *)
Theorem updateTree_terminates
    (commitTree : CommitTree) (operations : list N) (h : Heap) :
  (updateTree commitTree operations h).1 ≠ Throw OutOfFuel ∧
  is_Some (reassembleStringTable (S (length operations)) operations
             (num_add_word 3 (word_at operations 2)) (Num 3) [SNull]) ∧
  (∀ ns stringTable (i : N) h0 i' h1,
     applyOperation ns stringTable operations i h0 = (OK i', h1) →
     advances i i').
Proof.
  split; [apply updateTree_fuel|]. split.
  - apply reassemble_fuel. simpl. lia.
  - intros ns stringTable i h0 i' h1 Hstep.
    pose proof (framed_applyOperation 0 0 (λ _, True) (λ _ _, I) ns
                  stringTable operations i (Nat.le_0_l _) h0 (Nat.le_0_l _)
                  (Nat.le_0_l _)) as [_ Hadv].
    by rewrite Hstep in Hadv.
Qed.

End UpdateTreeInvariants.

(** ** The cache across calls *)

Section CacheFacts.
Context `{Imports}.
Local Open Scope nat_scope.

Lemma getCommitTree_twice fuel commitIndex profilingSummary store s :
  (getCommitTree fuel commitIndex profilingSummary store ;;;
   getCommitTree fuel commitIndex profilingSummary store)%st s
  = getCommitTree fuel commitIndex profilingSummary store s.
Proof.
  destruct (getCommitTree fuel commitIndex profilingSummary store s)
    as [[t|e] s1] eqn:Hrun.
  - rewrite (st_bind_OK _ _ _ _ _ Hrun).
    apply getCommitTree_memo. by apply getCommitTree_OK in Hrun as [? _].
  - by apply st_bind_Throw.
Qed.

(** X12. Asking for an earlier commit first changes nothing: a call
    for commit [j] followed by a call for a later commit [commitIndex]
    of the same root returns, or throws, what the call for
    [commitIndex] alone does, and leaves the same state. *)
Theorem getCommitTree_after_earlier
    (fuel : nat) (profilingSummary : ProfilingSummary) (store : Store)
    (commitIndex j : nat) (s : State) :
  j ≤ commitIndex →
  (getCommitTree fuel j profilingSummary store ;;;
   getCommitTree fuel commitIndex profilingSummary store)%st s
  = getCommitTree fuel commitIndex profilingSummary store s.
Proof.
  revert j s. induction commitIndex as [|k IH]; intros j s Hj.
  - replace j with 0 by lia. apply getCommitTree_twice.
  - destruct (decide (j = S k)) as [->|Hne]; [apply getCommitTree_twice|].
    set (rootID := summary_rootID profilingSummary).
    destruct (commitTrees_of rootID s !! S k) as [t|] eqn:Hmemo.
    + assert (is_Some (commitTrees_of rootID s !! j)) as [tj Htj].
      { apply lookup_lt_is_Some. apply lookup_lt_Some in Hmemo. lia. }
      by rewrite (st_bind_OK _ _ _ _ _
                    (getCommitTree_memo fuel _ _ store _ _ Htj)).
    + specialize (IH j s ltac:(lia)).
      rewrite (getCommitTree_S_unfold _ _ _ _ s) by done.
      destruct (getCommitTree fuel j profilingSummary store s)
        as [[tj|e] s1] eqn:Hrun.
      * rewrite (st_bind_OK _ (λ _, getCommitTree fuel k _ _) _ _ _ Hrun)
          in IH.
        rewrite (st_bind_OK _ (λ _, getCommitTree fuel (S k) _ _) _ _ _
                   Hrun).
        pose proof (getCommitTree_OK _ _ _ _ _ _ _ Hrun) as [_ Hlength].
        fold rootID in Hlength. apply lookup_ge_None in Hmemo.
        rewrite getCommitTree_S_unfold
          by (apply lookup_ge_None; fold rootID; lia).
        unfold st_bind. by rewrite IH.
      * rewrite (st_bind_Throw _ (λ _, getCommitTree fuel k _ _) _ _ _
                   Hrun) in IH.
        rewrite (st_bind_Throw _ (λ _, getCommitTree fuel (S k) _ _) _ _ _
                   Hrun).
        symmetry. by apply st_bind_Throw.
Qed.

(** X13. A commit that is neither in the array nor has operations in
    the store is never returned. When the call for the commit before it
    returns, the call throws [UnableToReconstruct] for the commit
    itself, from the state the call before left: nothing is pushed. *)
Theorem getCommitTree_without_operations
    (fuel commitIndex : nat) (profilingSummary : ProfilingSummary)
    (store : Store) (s : State) :
  let rootID := summary_rootID profilingSummary in
  commitTrees_of rootID s !! commitIndex = None →
  commitOperations_at store rootID commitIndex = None →
  (∀ t s',
     getCommitTree fuel commitIndex profilingSummary store s ≠ (OK t, s')) ∧
  (∀ previousIndex previous s1,
     commitIndex = S previousIndex →
     getCommitTree fuel previousIndex profilingSummary store s
       = (OK previous, s1) →
     getCommitTree fuel commitIndex profilingSummary store s
       = (Throw (UnableToReconstruct rootID commitIndex), s1)).
Proof.
  intros rootID Hmemo Hops. split.
  - intros t s' Hrun. destruct commitIndex as [|k].
    + rewrite getCommitTree_0_unfold in Hrun by done.
      apply st_bind_inv_OK in Hrun as (ns & s1 & _ & Hrun).
      apply st_bind_inv_OK in Hrun as ([] & s2 & _ & Hrun).
      apply update_and_push_OK in Hrun as (operations & Hsome & _).
      fold rootID in Hsome. congruence.
    + rewrite getCommitTree_S_unfold in Hrun by done.
      apply st_bind_inv_OK in Hrun as (previous & s1 & _ & Hrun).
      apply update_and_push_OK in Hrun as (operations & Hsome & _).
      fold rootID in Hsome. congruence.
  - intros k previous s1 -> Hprevious.
    rewrite getCommitTree_S_unfold by done.
    rewrite (st_bind_OK _ _ _ _ _ Hprevious).
    unfold update_and_push. fold rootID. by rewrite Hops.
Qed.

(** X14. When a call for a commit returns, every commit up to it is in
    the array of its root, the returned tree at its index; the trees
    that were in the array are where they were, and the array is as long
    as it was or ends with the returned tree. *)
Theorem getCommitTree_fills_array
    (fuel commitIndex : nat) (profilingSummary : ProfilingSummary)
    (store : Store) (s s' : State) (t : CommitTree) :
  let rootID := summary_rootID profilingSummary in
  getCommitTree fuel commitIndex profilingSummary store s = (OK t, s') →
  commitTrees_of rootID s' !! commitIndex = Some t ∧
  (∀ j, j ≤ commitIndex → is_Some (commitTrees_of rootID s' !! j)) ∧
  (∀ j tj, commitTrees_of rootID s !! j = Some tj →
     commitTrees_of rootID s' !! j = Some tj) ∧
  length (commitTrees_of rootID s') =
    length (commitTrees_of rootID s) `max` S commitIndex.
Proof.
  intros rootID Hrun.
  pose proof (getCommitTree_OK _ _ _ _ _ _ _ Hrun) as [Hentry Hlength].
  destruct (framedC_getCommitTree 0 0 fuel commitIndex profilingSummary
              store s) as (_ & Hext & _); [lia | lia |].
  rewrite Hrun in Hext. simpl in Hext.
  split; [done|]. split; [|split; [|done]].
  - intros j Hj. apply lookup_lt_is_Some. fold rootID in Hlength. lia.
  - intros j tj Htj. by eapply extends_commitTrees_of.
Qed.

(** A computation on the cache that leaves the arrays of the roots
    other than [rootID] as they are. *)
Lemma getCommitTree_other_roots fuel commitIndex profilingSummary store s
    rootID' :
  rootID' ≠ summary_rootID profilingSummary →
  rootToCommitTreeMap
    (getCommitTree fuel commitIndex profilingSummary store s).2 !! rootID'
  = rootToCommitTreeMap s !! rootID'.
Proof.
  intros Hne. set (rootID := summary_rootID profilingSummary) in *.
  assert (∀ s0, rootToCommitTreeMap (ensure_entry rootID s0).2 !! rootID'
                = rootToCommitTreeMap s0 !! rootID') as Hensure.
  { intros s0. unfold ensure_entry.
    destruct (rootToCommitTreeMap s0 !! rootID); simpl; [done|].
    by rewrite lookup_insert_ne. }
  assert (∀ index previous s0,
            rootToCommitTreeMap
              (update_and_push store rootID index previous s0).2 !! rootID'
            = rootToCommitTreeMap s0 !! rootID') as Hpush.
  { intros index previous s0. unfold update_and_push.
    destruct (commitOperations_at store rootID index); [|done].
    unfold st_bind, lift_heap.
    destruct (updateTree previous l (heap s0)) as [[t|e] h']; simpl;
      [|done].
    by rewrite lookup_insert_ne. }
  revert s. induction commitIndex as [|k IH]; intros s.
  - destruct (commitTrees_of rootID s !! 0) as [t|] eqn:Hmemo.
    + by rewrite (getCommitTree_memo _ _ _ _ _ _ Hmemo).
    + rewrite getCommitTree_0_unfold by done. fold rootID.
      unfold st_bind at 1. unfold lift_heap at 1. cbn [alloc_map].
      unfold st_bind at 1. unfold lift_heap at 1. cbn [heap].
      destruct (recursivelyIniitliazeTree _ _ _ _ _ _ _) as [[[]|e] h1];
        cbn [snd rootToCommitTreeMap]; [|apply Hensure].
      rewrite Hpush. apply Hensure.
  - destruct (commitTrees_of rootID s !! S k) as [t|] eqn:Hmemo.
    + by rewrite (getCommitTree_memo _ _ _ _ _ _ Hmemo).
    + rewrite getCommitTree_S_unfold by done. fold rootID.
      unfold st_bind. specialize (IH s).
      destruct (getCommitTree fuel k profilingSummary store s)
        as [[previous|e] s1]; simpl in IH |- *; [|done].
      by rewrite Hpush.
Qed.

(** X15. Timelines do not interfere: a call for a root leaves the array
    of every other root as it is, and the maps and nodes of its trees
    as they are. *)
Theorem getCommitTree_leaves_other_roots
    (fuel commitIndex : nat) (profilingSummary : ProfilingSummary)
    (store : Store) (s : State) (rootID' : N) :
  let s' := (getCommitTree fuel commitIndex profilingSummary store s).2 in
  rootID' ≠ summary_rootID profilingSummary →
  commitTrees_of rootID' s' = commitTrees_of rootID' s ∧
  (∀ l m, maps (heap s) !! l = Some m → maps (heap s') !! l = Some m) ∧
  (∀ l node,
     objs (heap s) !! l = Some node → objs (heap s') !! l = Some node).
Proof.
  intros s' Hne. split.
  - unfold commitTrees_of. subst s'.
    by rewrite getCommitTree_other_roots.
  - destruct (framedC_getCommitTree (length (objs (heap s)))
                (length (maps (heap s))) fuel commitIndex profilingSummary
                store s) as (Hkeep & _); [done | done |].
    apply keeps_all in Hkeep as [Hobjs Hmaps]. by split.
Qed.

Lemma updateTree_allocates commitTree operations h t h' :
  updateTree commitTree operations h = (OK t, h') →
  nodes t = length (maps h) ∧ length (maps h) < length (maps h').
Proof.
  intros Hrun. pose proof Hrun as Hok.
  apply updateTree_OK in Hok as (_ & Hnodes & _). split; [done|].
  rewrite updateTree_loopStart in Hrun.
  apply st_bind_inv_OK in Hrun as ([[ns stringTable] i] & h1 & Hstart & Hrun).
  apply loopStart_inv in Hstart as (previous & _ & -> & ->).
  apply st_bind_inv_OK in Hrun as ([] & h2 & Hloop & Hrun).
  injection Hrun as _ <-. cbn [fst snd] in Hloop.
  destruct (framed_operationsLoop 0 0 (λ _, True) (λ _ _, I)
              (S (length operations)) (length (maps h)) stringTable
              operations i (Nat.le_0_l _) (or_introl I)
              {| objs := objs h; maps := maps h ++ [previous] |})
    as [(_ & Hgrow & _) _]; [simpl; lia | simpl; lia |].
  rewrite Hloop in Hgrow. simpl in Hgrow. rewrite length_app in Hgrow.
  simpl in Hgrow. lia.
Qed.

(** A tree that is computed, not taken from the array, has a map that
    the call allocated. *)
Lemma getCommitTree_fresh_map fuel commitIndex profilingSummary store s t
    s' :
  commitTrees_of (summary_rootID profilingSummary) s !! commitIndex = None →
  getCommitTree fuel commitIndex profilingSummary store s = (OK t, s') →
  length (maps (heap s)) ≤ nodes t < length (maps (heap s')).
Proof.
  intros Hmemo Hrun.
  assert (∀ index previous s0 s1,
            length (maps (heap s)) ≤ length (maps (heap s0)) →
            update_and_push store (summary_rootID profilingSummary) index
              previous s0 = (OK t, s1) →
            length (maps (heap s)) ≤ nodes t < length (maps (heap s1)))
    as Hpush.
  { intros index previous s0 s1 Hle Hpush.
    apply update_and_push_OK in Hpush as (operations & _ & Hupdate & _).
    apply updateTree_allocates in Hupdate as [Hnodes Hgrow]. lia. }
  destruct commitIndex as [|k].
  - rewrite getCommitTree_0_unfold in Hrun by done.
    apply st_bind_inv_OK in Hrun as (ns & s1 & Halloc & Hrun).
    apply st_bind_inv_OK in Hrun as ([] & s2 & Hinit & Hrun).
    apply lift_heap_inv in Halloc as [Halloc _].
    apply lift_heap_inv in Hinit as [Hinit _].
    injection Halloc as _ Hheap1. rewrite heap_ensure in Hheap1.
    destruct (framed_recursivelyIniitliazeTree 0 0 fuel
                (summary_rootID profilingSummary) 0%N ns
                (initialTreeBaseDurations profilingSummary) store
                (Nat.le_0_l _) (heap s1)) as [(_ & Hgrow & _) _];
      [lia | lia |].
    rewrite Hinit in Hgrow. simpl in Hgrow.
    eapply Hpush; [|done]. rewrite <- Hheap1 in Hgrow. simpl in Hgrow.
    rewrite length_app in Hgrow. lia.
  - rewrite getCommitTree_S_unfold in Hrun by done.
    apply st_bind_inv_OK in Hrun as (previous & s1 & Hprevious & Hrun).
    destruct (framedC_getCommitTree 0 0 fuel k profilingSummary store s)
      as ((_ & Hgrow & _) & _); [lia | lia |].
    rewrite Hprevious in Hgrow. simpl in Hgrow.
    by eapply Hpush.
Qed.

End CacheFacts.

Section CacheCommands.
Context `{Imports}.
Local Open Scope nat_scope.

(** X16. After [invalidateCommitTrees] every array is empty, and a tree
    that a later call returns is computed anew: its map is one that did
    not exist when the cache was emptied. The maps and nodes that
    existed then, those of the trees returned before among them, are
    what they were. *)
Theorem invalidateCommitTrees_forces_recomputation
    (fuel commitIndex : nat) (profilingSummary : ProfilingSummary)
    (store : Store) (s s' : State) (t : CommitTree) :
  getCommitTree fuel commitIndex profilingSummary store
    (invalidateCommitTrees s).2 = (OK t, s') →
  (∀ rootID, commitTrees_of rootID (invalidateCommitTrees s).2 = []) ∧
  maps (heap s) !! nodes t = None ∧
  is_Some (maps (heap s') !! nodes t) ∧
  (∀ l m, maps (heap s) !! l = Some m → maps (heap s') !! l = Some m) ∧
  (∀ l node,
     objs (heap s) !! l = Some node → objs (heap s') !! l = Some node).
Proof.
  intros Hrun. split; [done|].
  assert (commitTrees_of (summary_rootID profilingSummary)
            (invalidateCommitTrees s).2 !! commitIndex = None) as Hmemo
    by done.
  pose proof (getCommitTree_fresh_map _ _ _ _ _ _ _ Hmemo Hrun)
    as [Hfresh Halloc]. simpl in Hfresh.
  split; [by apply lookup_ge_None|].
  split; [by apply lookup_lt_is_Some|].
  destruct (framedC_getCommitTree (length (objs (heap s)))
              (length (maps (heap s))) fuel commitIndex profilingSummary
              store (invalidateCommitTrees s).2) as (Hkeep & _);
    [done | done |].
  rewrite Hrun in Hkeep. simpl in Hkeep.
  apply keeps_all in Hkeep as [Hobjs Hmaps]. by split.
Qed.

Lemma runCommands_keeps bo bm commands s :
  bo ≤ length (objs (heap s)) → bm ≤ length (maps (heap s)) →
  keeps bo bm (heap s) (heap (runCommands commands s)).
Proof.
  revert s.
  induction commands as [|[fuel index summary store|] commands IH];
    intros s Ho Hm; simpl.
  - apply keeps_refl.
  - destruct (framedC_getCommitTree bo bm fuel index summary store s Ho Hm)
      as (Hkeep & _).
    pose proof Hkeep as (Ho1 & Hm1 & _ & _).
    eapply keeps_trans; [exact Hkeep|]. apply IH; lia.
  - by apply (IH (invalidateCommitTrees s).2).
Qed.

(** X17. A [CommitTree] never changes once it exists: whatever calls of
    [getCommitTree] and [invalidateCommitTrees] follow, with whatever
    arguments, every map and every [Node] object of the heap is
    afterwards what it was. *)
Theorem commitTrees_are_immutable (commands : list command) (s : State) :
  let s' := runCommands commands s in
  (∀ l m, maps (heap s) !! l = Some m → maps (heap s') !! l = Some m) ∧
  (∀ l node,
     objs (heap s) !! l = Some node → objs (heap s') !! l = Some node).
Proof.
  intros s'.
  destruct (keeps_all (heap s) (heap s')) as [Hobjs Hmaps]; [|by split].
  by apply runCommands_keeps.
Qed.

Lemma forEach_ext {S A} (f g : A → ST S unit) (l : list A) s :
  (∀ x s0, f x s0 = g x s0) → forEach f l s = forEach g l s.
Proof.
  intros Hfg. revert s. induction l as [|x l IH]; intros s; simpl; [done|].
  unfold st_bind. rewrite Hfg. by destruct (g x s) as [[[]|e] s1].
Qed.

Lemma recursivelyIniitliazeTree_data store store' fuel :
  profilingData_of store = profilingData_of store' →
  ∀ id parentID ns durations h,
    recursivelyIniitliazeTree fuel id parentID ns durations store h
    = recursivelyIniitliazeTree fuel id parentID ns durations store' h.
Proof.
  intros Hdata. induction fuel as [|fuel IH];
    intros id parentID ns durations h; simpl; rewrite Hdata; [done|].
  destruct (_ !! id) as [node|]; [|done].
  unfold st_bind.
  destruct (alloc_node _ h) as [[object|e] h1]; [|done].
  destruct (map_set ns (Some id) object h1) as [[[]|e] h2]; [|done].
  apply forEach_ext. intros childID h3. apply IH.
Qed.

Lemma getCommitTree_data store store' fuel commitIndex profilingSummary s :
  profilingData_of store = profilingData_of store' →
  getCommitTree fuel commitIndex profilingSummary store s
  = getCommitTree fuel commitIndex profilingSummary store' s.
Proof.
  intros Hdata.
  assert (∀ rootID index previous s0,
            update_and_push store rootID index previous s0
            = update_and_push store' rootID index previous s0) as Hpush.
  { intros. unfold update_and_push, commitOperations_at.
    by rewrite Hdata. }
  revert s. induction commitIndex as [|k IH]; intros s; simpl.
  - unfold st_bind.
    destruct (ensure_entry _ s) as [[[]|e] s0]; [|done].
    destruct (get_commitTrees _ s0) as [[commitTrees|e] s1]; [|done].
    destruct (commitTrees !! 0); [done|].
    destruct (lift_heap (alloc_map ∅) s1) as [[ns|e] s2]; [|done].
    unfold lift_heap.
    rewrite (recursivelyIniitliazeTree_data store store' fuel Hdata).
    destruct (recursivelyIniitliazeTree _ _ _ _ _ _ _) as [[[]|e] h3];
      [|done].
    apply Hpush.
  - unfold st_bind.
    destruct (ensure_entry _ s) as [[[]|e] s0]; [|done].
    destruct (get_commitTrees _ s0) as [[commitTrees|e] s1]; [|done].
    destruct (commitTrees !! S k); [done|].
    rewrite IH.
    destruct (getCommitTree fuel k profilingSummary store' s1)
      as [[previous|e] s2]; [|done].
    apply Hpush.
Qed.

(** X18. Imported profiling data takes the place of the store's own:
    when the store has imported data, [getCommitTree] reads the
    operations and the snapshot from it alone, and what the store
    recorded itself changes nothing. *)
Theorem getCommitTree_prefers_imported_data
    (imported own own' : ProfilingData) (fuel commitIndex : nat)
    (profilingSummary : ProfilingSummary) (s : State) :
  getCommitTree fuel commitIndex profilingSummary
    {| importedProfilingData := Some imported; ownProfilingData := own |} s
  = getCommitTree fuel commitIndex profilingSummary
      {| importedProfilingData := Some imported; ownProfilingData := own' |}
      s.
Proof. by apply getCommitTree_data. Qed.

End CacheCommands.

(** ** More on the initial tree *)

Section InitialTreeFacts.
Context `{Imports}.
Local Open Scope nat_scope.
Variable store : Store.
Variable durations : gmap N float.
Variable ns : loc.
Variable top : N.

Local Abbreviation snapshot := (profilingSnapshot (profilingData_of store)).

(** [parentID] is the id the walk started under, or an id of the
    snapshot that has [id] among its children. *)
Let linked (id parentID : N) : Prop :=
  parentID = top ∨
  ∃ parent, snapshot !! parentID = Some parent ∧
            id ∈ snapshot_children parent.

(** The object under an id is made of the snapshot's entry for the id,
    with a parent that is linked to it. *)
Let mirrors (k : word) (_ : loc) (node : Node) : Prop :=
  ∃ id entry parentID,
    k = Some id ∧ snapshot !! id = Some entry ∧ linked id parentID ∧
    node = snapshotObject durations id parentID entry.

Lemma forEach_mirrors (f : N → M unit) (l : list N) :
  (∀ x h h' (m : NodeMap), x ∈ l →
     maps h !! ns = Some m → entries mirrors (objs h) m →
     f x h = (OK tt, h') →
     ∃ m' : NodeMap, maps h' !! ns = Some m' ∧ entries mirrors (objs h') m') →
  ∀ h h' (m : NodeMap),
    maps h !! ns = Some m → entries mirrors (objs h) m →
    forEach f l h = (OK tt, h') →
    ∃ m' : NodeMap, maps h' !! ns = Some m' ∧ entries mirrors (objs h') m'.
Proof.
  induction l as [|x l IH]; intros Hf h h' m Hm Hentries Hrun; simpl in Hrun.
  - injection Hrun as <-. eauto.
  - apply st_bind_inv_OK in Hrun as ([] & h1 & Hx & Hrun).
    destruct (Hf x h h1 m) as (m1 & Hm1 & Hentries1);
      [by left | done | done | done |].
    eapply (IH (λ y h0 h2 m0 Hy, Hf y h0 h2 m0 (list_elem_of_further _ _ _ Hy)));
      done.
Qed.

Lemma recursivelyIniitliazeTree_mirrors fuel :
  ∀ id parentID h h' (m : NodeMap),
    linked id parentID →
    maps h !! ns = Some m → entries mirrors (objs h) m →
    recursivelyIniitliazeTree fuel id parentID ns durations store h
      = (OK tt, h') →
    ∃ m' : NodeMap, maps h' !! ns = Some m' ∧ entries mirrors (objs h') m'.
Proof.
  induction fuel as [|fuel IH];
    intros id parentID h h' m Hlinked Hm Hentries Hrun; simpl in Hrun.
  - destruct (snapshot !! id); [done|]. injection Hrun as <-. eauto.
  - destruct (snapshot !! id) as [entry|] eqn:Hentry.
    2: { injection Hrun as <-. eauto. }
    apply st_bind_inv_OK in Hrun as (object & h1 & Halloc & Hrun).
    injection Halloc as <- <-.
    apply st_bind_inv_OK in Hrun as ([] & h2 & Hset & Hrun).
    rewrite (map_set_Some _ _ m) in Hset by done.
    injection Hset as <-.
    eapply forEach_mirrors; [| | |exact Hrun].
    + intros childID h0 h3 m0 Hchild Hm0 Hentries0 Hcall.
      cbv beta in Hcall. apply (IH childID id h0 h3 m0); [|done..].
      right. by exists entry.
    + simpl. apply list_lookup_insert_eq. by eapply lookup_lt_Some.
    + intros k l Hl. simpl.
      destruct (decide (k = Some id)) as [->|Hne].
      * rewrite lookup_insert_eq in Hl. injection Hl as <-.
        eexists. split; [apply lookup_snoc_length|].
        by exists id, entry, parentID.
      * rewrite lookup_insert_ne in Hl by done.
        destruct (Hentries k l Hl) as (node & Hnode & Hmirror).
        exists node. split; [by apply lookup_app_l_Some | done].
Qed.

(** A call never returns when the id is in the snapshot among its own
    children: nothing records the ids already visited. *)
Lemma forEach_never_returns (f : N → M unit) (l : list N) (x : N) :
  x ∈ l → (∀ h h', f x h ≠ (OK tt, h')) →
  ∀ h h', forEach f l h ≠ (OK tt, h').
Proof.
  intros Hx Hf. induction l as [|y l IH]; [by apply elem_of_nil in Hx|].
  intros h h' Hrun. simpl in Hrun.
  apply st_bind_inv_OK in Hrun as ([] & h1 & Hy & Hrun).
  apply elem_of_cons in Hx as [->|Hx]; [by eapply Hf|].
  by eapply IH.
Qed.

End InitialTreeFacts.

Section InitialTreeTheorems.
Context `{Imports}.
Local Open Scope nat_scope.

(** X19. When [recursivelyIniitliazeTree] returns for a root and an
    empty map, every entry of the map is an id of the snapshot, and its
    node has the children, the display name and the key the snapshot
    has for the id, the duration the table has for it ([undefined] when
    it has none), and as [parentID] either the one the root was given or
    an id of the snapshot that has the node among its children. *)
Theorem recursivelyIniitliazeTree_mirrors_snapshot
    (store : Store) (durations : gmap N float) (fuel : nat)
    (rootID parentID : N) (h h' : Heap) :
  let ns := length (maps h) in
  let snapshot := profilingSnapshot (profilingData_of store) in
  recursivelyIniitliazeTree fuel rootID parentID ns durations store
    {| objs := objs h; maps := maps h ++ [∅] |} = (OK tt, h') →
  ∃ m' : NodeMap,
    maps h' !! ns = Some m' ∧
    ∀ k l, m' !! k = Some l →
      ∃ id entry parent,
        k = Some id ∧ snapshot !! id = Some entry ∧
        (parent = parentID ∨
         ∃ above, snapshot !! parent = Some above ∧
                  id ∈ snapshot_children above) ∧
        objs h' !! l = Some (snapshotObject durations id parent entry).
Proof.
  intros ns snapshot Hrun.
  eapply (recursivelyIniitliazeTree_mirrors store durations ns parentID
            fuel rootID parentID _ h' ∅) in Hrun
    as (m' & Hm' & Hentries);
    [|by left | apply lookup_snoc_length | by intros k l Hl].
  exists m'. split; [done|]. intros k l Hl.
  destruct (Hentries k l Hl)
    as (node & Hnode & id & entry & parent & -> & Hentry & Hlinked & ->).
  by exists id, entry, parent.
Qed.

(** X20. [recursivelyIniitliazeTree] keeps no record of the ids it has
    visited: when an id of the snapshot is among its own children, the
    call for it returns for no bound on the depth of the recursion. *)
Theorem recursivelyIniitliazeTree_loops_on_cycle
    (store : Store) (durations : gmap N float) (ns : loc) (fuel : nat)
    (id parentID : N) (entry : SnapshotNode) (h h' : Heap) :
  profilingSnapshot (profilingData_of store) !! id = Some entry →
  id ∈ snapshot_children entry →
  recursivelyIniitliazeTree fuel id parentID ns durations store h
    ≠ (OK tt, h').
Proof.
  intros Hentry Hself. revert parentID h h'.
  induction fuel as [|fuel IH]; intros parentID h h' Hrun; simpl in Hrun;
    rewrite Hentry in Hrun; [done|].
  apply st_bind_inv_OK in Hrun as (object & h1 & _ & Hrun).
  apply st_bind_inv_OK in Hrun as ([] & h2 & _ & Hrun).
  eapply forEach_never_returns in Hrun; [done | exact Hself |].
  intros h3 h4. apply IH.
Qed.

End InitialTreeTheorems.

(** ** A whole buffer *)

Section WholeBuffer.
Context `{Imports}.

Lemma word_at_app_add (pre post : list N) (k : N) :
  word_at (pre ++ post) (N.of_nat (length pre) + k) = word_at post k.
Proof. unfold word_at. rewrite lookup_app_r by lia. f_equal. lia. Qed.

(** [loopStart] on a buffer whose string table is well formed. *)
Lemma loopStart_entries (previous : NodeMap) (commitTree : CommitTree)
    (entries : list (list N)) (headerA headerB : N) (rest : list N)
    (h : Heap) :
  let table := encodeStringTable entries in
  let operations :=
    headerA :: headerB :: N.of_nat (length table) :: table ++ rest in
  maps h !! nodes commitTree = Some previous →
  loopStart commitTree operations h
  = (OK (length (maps h),
         SNull :: ((λ entry, SString (utfDecodeString entry)) <$> entries),
         Num (3 + N.of_nat (length table))),
     {| objs := objs h; maps := maps h ++ [previous] |}).
Proof.
  intros table operations Hm. unfold loopStart.
  rewrite (st_bind_OK _ _ _ _ _ (read_map_Some _ _ _ Hm)).
  erewrite st_bind_OK; [|reflexivity].
  pose proof (reassemble_entries entries (S (length operations))
                [headerA; headerB; N.of_nat (length table)] rest [SNull])
    as Hrun.
  cbn [app length] in Hrun. fold table in Hrun. fold operations in Hrun.
  replace (N.of_nat (3 + length table)) with (3 + N.of_nat (length table))
    in Hrun by lia.
  change (N.of_nat 3) with 3 in Hrun.
  assert (word_at operations 2 = Some (N.of_nat (length table))) as ->
    by done.
  cbn [num_add_word]. rewrite Hrun; [done|].
  pose proof (encodeStringTable_entries entries) as Hlen.
  subst operations table. simpl. rewrite length_app. lia.
Qed.

(** A reference into the string table of a well-formed buffer. *)
Lemma string_at_entries (entries : list (list N)) (ref : N) :
  string_at
    (SNull :: ((λ entry, SString (utfDecodeString entry)) <$> entries))
    (Some ref)
  = if decide (ref = 0) then SNull
    else match entries !! N.to_nat (ref - 1) with
         | Some entry => SString (utfDecodeString entry)
         | None => SUndefined
         end.
Proof.
  unfold string_at. case_decide as Href; [by subst|].
  replace (N.to_nat ref) with (S (N.to_nat (ref - 1))) by lia.
  simpl. rewrite list_lookup_fmap. by destruct (entries !! _).
Qed.

(** X21. A whole commit. For a buffer made of two header words, a
    well-formed string table and one Add of a child under a node of the
    previous tree, [updateTree] returns a tree whose map is the previous
    one with a copy of the parent that has the child as its last child,
    and the child. The child's name and key are resolved in the table of
    the same buffer: reference 0 is [null], reference [k] is the decoded
    [k]-th entry, and a reference past the table is [undefined]. *)
Theorem updateTree_add_resolves_names
    (previous : NodeMap) (commitTree : CommitTree) (entries : list (list N))
    (headerA headerB fiberID type parent owner nameRef keyRef : N)
    (h : Heap) (lp : loc) (parentNode : Node) (siblings : list word) :
  let table := encodeStringTable entries in
  let operations :=
    headerA :: headerB :: N.of_nat (length table) :: table ++
    [TREE_OPERATION_ADD; fiberID; type; parent; owner; nameRef; keyRef] in
  let resolve := λ ref : N,
    if decide (ref = 0) then SNull
    else match entries !! N.to_nat (ref - 1) with
         | Some entry => SString (utfDecodeString entry)
         | None => SUndefined
         end in
  let node :=
    {| children := Some []; displayName := resolve nameRef;
       id := Some fiberID; key := resolve keyRef; parentID := Some parent;
       treeBaseDuration := Some 0%float |} in
  type ≠ ElementTypeRoot →
  maps h !! nodes commitTree = Some previous →
  previous !! Some fiberID = None →
  previous !! Some parent = Some lp →
  objs h !! lp = Some parentNode →
  children parentNode = Some siblings →
  updateTree commitTree operations h
  = (OK {| nodes := length (maps h); rootID := rootID commitTree |},
     {| objs :=
          objs h ++
          [set_children parentNode (siblings ++ [Some fiberID]); node];
        maps :=
          maps h ++
          [<[Some fiberID := S (length (objs h))]>
             (<[Some parent := length (objs h)]> previous)] |}).
Proof.
  intros table operations resolve node Htype Hm Hfresh Hparent Hobj
    Hsiblings.
  set (tail := [TREE_OPERATION_ADD; fiberID; type; parent; owner; nameRef;
                keyRef]) in operations.
  set (stringTable :=
         SNull :: ((λ entry, SString (utfDecodeString entry)) <$> entries)).
  set (i := 3 + N.of_nat (length table)).
  assert (∀ k, word_at operations (i + k) = word_at tail k) as Hword.
  { intros k. subst operations i.
    change (headerA :: headerB :: N.of_nat (length table) :: table ++ tail)
      with (([headerA; headerB; N.of_nat (length table)] ++ table) ++ tail).
    replace (3 + N.of_nat (length table) + k)
      with (N.of_nat
              (length ([headerA; headerB; N.of_nat (length table)] ++ table))
            + k)
      by (simpl; lia).
    apply word_at_app_add. }
  assert (length operations = (N.to_nat i + 7)%nat) as Hlength.
  { subst operations i. simpl. rewrite length_app. simpl. lia. }
  pose proof (loopStart_entries previous commitTree entries headerA headerB
                tail h Hm) as Hstart.
  eapply (updateTree_returns _ _ _ _ _ _ _ 1%nat); [exact Hstart | |].
  - fold table i stringTable operations. cbn [iterations num_lt].
    rewrite (proj2 (N.ltb_lt _ _)) by lia.
    erewrite st_bind_OK.
    2: { rewrite applyOperation_add
           by (rewrite <- (N.add_0_r i); by rewrite Hword).
         apply (opAdd_child previous) with (lp := lp) (parent := parentNode)
                                           (siblings := siblings).
         - rewrite Hword. intros [= Heq]. done.
         - simpl. apply lookup_snoc_length.
         - by rewrite Hword.
         - by rewrite Hword.
         - done.
         - done. }
    rewrite !Hword. cbn [objs maps]. rewrite insert_snoc_length.
    change (word_at tail 1) with (Some fiberID).
    change (word_at tail 3) with (Some parent).
    change (word_at tail 5) with (Some nameRef).
    change (word_at tail 6) with (Some keyRef).
    subst stringTable. by rewrite !string_at_entries.
  - fold operations. cbn [num_lt]. apply N.ltb_ge. lia.
Qed.

End WholeBuffer.

(** ** The cache stays consistent *)

Section Consistency.
Context `{Imports}.
Local Open Scope nat_scope.

Lemma validTree_keeps h h' r t :
  keeps (length (objs h)) (length (maps h)) h h' →
  validTree h r t → validTree h' r t.
Proof.
  intros Hkeep [Hroot (_ & m & Hm & Hentries)].
  apply keeps_all in Hkeep as [Hobjs Hmaps].
  split; [done|]. split; [lia|]. exists m. split; [by apply Hmaps|].
  intros k l Hl. destruct (Hentries k l Hl) as (node & Hnode & _).
  exists node. split; [by apply Hobjs | done].
Qed.

Lemma consistent_keeps s s' :
  rootToCommitTreeMap s' = rootToCommitTreeMap s →
  keeps (length (objs (heap s))) (length (maps (heap s))) (heap s)
    (heap s') →
  consistent s → consistent s'.
Proof.
  intros Hcache Hkeep Hs r trees j t Htrees Ht. rewrite Hcache in Htrees.
  eapply validTree_keeps; [done|]. by eapply Hs.
Qed.

Lemma consistent_ensure r s :
  consistent s → consistent (ensure_entry r s).2.
Proof.
  intros Hs. unfold ensure_entry.
  destruct (rootToCommitTreeMap s !! r) eqn:Hr; [done|].
  intros r' trees j t Htrees Ht. simpl in Htrees |- *.
  apply lookup_insert_Some in Htrees as [[<- <-]|[_ Htrees]]; [done|].
  by eapply Hs.
Qed.

Lemma consistent_push r t s h' :
  keeps (length (objs (heap s))) (length (maps (heap s))) (heap s) h' →
  consistent s → validTree h' r t →
  consistent
    {| heap := h';
       rootToCommitTreeMap :=
         <[r := commitTrees_of r s ++ [t]]> (rootToCommitTreeMap s) |}.
Proof.
  intros Hkeep Hs Ht r' trees j t' Htrees Ht'. simpl in Htrees |- *.
  apply lookup_insert_Some in Htrees as [[<- <-]|[_ Htrees]].
  - apply lookup_app_Some in Ht' as [Hold|[_ Hnew]].
    + apply commitTrees_of_Some in Hold as (l & Hl & Hj).
      eapply validTree_keeps; [done|]. by eapply Hs.
    + by apply list_lookup_singleton_Some in Hnew as [_ <-].
  - eapply validTree_keeps; [done|]. by eapply Hs.
Qed.

Lemma knownError_mono r commitIndex e :
  knownError r commitIndex e → knownError r (S commitIndex) e.
Proof.
  intros [He|[He|(j & Hj & He)]]; [by left | by right; left |].
  right. right. exists j. split; [lia | done].
Qed.

Lemma update_and_push_consistent store r commitIndex previous s :
  consistent s → validTree (heap s) r previous →
  outcome r commitIndex (update_and_push store r commitIndex previous s).
Proof.
  intros Hs [Hroot (_ & m & Hm & Hentries)]. unfold outcome, update_and_push.
  destruct (commitOperations_at store r commitIndex) as [operations|].
  2: { split; [done|]. right. right. by exists commitIndex. }
  unfold st_bind, lift_heap.
  pose proof (updateTree_filling 0 (length (maps (heap s))) (λ _ _ _, True)
                ltac:(done) ltac:(done) ltac:(done) ltac:(done)
                ltac:(done) m previous operations (heap s)
                (Nat.le_0_l _) eq_refl Hm Hentries) as Hfill.
  destruct (framed_updateTree (length (objs (heap s)))
              (length (maps (heap s))) (λ _, True) previous operations
              (λ _ _, I) (heap s)) as [Hkeep Hres]; [done | done |].
  destruct (updateTree previous operations (heap s)) as [[t|e] h'];
    simpl in Hkeep, Hres, Hfill |- *.
  - destruct Hfill as [Hnodes Hinv]. destruct Hres as [Hroot' _].
    assert (validTree h' r t) as Ht.
    { split; [congruence|]. by rewrite Hnodes. }
    split; [|done]. by apply (consistent_push r t s h').
  - destruct Hfill as [He _]. split; [|by left].
    by apply (consistent_keeps s).
Qed.

Lemma forEach_filling {A} ns (f : A → M unit) (l : list A) h :
  (∀ x h0, filling 0 ns (λ _ _ _, True) h0 →
     match f x h0 with
     | (OK _, h1) => filling 0 ns (λ _ _ _, True) h1
     | (Throw e, _) => e = OutOfFuel
     end) →
  filling 0 ns (λ _ _ _, True) h →
  match forEach f l h with
  | (OK _, h') => filling 0 ns (λ _ _ _, True) h'
  | (Throw e, _) => e = OutOfFuel
  end.
Proof.
  intros Hf. revert h. induction l as [|x l IH]; intros h Hh; simpl; [done|].
  unfold st_bind. specialize (Hf x h Hh).
  destruct (f x h) as [[[]|e] h1]; [|done]. by apply IH.
Qed.

(** The walk of the snapshot fills a map whose ids refer to objects of
    the heap, and throws nothing but for its depth. *)
Lemma recursivelyIniitliazeTree_filling fuel ns durations store :
  ∀ id parentID h,
    filling 0 ns (λ _ _ _, True) h →
    match recursivelyIniitliazeTree fuel id parentID ns durations store h
    with
    | (OK _, h') => filling 0 ns (λ _ _ _, True) h'
    | (Throw e, _) => e = OutOfFuel
    end.
Proof.
  induction fuel as [|fuel IH]; intros id parentID h Hh; simpl.
  - by destruct (_ !! id).
  - destruct (_ !! id) as [entry|]; [|done].
    destruct Hh as (_ & m & Hm & Hentries).
    erewrite st_bind_OK; [|reflexivity].
    erewrite st_bind_OK; [|by apply map_set_Some].
    apply forEach_filling; [intros childID h0 Hh0; by apply IH|].
    split; [lia|]. exists (<[Some id := length (objs h)]> m). split.
    + simpl. apply list_lookup_insert_eq. by eapply lookup_lt_Some.
    + intros k l Hl. simpl. destruct (decide (k = Some id)) as [->|Hne].
      * rewrite lookup_insert_eq in Hl. injection Hl as <-.
        eexists. split; [apply lookup_snoc_length | done].
      * rewrite lookup_insert_ne in Hl by done.
        destruct (Hentries k l Hl) as (node & Hnode & _).
        exists node. split; [by apply lookup_app_l_Some | done].
Qed.

Lemma getCommitTree_consistent fuel commitIndex profilingSummary store :
  ∀ s,
    consistent s →
    outcome (summary_rootID profilingSummary) commitIndex
      (getCommitTree fuel commitIndex profilingSummary store s).
Proof.
  set (r := summary_rootID profilingSummary).
  induction commitIndex as [|k IH]; intros s Hs.
  - destruct (commitTrees_of r s !! 0) as [t|] eqn:Hmemo.
    + rewrite (getCommitTree_memo _ _ _ _ _ _ Hmemo). split; [done|].
      simpl. apply commitTrees_of_Some in Hmemo as (l & Hl & Ht).
      by eapply Hs.
    + rewrite getCommitTree_0_unfold by done. fold r.
      pose proof (consistent_ensure r s Hs) as Hs0.
      set (s0 := (ensure_entry r s).2) in *.
      set (h1 := {| objs := objs (heap s0);
                    maps := maps (heap s0) ++ [∅] |}).
      unfold st_bind at 1. unfold lift_heap at 1. cbn [alloc_map].
      unfold st_bind at 1. unfold lift_heap at 1. cbn [heap]. fold h1.
      assert (keeps (length (objs (heap s0))) (length (maps (heap s0)))
                (heap s0) h1) as Hkeep1.
      { repeat split; simpl; rewrite ?length_app; try lia.
        intros l Hl. apply lookup_app_l. lia. }
      pose proof (recursivelyIniitliazeTree_filling fuel
                    (length (maps (heap s0)))
                    (initialTreeBaseDurations profilingSummary) store r 0%N
                    h1) as Hinit.
      destruct (framed_recursivelyIniitliazeTree
                  (length (objs (heap s0))) (length (maps (heap s0))) fuel
                  r 0%N (length (maps (heap s0)))
                  (initialTreeBaseDurations profilingSummary) store
                  (Nat.le_refl _) h1) as [Hkeep2 _];
        [done | simpl; rewrite length_app; lia |].
      destruct (recursivelyIniitliazeTree _ _ _ _ _ _ h1) as [[[]|e] h2];
        simpl in Hkeep2.
      * apply update_and_push_consistent.
        -- eapply (consistent_keeps s0); [done | | done].
           by eapply keeps_trans.
        -- split; [done|]. apply Hinit. split; [lia|]. exists ∅.
           split; [apply lookup_snoc_length | by intros k l Hl].
      * split.
        -- eapply (consistent_keeps s0); [done | | done].
           by eapply keeps_trans.
        -- right. left. apply Hinit. split; [lia|]. exists ∅.
           split; [apply lookup_snoc_length | by intros k l Hl].
  - destruct (commitTrees_of r s !! S k) as [t|] eqn:Hmemo.
    + rewrite (getCommitTree_memo _ _ _ _ _ _ Hmemo). split; [done|].
      simpl. apply commitTrees_of_Some in Hmemo as (l & Hl & Ht).
      by eapply Hs.
    + rewrite getCommitTree_S_unfold by done. fold r. unfold st_bind.
      destruct (IH s Hs) as [Hs1 Hres].
      destruct (getCommitTree fuel k profilingSummary store s)
        as [[previous|e] s1]; simpl in Hs1, Hres.
      * by apply update_and_push_consistent.
      * split; [done|]. by apply knownError_mono.
Qed.

(** X22. The cache is consistent when every tree of an array is filed
    under its own [rootID] and refers to a map of the heap whose ids
    refer to objects of the heap. Calls of [getCommitTree] and
    [invalidateCommitTrees], whatever they return or throw, keep a
    consistent cache consistent. *)
Theorem commitTrees_stay_consistent (commands : list command) (s : State) :
  consistent s → consistent (runCommands commands s).
Proof.
  revert s.
  induction commands as [|[fuel index summary store|] commands IH];
    intros s Hs; simpl.
  - done.
  - apply IH. by apply getCommitTree_consistent.
  - apply (IH (invalidateCommitTrees s).2).
    intros r trees j t Htrees. simpl in Htrees.
    by rewrite lookup_empty in Htrees.
Qed.

(** X23. From a consistent cache [getCommitTree] returns a tree of the
    root it was asked for, whose map is in the heap with ids that refer
    to objects of the heap; what it throws is an error of [updateTree],
    [UnableToReconstruct] for the root and a commit up to the one asked
    for, or the walk of the snapshot passing its bound. *)
Theorem getCommitTree_throws_known_errors
    (fuel commitIndex : nat) (profilingSummary : ProfilingSummary)
    (store : Store) (s : State) :
  consistent s →
  match getCommitTree fuel commitIndex profilingSummary store s with
  | (OK t, s') =>
      rootID t = summary_rootID profilingSummary ∧
      ∃ m : NodeMap,
        maps (heap s') !! nodes t = Some m ∧
        ∀ k l, m !! k = Some l → is_Some (objs (heap s') !! l)
  | (Throw e, _) =>
      knownError (summary_rootID profilingSummary) commitIndex e
  end.
Proof.
  intros Hs.
  destruct (getCommitTree_consistent fuel commitIndex profilingSummary
              store s Hs) as [_ Hres].
  destruct (getCommitTree fuel commitIndex profilingSummary store s)
    as [[t|e] s']; simpl in Hres; [|done].
  destruct Hres as [Hroot (_ & m & Hm & Hentries)].
  split; [done|]. exists m. split; [done|]. intros k l Hl.
  destruct (Hentries k l Hl) as (node & Hnode & _). by eexists.
Qed.

End Consistency.

(** * The concrete instance *)

Section Examples.
#[local] Existing Instance exampleImports.

(** C3: an unknown opcode as the first operation. *)
Lemma updateTree_failure_is_whole_witness :
  updateTree exampleTree [0; 0; 0; 9] exampleHeap
  = (Throw (UnsupportedBridgeOperation (Some 9)), exampleStart).
Proof.
  refine (proj2 (updateTree_failure_is_whole exampleTree [0; 0; 0; 9]
                   exampleHeap 1%nat [SNull] (Num 3) exampleStart 0%nat 3
                   exampleStart _ _ _) _ _ _ _).
  - vm_compute. reflexivity.
  - reflexivity.
  - vm_compute. reflexivity.
  - vm_compute. discriminate.
  - vm_compute. discriminate.
  - vm_compute. discriminate.
  - vm_compute. discriminate.
Defined.

(** C6: an Add of fiber 2, which the tree has. *)
Lemma add_duplicate_throws_witness :
  updateTree exampleTree [0; 0; 0; 1; 2; 5; 1; 0; 0; 0] exampleHeap
  = (Throw (AlreadyContainsFiber (Some 2)), exampleStart).
Proof.
  refine (proj1 (add_duplicate_throws exampleTree
                   [0; 0; 0; 1; 2; 5; 1; 0; 0; 0] exampleHeap 1%nat [SNull]
                   (Num 3) exampleStart 0%nat 3 exampleStart exampleMap
                   _ _ _ _ _)).
  - vm_compute. reflexivity.
  - reflexivity.
  - reflexivity.
  - reflexivity.
  - exists 1%nat. vm_compute. reflexivity.
Defined.


(** Commit 1 removes fiber 2 and then fiber 99, which the tree never
    had; commit 0 is still served afterwards. *)
Lemma remove_unknown_fiber_throws_witness :
  let store := exampleStore (Some [[]; [0; 0; 0; 2; 2; 2; 99]]) in
  let hj := (removeLoop 1 1%nat [0; 0; 0; 2; 2; 2; 99] 5 exampleStart).2 in
  let s' :=
    {| heap := hj; rootToCommitTreeMap := rootToCommitTreeMap exampleState |}
  in
  getCommitTree 0 1 exampleSummary store exampleState
  = (Throw (DoesNotContainFiber (Some 99)), s') ∧
  getCommitTree 0 0 exampleSummary store s' = (OK exampleTree, s').
Proof.
  intros store hj s'.
  pose proof (remove_unknown_fiber_throws
                (default ∅ (maps hj !! 1%nat)) 0 0 exampleSummary store
                exampleState exampleState exampleTree
                [0; 0; 0; 2; 2; 2; 99] 1%nat [SNull] (Num 3) exampleStart
                0 3 exampleStart 2 1 6 hj)
    as Hthrows.
  destruct Hthrows as (_ & _ & Hcall & _ & _ & Hserved).
  - vm_compute. reflexivity.
  - reflexivity.
  - reflexivity.
  - vm_compute. reflexivity.
  - reflexivity.
  - reflexivity.
  - vm_compute. discriminate.
  - reflexivity.
  - vm_compute. lia.
  - vm_compute. reflexivity.
  - vm_compute. reflexivity.
  - vm_compute. reflexivity.
  - split; [exact Hcall|]. apply Hserved. reflexivity.
Defined.

(** C2 on [duplicateStore]: commit 1 throws what commit 0 throws. *)
Lemma getCommitTree_sequencing_witness :
  commitTrees_of 1 emptyState !! 1%nat = None ∧
  getCommitTree 5 1 exampleSummary duplicateStore emptyState
  = (Throw (AlreadyContainsFiber (Some 1)),
     (getCommitTree 5 0 exampleSummary duplicateStore emptyState).2).
Proof.
  split; [reflexivity|].
  apply (proj1 (getCommitTree_sequencing 5 0 exampleSummary duplicateStore
                  emptyState eq_refl)).
  vm_compute. reflexivity.
Defined.

(** C2 as stated fails: the call for commit 0 throws
    [AlreadyContainsFiber] and so does the call for commit 1, where the
    claim has [UnableToReconstruct]. *)
Lemma getCommitTree_propagates_any_error :
  (getCommitTree 5 0 exampleSummary duplicateStore emptyState).1
  = Throw (AlreadyContainsFiber (Some 1)) ∧
  (getCommitTree 5 1 exampleSummary duplicateStore emptyState).1
  = Throw (AlreadyContainsFiber (Some 1)) ∧
  ∀ rootID commitIndex,
    (getCommitTree 5 1 exampleSummary duplicateStore emptyState).1
    ≠ Throw (UnableToReconstruct rootID commitIndex).
Proof.
  assert ((getCommitTree 5 1 exampleSummary duplicateStore emptyState).1
          = Throw (AlreadyContainsFiber (Some 1))) as Hone
    by (vm_compute; reflexivity).
  split; [vm_compute; reflexivity|]. split; [exact Hone|].
  intros rootID commitIndex. rewrite Hone. discriminate.
Qed.

(** C4 on [twoCommitsStore]: commit 0, then commit 1, then commit 0
    again with a store that has no operations. *)
Lemma getCommitTree_memoized_witness :
  let t := {| nodes := 1%nat; rootID := 1 |} in
  let s1 := (getCommitTree 5 0 exampleSummary twoCommitsStore emptyState).2 in
  let s2 := runCalls [(5%nat, 1%nat, exampleSummary, twoCommitsStore)] s1 in
  getCommitTree 5 0 exampleSummary twoCommitsStore emptyState = (OK t, s1) ∧
  getCommitTree 0 0 exampleSummary (exampleStore None) s2 = (OK t, s2).
Proof.
  intros t s1 s2.
  assert (getCommitTree 5 0 exampleSummary twoCommitsStore emptyState
          = (OK t, s1)) as Hfirst by (vm_compute; reflexivity).
  split; [exact Hfirst|].
  exact (proj1 (getCommitTree_memoized 5 0 exampleSummary twoCommitsStore
                  emptyState s1 t
                  [(5%nat, 1%nat, exampleSummary, twoCommitsStore)] 0
                  exampleSummary (exampleStore None) Hfirst eq_refl)).
Defined.

(** C8 as stated fails. A table of size 1 whose only word announces
    five code units that are not there, and an Add of a root cut before
    its two flag words: [updateTree] returns a tree for both. *)
Lemma updateTree_accepts_malformed :
  (∀ entries, encodeStringTable entries ≠ [5]) ∧
  (updateTree exampleTree [0; 0; 1; 5] exampleHeap).1
  = OK {| nodes := 1%nat; rootID := 1 |} ∧
  (updateTree exampleTree [0; 0; 0; 1; 7; 8] exampleHeap).1
  = OK {| nodes := 1%nat; rootID := 1 |}.
Proof.
  split; [|split; vm_compute; reflexivity].
  intros [|entry entries]; simpl; [discriminate|].
  intros [= Hsize Hrest]. apply app_eq_nil in Hrest as [-> _].
  discriminate.
Qed.

(** C9 as stated fails: no operations are recorded for root 1, and the
    call for commit 0 throws. *)
Lemma getCommitTree_first_needs_operations :
  (getCommitTree 5 0 exampleSummary (exampleStore None) emptyState).1
  = Throw (UnableToReconstruct 1 0).
Proof. vm_compute. reflexivity. Qed.

(** C9 without operations and with the operations of
    [twoCommitsStore]. *)
Lemma getCommitTree_first_witness :
  getCommitTree 5 0 exampleSummary (exampleStore None) emptyState
  = (Throw (UnableToReconstruct 1 0),
     (getCommitTree 5 0 exampleSummary (exampleStore None) emptyState).2) ∧
  getCommitTree 5 0 exampleSummary twoCommitsStore emptyState
  = (OK {| nodes := 1%nat; rootID := 1 |},
     (getCommitTree 5 0 exampleSummary twoCommitsStore emptyState).2).
Proof.
  assert (∀ commitOperations id node child,
            profilingSnapshot
              (profilingData_of (exampleStore commitOperations)) !! id
              = Some node →
            child ∈ snapshot_children node → (0 < 0)%nat) as Hrank.
  { intros commitOperations id node child Hnode Hchild. simpl in Hnode.
    apply lookup_insert_Some in Hnode as [[_ <-]|[_ Hnode]].
    - by apply elem_of_nil in Hchild.
    - by rewrite lookup_empty in Hnode. }
  split.
  - destruct (getCommitTree_first (λ _, 0%nat) 5 exampleSummary
                (exampleStore None) emptyState (Hrank None))
      as (h0 & m0 & Hinit & _ & _ & _ & Hnone & _);
      [simpl; lia | reflexivity |].
    destruct (Hnone eq_refl) as [Hcall _]. rewrite Hcall. f_equal.
  - destruct (getCommitTree_first (λ _, 0%nat) 5 exampleSummary
                twoCommitsStore emptyState (Hrank _))
      as (h0 & m0 & Hinit & _ & _ & _ & _ & Hsome);
      [simpl; lia | reflexivity |].
    destruct (Hsome [0; 0; 0; 4; 1; 1000] eq_refl) as [Hok _].
    injection Hinit as <-.
    erewrite Hok; [|vm_compute; reflexivity].
    vm_compute. reflexivity.
Defined.

(** C10. A Remove of fiber 2 and then of the root 1, whose [parentID]
    0 is the id of no node: the second round does not pass over the
    missing parent. [getClonedNode] registers an object without
    properties under 0, the [null] test lets it through, and the call of
    [filter] on its missing [children] throws [TypeError]; the map that
    was being filled holds 0 and nothing else. *)
Theorem remove_root_throws_TypeError :
  let result := updateTree exampleTree [0; 0; 0; 2; 2; 2; 1] exampleHeap in
  result.1 = Throw TypeError ∧
  maps result.2 !! 1%nat = Some (<[Some 0 := 5%nat]> ∅) ∧
  objs result.2 !! 5%nat = Some emptyObject.
Proof. vm_compute. repeat split; reflexivity. Qed.

(** The two entries of [exampleMap]. *)
Lemma exampleMap_entries (k : word) (l : loc) :
  exampleMap !! k = Some l →
  (k = Some 1 ∧ l = 0%nat) ∨ (k = Some 2 ∧ l = 1%nat).
Proof.
  unfold exampleMap. intros Hl.
  apply lookup_insert_Some in Hl as [[<- <-]|[_ Hl]]; [by left|].
  apply lookup_insert_Some in Hl as [[<- <-]|[_ Hl]]; [by right|].
  by rewrite lookup_empty in Hl.
Qed.

(** X1: an Add of the root 5. *)
Lemma add_root_inserts_witness :
  applyOperation 1%nat [SNull] [0; 0; 0; 1; 5; 8; 0; 0] 3 exampleStart
  = (OK (Num 8),
     {| objs :=
          [exampleRoot; exampleChild;
           {| children := Some []; displayName := SNull; id := Some 5;
              key := SNull; parentID := Some 0;
              treeBaseDuration := Some 0%float |}];
        maps := [exampleMap; <[Some 5 := 2%nat]> exampleMap] |}).
Proof.
  refine (add_root_inserts exampleMap 1%nat [SNull]
            [0; 0; 0; 1; 5; 8; 0; 0] 3 exampleStart _ _ _ _); reflexivity.
Defined.

(** X2: an Add of fiber 3 under the root 1, with a name and a key. *)
Lemma add_child_appends_witness :
  applyOperation 1%nat [SNull; SString "App"; SString "k"]
    [0; 0; 0; 1; 3; 5; 1; 0; 1; 2] 3 exampleStart
  = (OK (Num 10),
     {| objs :=
          [exampleRoot; exampleChild;
           set_children exampleRoot [Some 2; Some 3];
           {| children := Some []; displayName := SString "App";
              id := Some 3; key := SString "k"; parentID := Some 1;
              treeBaseDuration := Some 0%float |}];
        maps :=
          [exampleMap;
           <[Some 3 := 3%nat]> (<[Some 1 := 2%nat]> exampleMap)] |}).
Proof.
  refine (proj1 (add_child_appends exampleMap 1%nat
                   [SNull; SString "App"; SString "k"]
                   [0; 0; 0; 1; 3; 5; 1; 0; 1; 2] 3 exampleStart 0%nat
                   exampleRoot [Some 2] _ _ _ _ _ _ _)).
  - reflexivity.
  - vm_compute. discriminate.
  - reflexivity.
  - reflexivity.
  - reflexivity.
  - reflexivity.
  - reflexivity.
Defined.

(** X3: an Add of fiber 3 under 7, which the tree does not have. *)
Lemma add_child_of_unknown_parent_throws_witness :
  applyOperation 1%nat [SNull] [0; 0; 0; 1; 3; 5; 7; 0; 0; 0] 3 exampleStart
  = (Throw TypeError,
     {| objs := [exampleRoot; exampleChild; emptyObject];
        maps := [exampleMap; <[Some 7 := 2%nat]> exampleMap] |}).
Proof.
  refine (add_child_of_unknown_parent_throws exampleMap 1%nat [SNull]
            [0; 0; 0; 1; 3; 5; 7; 0; 0; 0] 3 exampleStart _ _ _ _ _).
  - reflexivity.
  - vm_compute. discriminate.
  - reflexivity.
  - reflexivity.
  - reflexivity.
Defined.

(** X4: the round that removes fiber 2 from under the root 1. *)
Lemma removeFiber_detaches_witness :
  removeFiber 1%nat [0; 0; 0; 2; 1; 2] 5 exampleStart
  = (OK 6,
     {| objs :=
          [exampleRoot; exampleChild; exampleChild;
           set_children exampleRoot []];
        maps :=
          [exampleMap; <[Some 1 := 3%nat]> (delete (Some 2) exampleMap)] |}).
Proof.
  refine (removeFiber_detaches exampleMap 1%nat [0; 0; 0; 2; 1; 2] 5
            exampleStart 1%nat 0%nat exampleChild exampleRoot [Some 2]
            _ _ _ _ _ _); reflexivity.
Defined.


(** X6: a ReorderChildren of the root 1 that announces five children
    where the buffer has one. *)
Lemma reorderChildren_replaces_witness :
  applyOperation 1%nat [SNull] [0; 0; 0; 3; 1; 5; 7] 3 exampleStart
  = (OK (Num 11),
     {| objs :=
          [exampleRoot; exampleChild; set_children exampleRoot [Some 7]];
        maps := [exampleMap; <[Some 1 := 2%nat]> exampleMap] |}).
Proof.
  refine (proj1 (reorderChildren_replaces exampleMap 1%nat [SNull]
                   [0; 0; 0; 3; 1; 5; 7] 3 exampleStart exampleRoot
                   _ _ _ _ _)).
  - reflexivity.
  - vm_compute. discriminate.
  - vm_compute. discriminate.
  - reflexivity.
  - reflexivity.
Defined.

(** X7: an UpdateTreeBaseDuration of fiber 9, which the tree does not
    have, in a buffer that ends before the duration. *)
Lemma updateTreeBaseDuration_of_unknown_registers_witness :
  applyOperation 1%nat [SNull] [0; 0; 0; 4; 9] 3 exampleStart
  = (OK (Num 6),
     {| objs :=
          [exampleRoot; exampleChild;
           set_treeBaseDuration emptyObject PrimFloat.nan];
        maps := [exampleMap; <[Some 9 := 2%nat]> exampleMap] |}).
Proof.
  refine (proj1 (updateTreeBaseDuration_of_unknown_registers exampleMap
                   1%nat [SNull] [0; 0; 0; 4; 9] 3 exampleStart
                   _ _ _ _ _ _)).
  - reflexivity.
  - vm_compute. discriminate.
  - vm_compute. discriminate.
  - vm_compute. discriminate.
  - reflexivity.
  - reflexivity.
Defined.

(** X8: a Remove of fiber 2 and of the root 1. *)
Lemma updateTree_throws_source_errors_witness :
  match updateTree exampleTree [0; 0; 0; 2; 2; 2; 1] exampleHeap with
  | (OK t, h') =>
      ∃ m' : NodeMap,
        maps h' !! nodes t = Some m' ∧
        ∀ k l, m' !! k = Some l → is_Some (objs h' !! l)
  | (Throw e, _) => sourceError e
  end.
Proof.
  refine (updateTree_throws_source_errors exampleMap exampleTree
            [0; 0; 0; 2; 2; 2; 1] exampleHeap _ _).
  - reflexivity.
  - intros k l Hl.
    destruct (exampleMap_entries k l Hl) as [[-> ->]|[-> ->]]; by eexists.
Defined.

(** X9: an UpdateTreeBaseDuration of fiber 2; the root is shared. *)
Lemma updateTree_shares_untouched_nodes_witness :
  let h' := (updateTree exampleTree [0; 0; 0; 4; 2; 2500] exampleHeap).2 in
  ∃ m' : NodeMap,
    maps h' !! 1%nat = Some m' ∧
    ∀ k l, m' !! k = Some l →
      (2 ≤ l ∧ l < length (objs h'))%nat ∨
      (exampleMap !! k = Some l ∧ objs h' !! l = objs exampleHeap !! l).
Proof.
  intros h'.
  refine (updateTree_shares_untouched_nodes exampleMap exampleTree
            [0; 0; 0; 4; 2; 2500] exampleHeap
            {| nodes := 1%nat; rootID := 1 |} h' _ _ _).
  - reflexivity.
  - intros k l Hl.
    destruct (exampleMap_entries k l Hl) as [[-> ->]|[-> ->]]; by eexists.
  - vm_compute. reflexivity.
Defined.

(** X10: an Add of fiber 3 under the root 1. *)
Lemma updateTree_keeps_ids_witness :
  let registered := λ (k : word) (_ : loc) node,
    id node = None ∨ id node = k in
  let h' :=
    (updateTree exampleTree [0; 0; 0; 1; 3; 5; 1; 0; 0; 0] exampleHeap).2 in
  ∃ m' : NodeMap,
    maps h' !! 1%nat = Some m' ∧ entries registered (objs h') m'.
Proof.
  intros registered h'.
  refine (updateTree_keeps_ids exampleMap exampleTree
            [0; 0; 0; 1; 3; 5; 1; 0; 0; 0] exampleHeap
            {| nodes := 1%nat; rootID := 1 |} h' _ _ _).
  - reflexivity.
  - intros k l Hl.
    destruct (exampleMap_entries k l Hl) as [[-> ->]|[-> ->]];
      eexists; (split; [reflexivity | by right]).
  - vm_compute. reflexivity.
Defined.

(** X12: commit 0 and then commit 1 of [twoCommitsStore]. *)
Lemma getCommitTree_after_earlier_witness :
  (getCommitTree 5 0 exampleSummary twoCommitsStore ;;;
   getCommitTree 5 1 exampleSummary twoCommitsStore)%st emptyState
  = getCommitTree 5 1 exampleSummary twoCommitsStore emptyState.
Proof.
  refine (getCommitTree_after_earlier 5 exampleSummary twoCommitsStore
            1 0 emptyState _).
  lia.
Defined.

(** X13: commit 2 of [twoCommitsStore], which has two commits. *)
Lemma getCommitTree_without_operations_witness :
  getCommitTree 5 2 exampleSummary twoCommitsStore emptyState
  = (Throw (UnableToReconstruct 1 2),
     (getCommitTree 5 1 exampleSummary twoCommitsStore emptyState).2).
Proof.
  refine (proj2 (getCommitTree_without_operations 5 2 exampleSummary
                   twoCommitsStore emptyState _ _)
            1%nat {| nodes := 2%nat; rootID := 1 |} _ eq_refl _).
  - reflexivity.
  - reflexivity.
  - vm_compute. reflexivity.
Defined.

(** X14: commit 1 of [twoCommitsStore] from the empty cache. *)
Lemma getCommitTree_fills_array_witness :
  let s' := (getCommitTree 5 1 exampleSummary twoCommitsStore emptyState).2 in
  commitTrees_of 1 s' !! 1%nat = Some {| nodes := 2%nat; rootID := 1 |} ∧
  (∀ j, (j ≤ 1)%nat → is_Some (commitTrees_of 1 s' !! j)) ∧
  length (commitTrees_of 1 s') = 2%nat.
Proof.
  intros s'.
  destruct (getCommitTree_fills_array 5 1 exampleSummary twoCommitsStore
              emptyState s' {| nodes := 2%nat; rootID := 1 |})
    as (Hentry & Hbelow & _ & Hlength).
  - vm_compute. reflexivity.
  - split; [exact Hentry|]. split; [exact Hbelow | exact Hlength].
Defined.

(** X15: commit 1 of root 1 with a cache that has a tree of root 7. *)
Lemma getCommitTree_leaves_other_roots_witness :
  commitTrees_of 7
    (getCommitTree 5 1 exampleSummary twoCommitsStore otherRootState).2
  = [exampleTree].
Proof.
  refine (proj1 (getCommitTree_leaves_other_roots 5 1 exampleSummary
                   twoCommitsStore otherRootState 7 _)).
  vm_compute. discriminate.
Defined.

(** X16: commit 0 of [twoCommitsStore], computed, dropped and computed
    again. *)
Lemma invalidateCommitTrees_forces_recomputation_witness :
  let s := (getCommitTree 5 0 exampleSummary twoCommitsStore emptyState).2 in
  let s' :=
    (getCommitTree 5 0 exampleSummary twoCommitsStore
       (invalidateCommitTrees s).2).2 in
  maps (heap s) !! 3%nat = None ∧ is_Some (maps (heap s') !! 3%nat).
Proof.
  intros s s'.
  destruct (invalidateCommitTrees_forces_recomputation 5 0 exampleSummary
              twoCommitsStore s s' {| nodes := 3%nat; rootID := 1 |})
    as (_ & Hfresh & Hthere & _).
  - vm_compute. reflexivity.
  - split; [exact Hfresh | exact Hthere].
Defined.

(** X19: the snapshot of [nestedStore], from the root 1. *)
Lemma recursivelyIniitliazeTree_mirrors_snapshot_witness :
  let durations := initialTreeBaseDurations exampleSummary in
  let snapshot := profilingSnapshot (profilingData_of nestedStore) in
  let h' :=
    (recursivelyIniitliazeTree 5 1 0 0%nat durations nestedStore
       {| objs := []; maps := [∅] |}).2 in
  ∃ m' : NodeMap,
    maps h' !! 0%nat = Some m' ∧
    ∀ k l, m' !! k = Some l →
      ∃ id entry parent,
        k = Some id ∧ snapshot !! id = Some entry ∧
        (parent = 0 ∨
         ∃ above, snapshot !! parent = Some above ∧
                  id ∈ snapshot_children above) ∧
        objs h' !! l = Some (snapshotObject durations id parent entry).
Proof.
  intros durations snapshot h'.
  refine (recursivelyIniitliazeTree_mirrors_snapshot nestedStore durations
            5 1 0 empty_heap h' _).
  vm_compute. reflexivity.
Defined.

(** X20: the snapshot of [cyclicStore], from the root 1. *)
Lemma recursivelyIniitliazeTree_loops_on_cycle_witness :
  1 ∈ [1] ∧
  ∀ fuel h',
    recursivelyIniitliazeTree fuel 1 0 0%nat ∅ cyclicStore
      {| objs := []; maps := [∅] |} ≠ (OK tt, h').
Proof.
  split; [by left|]. intros fuel h'.
  refine (recursivelyIniitliazeTree_loops_on_cycle cyclicStore ∅ 0%nat fuel
            1 0
            {| snapshot_children := [1];
               snapshot_displayName := SString "Root";
               snapshot_key := SNull |}
            {| objs := []; maps := [∅] |} h' _ _).
  - reflexivity.
  - by left.
Defined.

(** The cache is consistent when the module is loaded. *)
Lemma emptyState_consistent : consistent emptyState.
Proof.
  intros r trees j t Htrees. simpl in Htrees.
  by rewrite lookup_empty in Htrees.
Qed.

(** X21: a table that holds the name App, and an Add of fiber 3 under
    the root 1 with that name and no key. *)
Lemma updateTree_add_resolves_names_witness :
  updateTree exampleTree [0; 1; 4; 3; 65; 112; 112; 1; 3; 5; 1; 0; 1; 0]
    exampleHeap
  = (OK {| nodes := 1%nat; rootID := 1 |},
     {| objs :=
          [exampleRoot; exampleChild;
           set_children exampleRoot [Some 2; Some 3];
           {| children := Some []; displayName := SString "App";
              id := Some 3; key := SNull; parentID := Some 1;
              treeBaseDuration := Some 0%float |}];
        maps :=
          [exampleMap;
           <[Some 3 := 3%nat]> (<[Some 1 := 2%nat]> exampleMap)] |}).
Proof.
  refine (updateTree_add_resolves_names exampleMap exampleTree
            [[65; 112; 112]] 0 1 3 5 1 0 1 0 exampleHeap 0%nat exampleRoot
            [Some 2] _ _ _ _ _ _).
  - vm_compute. discriminate.
  - reflexivity.
  - reflexivity.
  - reflexivity.
  - reflexivity.
  - reflexivity.
Defined.

(** X22: two commits of [twoCommitsStore], the cache emptied, and a
    call that throws. *)
Lemma commitTrees_stay_consistent_witness :
  consistent emptyState ∧
  consistent
    (runCommands
       [GetCommitTree 5 1 exampleSummary twoCommitsStore;
        InvalidateCommitTrees;
        GetCommitTree 5 0 exampleSummary duplicateStore]
       emptyState).
Proof.
  split; [exact emptyState_consistent|].
  exact (commitTrees_stay_consistent
           [GetCommitTree 5 1 exampleSummary twoCommitsStore;
            InvalidateCommitTrees;
            GetCommitTree 5 0 exampleSummary duplicateStore]
           emptyState emptyState_consistent).
Defined.

(** X23: commit 1 of [duplicateStore], whose commit 0 adds a fiber the
    tree has. *)
Lemma getCommitTree_throws_known_errors_witness :
  match getCommitTree 5 1 exampleSummary duplicateStore emptyState with
  | (OK t, s') =>
      rootID t = 1 ∧
      ∃ m : NodeMap,
        maps (heap s') !! nodes t = Some m ∧
        ∀ k l, m !! k = Some l → is_Some (objs (heap s') !! l)
  | (Throw e, _) => knownError 1 1 e
  end.
Proof.
  exact (getCommitTree_throws_known_errors 5 1 exampleSummary duplicateStore
           emptyState emptyState_consistent).
Defined.

(** C5. A Remove of the root 1 and then of fiber 99, which the tree
    never had. The round for the root does not return: its [parentID]
    0 is the id of no node, [getClonedNode] registers an object without
    properties under 0, the [null] test lets it through, and the call of
    [filter] on its missing [children] throws [TypeError] before 99 is
    looked up, where the claim has [DoesNotContainFiber] for 99, which
    is no key of the map the round leaves. [getCommitTree] throws the
    same; nothing is pushed, and commit 0 is still served. *)
Theorem remove_unknown_after_root_throws_TypeError :
  let operations := [0; 0; 0; 2; 2; 1; 99] in
  let store := exampleStore (Some [[]; operations]) in
  let result := updateTree exampleTree operations exampleHeap in
  let thrown := getCommitTree 0 1 exampleSummary store exampleState in
  result.1 = Throw TypeError ∧
  result.1 ≠ Throw (DoesNotContainFiber (Some 99)) ∧
  maps result.2 !! 1%nat
  = Some (<[Some 0 := 3%nat]> (<[Some 2 := 1%nat]> ∅)) ∧
  objs result.2 !! 3%nat = Some emptyObject ∧
  thrown.1 = Throw TypeError ∧
  rootToCommitTreeMap thrown.2 = rootToCommitTreeMap exampleState ∧
  getCommitTree 0 0 exampleSummary store thrown.2
  = (OK exampleTree, thrown.2).
Proof.
  vm_compute. repeat split; try reflexivity. discriminate.
Qed.

End Examples.
